(** * Key manager worker (go/worker/keymanager): a shallow embedding

    The Go worker is a single event loop that owns the mutable state of the
    key manager worker: the access control table, the cached enclave status,
    the queue of ephemeral secrets waiting to be loaded and the scheduling
    of ephemeral secret generation.  Maps are [gmap]s, sets are [gset]s,
    Go's fixed-width integers are [Z] with their wrap-around written out,
    and everything the worker obtains from outside (consensus queries, the
    hosted enclave, CBOR, signatures, the random source) is an explicit
    oracle. *)

From Stdlib Require Import ZArith List Lia Bool.
From stdpp Require Import base gmap strings list fin_maps fin_sets.

Open Scope Z_scope.

(** ** Identifiers and wire data *)

(** [core.PeerID] is a Go string; [common.Namespace], [signature.PublicKey]
    and [x25519.PublicKey] are 32-byte arrays, read here as the number they
    spell. *)
Abbreviation PeerID := string (only parsing).
Abbreviation Namespace := N (only parsing).
Abbreviation PublicKey := N (only parsing).
Abbreviation X25519PublicKey := N (only parsing).
Abbreviation EnclaveIdentity := N (only parsing).
Abbreviation bytes := (list Byte.byte) (only parsing).

(** [beacon.EpochTime] is a [uint64], block heights and counters are
    [int64] / [int]. *)
Definition wrapU64 (x : Z) : Z := x mod 2 ^ 64.
Definition wrap64 (x : Z) : Z := (x + 2 ^ 63) mod 2 ^ 64 - 2 ^ 63.
Definition MaxInt64 : Z := 2 ^ 63 - 1.

(** Go errors: a message, possibly wrapping another error ([%w]). *)
Inductive error : Type :=
  | Errorf (msg : string)
  | Wrapf (msg : string) (cause : error).

Definition errMalformedResponse : error :=
  Errorf "worker/keymanager: malformed response from worker".

(** [node.TEEHardware]: the two kinds the worker names, and any other
    value of the underlying byte. *)
Inductive TEEHardware : Type :=
  | TEEHardwareInvalid
  | TEEHardwareIntelSGX
  | TEEHardwareOther (code : N).

Record CapabilityTEE : Type := {
  Hardware : TEEHardware;
  RAK : PublicKey;
  REK : option X25519PublicKey
}.

Record NodeRuntime : Type := {
  nrt_ID : Namespace;
  nrt_Version : N;
  nrt_TEE : option CapabilityTEE;
  nrt_ExtraInfo : option bytes
}.

Record Node : Type := {
  node_ID : PublicKey;
  node_P2P_ID : PublicKey;
  node_Runtimes : list NodeRuntime
}.

(** ** Consensus-side records (go/keymanager/api, go/registry/api) *)

Record EnclavePolicySGX : Type := {
  MayQuery : gmap Namespace (list EnclaveIdentity);
  MayReplicate : list EnclaveIdentity
}.

Record PolicySGX : Type := {
  pol_Serial : N;
  pol_ID : Namespace;
  Enclaves : gmap EnclaveIdentity EnclavePolicySGX
}.

Record SignedPolicySGX : Type := {
  Policy : PolicySGX;
  pol_Signatures : list bytes
}.

Record Status : Type := {
  st_ID : Namespace;
  IsInitialized : bool;
  IsSecure : bool;
  Checksum : bytes;
  Nodes : list PublicKey;
  st_Policy : option SignedPolicySGX;
  st_RSK : option PublicKey
}.

Record InitResponse : Type := {
  ir_IsSecure : bool;
  ir_Checksum : bytes;
  PolicyChecksum : bytes;
  ir_RSK : option N
}.

Record SignedInitResponse : Type := {
  InitResponse_ : InitResponse;
  ir_Signature : bytes
}.

Record InitRequest : Type := {
  req_Checksum : bytes;
  req_Policy : option bytes;
  req_MayGenerate : bool
}.

Record EncryptedEphemeralSecret : Type := {
  sec_ID : Namespace;
  sec_Epoch : Z;
  sec_Ciphertexts : list (N * bytes)
}.

Record SignedEncryptedEphemeralSecret : Type := {
  Secret : EncryptedEphemeralSecret;
  sec_Signature : bytes
}.

Inductive RuntimeKind : Type := KindInvalid | KindCompute | KindKeyManager.

Record Runtime : Type := {
  rt_ID : Namespace;
  rt_Kind : RuntimeKind;
  rt_KeyManager : option Namespace;
  rt_TEEHardware : TEEHardware
}.

Inductive CommitteeKind : Type := KindComputeExecutor | KindOtherCommittee.

Record Committee : Type := {
  cm_Kind : CommitteeKind;
  cm_Members : list PublicKey
}.

(** ** Enclave RPC (go/runtime/enclaverpc/api, go/runtime/host/protocol) *)

Inductive Kind : Type := KindNoiseSession | KindInsecureQuery | KindLocalQuery.

Record Frame : Type := {
  Session : bytes;
  UntrustedPlaintext : string;
  Payload : bytes
}.

(** The argument of a local call is an [interface{}]; the worker passes
    one of three request structs. *)
Inductive RpcArgs : Type :=
  | ArgsInit (r : InitRequest)
  | ArgsGenerate (epoch : Z)
  | ArgsLoad (s : SignedEncryptedEphemeralSecret).

(** [protocol.Body] as a request, and the two response fields the worker
    reads from the answer. *)
Inductive HostRequest : Type :=
  | RuntimeRPCCallRequest (request : bytes) (kind : Kind)
  | RuntimeLocalRPCCallRequest (request : bytes).

Record HostResponse : Type := {
  RuntimeRPCCallResponse : option bytes;
  RuntimeLocalRPCCallResponse : option bytes
}.

(** [enclaverpc.Message]: only [Response] and its body are inspected. *)
Record RpcBody : Type := {
  Success : option bytes;
  Error : option string
}.

Record Message : Type := {
  msg_Response : option RpcBody
}.

(** The method names of package [api] (go/keymanager/api), which the
    worker refers to by constant ([api.RPCMethodInit] and the like). *)
Definition RPCMethodInit : string := "init".
Definition RPCMethodGetPublicKey : string := "get_public_key".
Definition RPCMethodGetPublicEphemeralKey : string := "get_public_ephemeral_key".
Definition RPCMethodGenerateEphemeralSecret : string := "generate_ephemeral_secret".
Definition RPCMethodLoadEphemeralSecret : string := "load_ephemeral_secret".

Definition loadEphemeralSecretMaxRetries : Z := 5.
Definition generateEphemeralSecretMaxRetries : Z := 5.
Definition ephemeralSecretCacheSize : Z := 20.

(** ** Results and outward actions *)

Inductive result (A : Type) : Type :=
  | Ok (a : A)
  | Err (e : error).
Arguments Ok {A} a.
Arguments Err {A} e.

(** What the worker does to the outside, in the order it does it. *)
Inductive Effect : Type :=
  | HostCall (req : HostRequest)
  | LocalCall (method : string) (args : RpcArgs)
  | SubmitTx (secret : SignedEncryptedEphemeralSecret)
  | SetAvailable (version : N) (extraInfo : option bytes) (tee : option CapabilityTEE)
  | SetUnavailable
  | StartWatcher (runtimeID : N).

(** Answers of [GetEphemeralSecret] and [GetNode]: found, the sentinel
    "no such" error, or any other error. *)
Inductive Query (A : Type) : Type :=
  | Found (a : A)
  | NoSuch
  | Failed (e : error).
Arguments Found {A} a.
Arguments NoSuch {A}.
Arguments Failed {A} e.

(** ** The outside world

    [Externals] are the pure library functions and process-wide constants
    the worker uses; [World] is what the node's backends answer at the
    moment a handler runs.  One handler sees one world; successive
    handlers may see different ones.

    A decoder is an [option]-valued function; the error that
    [cbor.Unmarshal] reports when it fails, which the worker wraps with
    [%w], is given by [UnmarshalMessageError] for the envelope and by
    [UnmarshalPayloadError] for the payload of the named method.
    [VerifySecretError] is the error of a failed secret verification and
    [FormatTEEHardware] what [%v] prints for a hardware kind. *)

Record Externals : Type := {
  PublicKeyToPeerID : PublicKey -> option PeerID;
  InsecureRAK : PublicKey;
  InsecureREK : X25519PublicKey;
  UnmarshalFrame : bytes -> option Frame;
  MarshalRequest : string -> RpcArgs -> bytes;
  UnmarshalMessage : bytes -> option Message;
  UnmarshalInitResponse : bytes -> option SignedInitResponse;
  UnmarshalGenerateResponse : bytes -> option SignedEncryptedEphemeralSecret;
  UnmarshalEmpty : bytes -> bool;
  MarshalPolicy : SignedPolicySGX -> bytes;
  MarshalInitResponse : SignedInitResponse -> bytes;
  HexEncode : bytes -> string;
  VerifyInitResponse : SignedInitResponse -> PublicKey -> bool;
  VerifySecret :
    SignedEncryptedEphemeralSecret -> Z -> gset X25519PublicKey -> PublicKey -> bool;
  UnmarshalMessageError : bytes -> error;
  UnmarshalPayloadError : string -> bytes -> error;
  VerifySecretError :
    SignedEncryptedEphemeralSecret -> Z -> gset X25519PublicKey -> PublicKey -> error;
  FormatTEEHardware : TEEHardware -> string
}.

Record World : Type := {
  (* beacon *)
  GetEpoch : result Z;
  ConsensusParametersInterval : result Z;
  GetEpochBlock : Z -> result Z;
  Int63n : Z -> Z;
  (* key manager backend *)
  GetEphemeralSecret : Namespace -> Z -> Query SignedEncryptedEphemeralSecret;
  (* registry *)
  GetRuntimes : result (list Runtime);
  GetRuntime : Namespace -> result Runtime;
  GetNode : PublicKey -> Query Node;
  (* scheduler and node descriptor watcher *)
  GetCommittees : Namespace -> result (list Committee);
  NewVersionedNodeDescriptorWatcher : option error;
  GetNodes : list PublicKey -> list Node;
  (* hosted runtime *)
  Call : HostRequest -> result HostResponse;
  ProvisionHostedRuntime : option error;
  WatchEvents : option error;
  hrtStart : option error;
  hrtNotifierStart : option error;
  SetHostedRuntimeVersion : option error;
  (* consensus submission *)
  SignAndSubmitTx : SignedEncryptedEphemeralSecret -> option error
}.

(** ** Worker state *)

Record runtimeStatus : Type := {
  version : N;
  capabilityTEE : option CapabilityTEE
}.

(** The node descriptor watcher of a client runtime is outside the
    source; [crw_watched] is the set of node keys it was last told to
    watch ([Reset] empties it, [WatchNode] adds to it). *)
Record clientRuntimeWatcher : Type := {
  crw_runtimeID : Namespace;
  crw_watched : list PublicKey
}.

(** The fields of the Go [Worker] that the handlers read or write.
    [runtimeID] is [w.runtime.ID()] and [nodeID] the public key of the
    node signer.  A channel is the flag "closed", the retry ticker the
    flag "armed", the hosted runtime the flag "provisioned";
    [registerCallback] says that a registration callback, which closes
    [initCh], is pending.  The two counters of the observability group
    that count runtimes and policy updates are the package-level metrics.
    [effects] is not a field of the Go struct: it records what the worker
    has sent out.  [hostedRuntime] is what [w.GetHostedRuntime()] returns:
    nil until [ProvisionHostedRuntime] has succeeded. *)
Record Worker : Type := {
  (* configuration, fixed at construction *)
  runtimeID : Namespace;
  nodeID : PublicKey;
  privatePeers : gset PeerID;
  mayGenerate : bool;
  enabled : bool;
  (* channels and tickers *)
  initCh : bool;
  registerCallback : bool;
  initTicker : bool;
  hostedRuntime : bool;
  (* access control *)
  clientRuntimes : gmap Namespace clientRuntimeWatcher;
  accessList : gmap PeerID (gset Namespace);
  accessListByRuntime : gmap Namespace (list PeerID);
  (* cached consensus and enclave state *)
  globalStatus : option Status;
  enclaveStatus : option SignedInitResponse;
  policy : option SignedPolicySGX;
  policyChecksum : bytes;
  (* observability *)
  numLoadedSecrets : Z;
  lastLoadedSecret : Z;
  numGeneratedSecrets : Z;
  lastGeneratedSecret : Z;
  computeRuntimeCount : Z;
  policyUpdateCount : Z;
  (* outward actions so far, oldest first *)
  effects : list Effect
}.

Definition with_access (w : Worker) (al : gmap string (gset N))
    (albr : gmap N (list string)) : Worker :=
  {| runtimeID := runtimeID w; nodeID := nodeID w; privatePeers := privatePeers w;
     mayGenerate := mayGenerate w; enabled := enabled w; initCh := initCh w;
     registerCallback := registerCallback w; initTicker := initTicker w;
     hostedRuntime := hostedRuntime w; clientRuntimes := clientRuntimes w;
     accessList := al; accessListByRuntime := albr;
     globalStatus := globalStatus w; enclaveStatus := enclaveStatus w;
     policy := policy w; policyChecksum := policyChecksum w;
     numLoadedSecrets := numLoadedSecrets w; lastLoadedSecret := lastLoadedSecret w;
     numGeneratedSecrets := numGeneratedSecrets w;
     lastGeneratedSecret := lastGeneratedSecret w;
     computeRuntimeCount := computeRuntimeCount w;
     policyUpdateCount := policyUpdateCount w; effects := effects w |}.

Definition with_effects (w : Worker) (es : list Effect) : Worker :=
  {| runtimeID := runtimeID w; nodeID := nodeID w; privatePeers := privatePeers w;
     mayGenerate := mayGenerate w; enabled := enabled w; initCh := initCh w;
     registerCallback := registerCallback w; initTicker := initTicker w;
     hostedRuntime := hostedRuntime w; clientRuntimes := clientRuntimes w;
     accessList := accessList w; accessListByRuntime := accessListByRuntime w;
     globalStatus := globalStatus w; enclaveStatus := enclaveStatus w;
     policy := policy w; policyChecksum := policyChecksum w;
     numLoadedSecrets := numLoadedSecrets w; lastLoadedSecret := lastLoadedSecret w;
     numGeneratedSecrets := numGeneratedSecrets w;
     lastGeneratedSecret := lastGeneratedSecret w;
     computeRuntimeCount := computeRuntimeCount w;
     policyUpdateCount := policyUpdateCount w; effects := es |}.

Definition emit (w : Worker) (es : list Effect) : Worker :=
  with_effects w (effects w ++ es).

Definition with_init (w : Worker) (ch cb ticker hrt : bool) : Worker :=
  {| runtimeID := runtimeID w; nodeID := nodeID w; privatePeers := privatePeers w;
     mayGenerate := mayGenerate w; enabled := enabled w; initCh := ch;
     registerCallback := cb; initTicker := ticker;
     hostedRuntime := hrt; clientRuntimes := clientRuntimes w;
     accessList := accessList w; accessListByRuntime := accessListByRuntime w;
     globalStatus := globalStatus w; enclaveStatus := enclaveStatus w;
     policy := policy w; policyChecksum := policyChecksum w;
     numLoadedSecrets := numLoadedSecrets w; lastLoadedSecret := lastLoadedSecret w;
     numGeneratedSecrets := numGeneratedSecrets w;
     lastGeneratedSecret := lastGeneratedSecret w;
     computeRuntimeCount := computeRuntimeCount w;
     policyUpdateCount := policyUpdateCount w; effects := effects w |}.

Definition with_cache (w : Worker) (gs : option Status)
    (es : option SignedInitResponse) (p : option SignedPolicySGX)
    (pc : bytes) (puc : Z) : Worker :=
  {| runtimeID := runtimeID w; nodeID := nodeID w; privatePeers := privatePeers w;
     mayGenerate := mayGenerate w; enabled := enabled w; initCh := initCh w;
     registerCallback := registerCallback w; initTicker := initTicker w;
     hostedRuntime := hostedRuntime w; clientRuntimes := clientRuntimes w;
     accessList := accessList w; accessListByRuntime := accessListByRuntime w;
     globalStatus := gs; enclaveStatus := es;
     policy := p; policyChecksum := pc;
     numLoadedSecrets := numLoadedSecrets w; lastLoadedSecret := lastLoadedSecret w;
     numGeneratedSecrets := numGeneratedSecrets w;
     lastGeneratedSecret := lastGeneratedSecret w;
     computeRuntimeCount := computeRuntimeCount w;
     policyUpdateCount := puc; effects := effects w |}.

Definition with_secrets (w : Worker) (nl ll ng lg : Z) : Worker :=
  {| runtimeID := runtimeID w; nodeID := nodeID w; privatePeers := privatePeers w;
     mayGenerate := mayGenerate w; enabled := enabled w; initCh := initCh w;
     registerCallback := registerCallback w; initTicker := initTicker w;
     hostedRuntime := hostedRuntime w; clientRuntimes := clientRuntimes w;
     accessList := accessList w; accessListByRuntime := accessListByRuntime w;
     globalStatus := globalStatus w; enclaveStatus := enclaveStatus w;
     policy := policy w; policyChecksum := policyChecksum w;
     numLoadedSecrets := nl; lastLoadedSecret := ll;
     numGeneratedSecrets := ng;
     lastGeneratedSecret := lg;
     computeRuntimeCount := computeRuntimeCount w;
     policyUpdateCount := policyUpdateCount w; effects := effects w |}.

Definition with_watchers (w : Worker) (crs : gmap N clientRuntimeWatcher)
    (count : Z) : Worker :=
  {| runtimeID := runtimeID w; nodeID := nodeID w; privatePeers := privatePeers w;
     mayGenerate := mayGenerate w; enabled := enabled w; initCh := initCh w;
     registerCallback := registerCallback w; initTicker := initTicker w;
     hostedRuntime := hostedRuntime w; clientRuntimes := crs;
     accessList := accessList w; accessListByRuntime := accessListByRuntime w;
     globalStatus := globalStatus w; enclaveStatus := enclaveStatus w;
     policy := policy w; policyChecksum := policyChecksum w;
     numLoadedSecrets := numLoadedSecrets w; lastLoadedSecret := lastLoadedSecret w;
     numGeneratedSecrets := numGeneratedSecrets w;
     lastGeneratedSecret := lastGeneratedSecret w;
     computeRuntimeCount := count;
     policyUpdateCount := policyUpdateCount w; effects := effects w |}.

(** ** Enclave RPC adapter *)

(** The tail of [CallEnclave], after the access check: wait for
    initialization, dispatch, unwrap.  [ctxDone] is the outcome of the
    [select] on [w.initCh] and [ctx.Done()]: [None] when the
    initialization branch is taken, [Some e] when the context ends first
    with [ctx.Err() = e]. *)
Definition dispatchRPC (wd : World) (ctxDone : option error)
    (data : bytes) (kind : Kind) : list Effect * result bytes :=
  match ctxDone with
  | Some e => ([], Err e)
  | None =>
      let req := RuntimeRPCCallRequest data kind in
      match Call wd req with
      | Err e => ([HostCall req], Err e)
      | Ok response =>
          match RuntimeRPCCallResponse response with
          | None => ([HostCall req], Err errMalformedResponse)
          | Some resp => ([HostCall req], Ok resp)
          end
      end
  end.

(** [peer] is what [rpc.PeerIDFromContext] finds in the call context. *)
Definition CallEnclave (X : Externals) (wd : World) (w : Worker)
    (peer : option string) (ctxDone : option error)
    (data : bytes) (kind : Kind) : list Effect * result bytes :=
  match kind with
  | KindNoiseSession =>
      match peer with
      | None => ([], Err (Errorf "not authorized"))
      | Some peerID =>
          match UnmarshalFrame X data with
          | None => ([], Err (Errorf "malformed request"))
          | Some frame =>
              if String.eqb (UntrustedPlaintext frame) "" then
                dispatchRPC wd ctxDone data kind
              else if String.eqb (UntrustedPlaintext frame) RPCMethodGetPublicKey
                   || String.eqb (UntrustedPlaintext frame) RPCMethodGetPublicEphemeralKey then
                dispatchRPC wd ctxDone data kind
              else if bool_decide (peerID ∈ privatePeers w) then
                dispatchRPC wd ctxDone data kind
              else
                match accessList w !! peerID with
                | None => ([], Err (Errorf "not authorized"))
                | Some _ => dispatchRPC wd ctxDone data kind
                end
          end
      end
  | KindInsecureQuery => dispatchRPC wd ctxDone data kind
  | KindLocalQuery => ([], Err (Errorf "unsupported RPC kind"))
  end.

(** [localCallEnclave]: one [Call] to the hosted runtime, then the
    envelope is taken apart; [unmarshal] decodes the success payload into
    the response type the caller asked for.

    The Go function calls [Call] on [w.GetHostedRuntime()] without a nil
    check, and panics when no runtime has been provisioned.  This is the
    function on a provisioned runtime: [hostedRuntime w = true] is its
    precondition, and the statements about callers that the loop can reach
    without a runtime carry it as a hypothesis. *)
Definition localCallEnclave {T : Type} (X : Externals) (wd : World)
    (unmarshal : bytes -> option T) (method : string) (args : RpcArgs) : result T :=
  let body := RuntimeLocalRPCCallRequest (MarshalRequest X method args) in
  match Call wd body with
  | Err e => Err e
  | Ok response =>
      match RuntimeLocalRPCCallResponse response with
      | None => Err errMalformedResponse
      | Some resp =>
          match UnmarshalMessage X resp with
          | None =>
              Err (Wrapf "malformed message envelope" (UnmarshalMessageError X resp))
          | Some msg =>
              match msg_Response msg with
              | None =>
                  Err (Errorf ("message is not a response: '" +:+ HexEncode X resp +:+ "'"))
              | Some b =>
                  match Success b, Error b with
                  | Some payload, _ =>
                      match unmarshal payload with
                      | None =>
                          Err (Wrapf "failed to extract rpc response payload"
                                     (UnmarshalPayloadError X method payload))
                      | Some rsp => Ok rsp
                      end
                  | None, Some e => Err (Errorf ("rpc failure: '" +:+ e +:+ "'"))
                  | None, None =>
                      Err (Errorf ("unknown rpc response status: '" +:+ HexEncode X resp +:+ "'"))
                  end
              end
          end
      end
  end.

(** ** Status reconciler *)

(** The deferred function of [updateStatus]: a failed initialization
    arms the retry ticker unless one is armed already. *)
Definition armInitTicker (w : Worker) : Worker :=
  with_init w (initCh w) (registerCallback w) true (hostedRuntime w).

(** The key the init response is checked against, by TEE hardware. *)
Definition signingKeyFor (X : Externals) (tee : CapabilityTEE) : result N :=
  match Hardware tee with
  | TEEHardwareInvalid => Ok (InsecureRAK X)
  | TEEHardwareIntelSGX => Ok (RAK tee)
  | TEEHardwareOther _ =>
      Err (Errorf ("worker/keymanager: unknown TEE hardware: "
                   +:+ FormatTEEHardware X (Hardware tee)))
  end.

(** The arguments of the [init] call: the checksum of the status, its
    policy in CBOR when there is one, and whether this node may generate. *)
Definition initRequest (X : Externals) (w : Worker) (status : Status) : RpcArgs :=
  ArgsInit {| req_Checksum := Checksum status;
              req_Policy := MarshalPolicy X <$> st_Policy status;
              req_MayGenerate := mayGenerate w |}.

Definition updateStatus (X : Externals) (wd : World) (w : Worker)
    (status : Status) (rs : runtimeStatus) : Worker * option error :=
  let args := initRequest X w status in
  let w := emit w [LocalCall RPCMethodInit args] in
  match localCallEnclave X wd (UnmarshalInitResponse X) RPCMethodInit args with
  | Err e =>
      (armInitTicker w, Some (Wrapf "worker/keymanager: failed to initialize enclave" e))
  | Ok signedInitResp =>
      let checked : option error :=
        match capabilityTEE rs with
        | Some tee =>
            match signingKeyFor X tee with
            | Err e => Some e
            | Ok signingKey =>
                if VerifyInitResponse X signedInitResp signingKey then None
                else Some (Wrapf "worker/keymanager: failed to validate initialization response signature"
                                 (Errorf "keymanager: invalid initialization response signature"))
            end
        | None => None
        end in
      match checked with
      | Some e => (armInitTicker w, Some e)
      | None =>
          (* the retry ticker is stopped, the node is announced, the
             registration callback will close initCh *)
          let w := with_init w (initCh w) true false (hostedRuntime w) in
          let w := emit w [SetAvailable (version rs)
                             (Some (MarshalInitResponse X signedInitResp))
                             (capabilityTEE rs)] in
          (with_cache w (globalStatus w) (Some signedInitResp) (st_Policy status)
             (PolicyChecksum (InitResponse_ signedInitResp))
             (policyUpdateCount w + 1), None)
      end
  end.

Definition setStatus (w : Worker) (status : Status) : Worker :=
  with_cache w (Some status) (enclaveStatus w) (policy w) (policyChecksum w)
    (policyUpdateCount w).

Definition setLastGeneratedSecretEpoch (w : Worker) (epoch : Z) : Worker :=
  with_secrets w (numLoadedSecrets w) (lastLoadedSecret w)
    (wrap64 (numGeneratedSecrets w + 1)) epoch.

Definition setLastLoadedSecretEpoch (w : Worker) (epoch : Z) : Worker :=
  with_secrets w (wrap64 (numLoadedSecrets w + 1)) epoch
    (numGeneratedSecrets w) (lastGeneratedSecret w).

(** ** Access control table

    [accessList] maps a peer to the set of runtimes it serves,
    [accessListByRuntime] maps a runtime to the peers last installed for
    it.  Reading a missing key of a Go map yields the zero value: the nil
    map, respectively the nil slice. *)

Definition peersOf (albr : gmap N (list string)) (rid : N) : list string :=
  default [] (albr !! rid).

(** Body of the first loop of [setAccessList].  When the peer has no
    entry, [entry] is the nil map: deleting from it and from
    [w.accessList] changes nothing. *)
Definition clearPeer (rid : N) (al : gmap string (gset N)) (peerID : string)
    : gmap string (gset N) :=
  match al !! peerID with
  | Some entry =>
      let entry' := entry ∖ {[ rid ]} in
      if decide (size entry' = 0%nat) then delete peerID al
      else <[ peerID := entry' ]> al
  | None => al
  end.

(** Body of the second loop: nodes whose key does not translate are
    skipped, the others get the runtime added to their entry (created
    when missing) and are appended to [peers]. *)
Definition addNode (X : Externals) (rid : N)
    (acc : gmap string (gset N) * list string) (n : Node)
    : gmap string (gset N) * list string :=
  match PublicKeyToPeerID X (node_P2P_ID n) with
  | None => acc
  | Some peerID =>
      let entry := default ∅ (acc.1 !! peerID) in
      (<[ peerID := {[ rid ]} ∪ entry ]> acc.1, acc.2 ++ [peerID])
  end.

Definition setAccessList (X : Externals) (w : Worker) (rid : N)
    (nodes : list Node) : Worker :=
  let cleared := foldl (clearPeer rid) (accessList w)
                   (peersOf (accessListByRuntime w) rid) in
  let added := foldl (addNode X rid) (cleared, []) nodes in
  with_access w added.1 (<[ rid := added.2 ]> (accessListByRuntime w)).

(** ** Client runtime watchers *)

(** [crw.epochTransition]: the watcher is reset, the executor committee
    members are watched, and the access list of the runtime is replaced
    by what the watcher knows about them.  A failed committee query
    leaves the watcher reset and the access list untouched. *)
Definition epochTransition (X : Externals) (wd : World) (w : Worker)
    (crw : clientRuntimeWatcher) : Worker * clientRuntimeWatcher :=
  match GetCommittees wd (crw_runtimeID crw) with
  | Err _ => (w, {| crw_runtimeID := crw_runtimeID crw; crw_watched := [] |})
  | Ok cms =>
      let members :=
        flat_map (fun cm => match cm_Kind cm with
                            | KindComputeExecutor => cm_Members cm
                            | KindOtherCommittee => []
                            end) cms in
      (setAccessList X w (crw_runtimeID crw) (GetNodes wd members),
       {| crw_runtimeID := crw_runtimeID crw; crw_watched := members |})
  end.

(** The policy check of [startClientRuntimeWatcher]: an insecure key
    manager without a policy lets every runtime in, otherwise some enclave
    of the policy must list the runtime under [MayQuery]. *)
Definition foundInPolicy (status : Status) (rtID : N) : bool :=
  if negb (IsSecure status) && bool_decide (st_Policy status = None) then true
  else
    match st_Policy status with
    | Some p =>
        existsb (fun kv => bool_decide (is_Some (MayQuery kv.2 !! rtID)))
                (map_to_list (Enclaves (Policy p)))
    | None => false
    end.

(** A compute runtime whose key manager is the given runtime. *)
Definition managedBy (rt : Runtime) (rid : N) : bool :=
  match rt_Kind rt, rt_KeyManager rt with
  | KindCompute, Some km => N.eqb km rid
  | _, _ => false
  end.

Definition startClientRuntimeWatcher (X : Externals) (wd : World) (w : Worker)
    (rt : Runtime) (status : option Status) : Worker * option error :=
  match status with
  | None => (w, None)
  | Some status =>
      if negb (IsInitialized status) then (w, None)
      else if negb (managedBy rt (runtimeID w)) then (w, None)
      else if bool_decide (is_Some (clientRuntimes w !! rt_ID rt)) then (w, None)
      else if negb (foundInPolicy status (rt_ID rt)) then (w, None)
      else
        match NewVersionedNodeDescriptorWatcher wd with
        | Some e => (w, Some e)
        | None =>
            let started :=
              epochTransition X wd w {| crw_runtimeID := rt_ID rt; crw_watched := [] |} in
            let w := emit started.1 [StartWatcher (rt_ID rt)] in
            (with_watchers w (<[ rt_ID rt := started.2 ]> (clientRuntimes w))
               (computeRuntimeCount w + 1), None)
        end
  end.

Definition recheckAllRuntimes (X : Externals) (wd : World) (w : Worker)
    (status : option Status) : Worker * option error :=
  match GetRuntimes wd with
  | Err e => (w, Some (Wrapf "failed querying runtimes" e))
  | Ok rts =>
      (foldl (fun w rt => (startClientRuntimeWatcher X wd w rt status).1) w rts, None)
  end.

(** ** Ephemeral secrets *)

(** Outward actions paired with a result, for the code that runs on the
    detached generation task. *)
Definition Act (A : Type) : Type := list Effect * result A.

Definition ret {A : Type} (a : A) : Act A := ([], Ok a).
Definition fail {A : Type} (e : error) : Act A := ([], Err e).
Definition tell (e : Effect) : Act unit := ([e], Ok tt).
Definition lift {A : Type} (r : result A) : Act A := ([], r).

Definition bind {A B : Type} (k : A -> Act B) (m : Act A) : Act B :=
  match m.2 with
  | Ok a => (m.1 ++ (k a).1, (k a).2)
  | Err e => (m.1, Err e)
  end.

#[global] Instance Act_ret : MRet Act := @ret.
#[global] Instance Act_bind : MBind Act := @bind.

(** The remote attestation key a generated secret must be signed with. *)
Definition fetchRAK (X : Externals) (kmRt : Runtime) (rs : runtimeStatus) : result N :=
  match rt_TEEHardware kmRt with
  | TEEHardwareInvalid => Ok (InsecureRAK X)
  | TEEHardwareIntelSGX =>
      match capabilityTEE rs with
      | None => Err (Errorf "node doesn't have TEE capability")
      | Some tee => Ok (RAK tee)
      end
  | TEEHardwareOther _ => Err (Errorf "TEE hardware mismatch")
  end.

(** The REKs of the key manager committee: unknown nodes, nodes that do
    not run the key manager runtime and nodes without a REK are skipped,
    any other registry error aborts. *)
Fixpoint fetchREKs (X : Externals) (wd : World) (kmID : N) (hw : TEEHardware)
    (ids : list N) (reks : gset N) : result (gset N) :=
  match ids with
  | [] => Ok reks
  | id :: rest =>
      match GetNode wd id with
      | Failed e => Err e
      | NoSuch => fetchREKs X wd kmID hw rest reks
      | Found n =>
          match find (fun rt => N.eqb (nrt_ID rt) kmID) (node_Runtimes n) with
          | None => fetchREKs X wd kmID hw rest reks
          | Some nRt =>
              match hw with
              | TEEHardwareInvalid =>
                  fetchREKs X wd kmID hw rest ({[ InsecureREK X ]} ∪ reks)
              | TEEHardwareIntelSGX =>
                  match nrt_TEE nRt with
                  | Some {| REK := Some rek |} =>
                      fetchREKs X wd kmID hw rest ({[ rek ]} ∪ reks)
                  | _ => fetchREKs X wd kmID hw rest reks
                  end
              | TEEHardwareOther _ => fetchREKs X wd kmID hw rest reks
              end
          end
      end
  end.

(** What follows the consensus check of [generateEphemeralSecret]. *)
Definition generateAndPublish (X : Externals) (wd : World) (w : Worker)
    (epoch : Z) (kmStatus : Status) (rs : runtimeStatus) : Act unit :=
  (if bool_decide (nodeID w ∈ Nodes kmStatus) then ret tt
   else fail (Errorf "node not in the key manager committee")) ;;
  tell (LocalCall RPCMethodGenerateEphemeralSecret (ArgsGenerate epoch)) ;;
  signedSecret ← lift
    match localCallEnclave X wd (UnmarshalGenerateResponse X)
            RPCMethodGenerateEphemeralSecret (ArgsGenerate epoch) with
    | Err e => Err (Wrapf "failed to generate ephemeral secret" e)
    | Ok rsp => Ok rsp
    end ;
  kmRt ← lift (GetRuntime wd (st_ID kmStatus)) ;
  rak ← lift (fetchRAK X kmRt rs) ;
  reks ← lift (fetchREKs X wd (st_ID kmStatus) (rt_TEEHardware kmRt) (Nodes kmStatus) ∅) ;
  (if VerifySecret X signedSecret epoch reks rak then ret tt
   else fail (Wrapf "failed to validate generate ephemeral secret response signature"
                    (VerifySecretError X signedSecret epoch reks rak))) ;;
  tell (SubmitTx signedSecret) ;;
  match SignAndSubmitTx wd signedSecret with
  | Some e => fail e
  | None => ret tt
  end.

Definition generateEphemeralSecret (X : Externals) (wd : World) (w : Worker)
    (rid : N) (epoch : Z) (kmStatus : Status) (rs : runtimeStatus) : Act unit :=
  match GetEphemeralSecret wd rid epoch with
  | Found _ => ret tt
  | NoSuch => generateAndPublish X wd w epoch kmStatus rs
  | Failed e => fail (Wrapf "failed to fetch ephemeral secret" e)
  end.

Definition loadEphemeralSecret (X : Externals) (wd : World)
    (sigSecret : SignedEncryptedEphemeralSecret) : result unit :=
  match localCallEnclave X wd (fun b => if UnmarshalEmpty X b then Some tt else None)
          RPCMethodLoadEphemeralSecret (ArgsLoad sigSecret) with
  | Err e => Err (Wrapf "failed to load ephemeral secret" e)
  | Ok _ => Ok tt
  end.

(** The loop of [fetchLastEphemeralSecrets]; [remaining] is [N - i], so
    the test [i < N] is the test that [remaining] is not zero.  The epoch
    is a [uint64] and is only decremented while positive. *)
Fixpoint fetchSecretsFrom (wd : World) (rid : N) (remaining : nat) (epoch : Z)
    (secrets : list SignedEncryptedEphemeralSecret)
    : result (list SignedEncryptedEphemeralSecret) :=
  match remaining with
  | O => Ok secrets
  | S remaining' =>
      if 0 <? epoch then
        match GetEphemeralSecret wd rid epoch with
        | Found secret => fetchSecretsFrom wd rid remaining' (epoch - 1) (secrets ++ [secret])
        | NoSuch => fetchSecretsFrom wd rid remaining' (epoch - 1) secrets
        | Failed e => Err (Wrapf "failed to fetch ephemeral secret" e)
        end
      else Ok secrets
  end.

Definition fetchLastEphemeralSecrets (wd : World) (rid : N)
    : result (list SignedEncryptedEphemeralSecret) :=
  match GetEpoch wd with
  | Err e => Err (Wrapf "failed to fetch epoch" e)
  | Ok epoch =>
      fetchSecretsFrom wd rid (Z.to_nat ephemeralSecretCacheSize) (wrapU64 (epoch + 1)) []
  end.

(** [randomBlockHeight]: a random height within the first [percentile]
    percent of the epoch.  The arithmetic is [int64]; Go's [/] truncates. *)
Definition randomBlockHeight (wd : World) (epoch : Z) (percentile : Z) : result Z :=
  match ConsensusParametersInterval wd with
  | Err e => Err (Wrapf "failed to fetch consensus parameters" e)
  | Ok interval0 =>
      match GetEpochBlock wd epoch with
      | Err e => Err (Wrapf "failed to fetch epoch block height" e)
      | Ok first =>
          let interval :=
            if percentile <? 100 then Z.quot (wrap64 (interval0 * percentile)) 100
            else interval0 in
          let interval := if interval <=? 0 then 1 else interval in
          Ok (wrap64 (first + Int63n wd interval))
      end
  end.

(** ** Worker loop

    The local variables of [worker] and the buffers of its three signal
    channels (capacity one each).  [genTask] holds the arguments of the
    detached generation task while it has not finished; [running] is false
    once [worker] has returned. *)

Record GenTask : Type := {
  task_epoch : Z;
  task_kmStatus : Status;
  task_rtStatus : runtimeStatus;
  task_retry : Z
}.

Record Loop : Type := {
  running : bool;
  hrtEventCh : bool;
  currentStatus : option Status;
  currentRuntimeStatus : option runtimeStatus;
  epoch : Z;
  secrets : list SignedEncryptedEphemeralSecret;
  loadSecretCh : bool;
  loadSecretRetry : Z;
  genSecretCh : bool;
  genSecretDoneCh : option bool;
  genSecretHeight : Z;
  genSecretInProgress : bool;
  genSecretRetry : Z;
  genTask : option GenTask
}.

Definition with_host (l : Loop) (run ch : bool) (st : option Status)
    (rs : option runtimeStatus) : Loop :=
  {| running := run; hrtEventCh := ch; currentStatus := st;
     currentRuntimeStatus := rs; epoch := epoch l; secrets := secrets l;
     loadSecretCh := loadSecretCh l; loadSecretRetry := loadSecretRetry l;
     genSecretCh := genSecretCh l; genSecretDoneCh := genSecretDoneCh l;
     genSecretHeight := genSecretHeight l;
     genSecretInProgress := genSecretInProgress l;
     genSecretRetry := genSecretRetry l; genTask := genTask l |}.

Definition with_load (l : Loop) (ss : list SignedEncryptedEphemeralSecret)
    (ch : bool) (retry : Z) : Loop :=
  {| running := running l; hrtEventCh := hrtEventCh l;
     currentStatus := currentStatus l;
     currentRuntimeStatus := currentRuntimeStatus l; epoch := epoch l;
     secrets := ss; loadSecretCh := ch; loadSecretRetry := retry;
     genSecretCh := genSecretCh l; genSecretDoneCh := genSecretDoneCh l;
     genSecretHeight := genSecretHeight l;
     genSecretInProgress := genSecretInProgress l;
     genSecretRetry := genSecretRetry l; genTask := genTask l |}.

Definition with_gen (l : Loop) (e : Z) (ch : bool) (done : option bool)
    (height : Z) (inProgress : bool) (retry : Z) (task : option GenTask) : Loop :=
  {| running := running l; hrtEventCh := hrtEventCh l;
     currentStatus := currentStatus l;
     currentRuntimeStatus := currentRuntimeStatus l; epoch := e;
     secrets := secrets l; loadSecretCh := loadSecretCh l;
     loadSecretRetry := loadSecretRetry l;
     genSecretCh := ch; genSecretDoneCh := done;
     genSecretHeight := height;
     genSecretInProgress := inProgress;
     genSecretRetry := retry; genTask := task |}.

Definition with_height (l : Loop) (height : Z) : Loop :=
  with_gen l (epoch l) (genSecretCh l) (genSecretDoneCh l) height
    (genSecretInProgress l) (genSecretRetry l) (genTask l).

Definition stopped (l : Loop) : Loop :=
  with_host l false (hrtEventCh l) (currentStatus l) (currentRuntimeStatus l).

Record State : Type := {
  wk : Worker;
  lp : Loop
}.

Inductive HostEvent : Type :=
  | Started (v : N) (tee : option CapabilityTEE)
  | Updated (v : N) (tee : option CapabilityTEE)
  | FailedToStart
  | Stopped
  | UnknownHostEvent.

(** The cases of the [select], and the goroutines that run beside the
    loop: the detached generation task, the client runtime watchers, the
    registration callback, and the key manager node watcher that [worker]
    starts before it subscribes ([newKmNodeWatcher], [watchNodes]).  The
    code of the last one is not in the source; it is taken as a parameter
    of the run that may, at any moment, install any node list for any
    runtime through [setAccessList], the one function that writes the
    access control table. *)
Inductive Event : Type :=
  | EvHost (ev : HostEvent)
  | EvStatus (status : Status)
  | EvInitTick
  | EvRuntime (rt : Runtime)
  | EvEpoch (e : Z)
  | EvBlock (blk : option Z)
  | EvSecret (s : SignedEncryptedEphemeralSecret)
  | EvGenSecret
  | EvGenSecretDone
  | EvLoadSecret
  | EvStop
  | EvGenTask
  | EvNodeUpdate (rid : N) (reset : bool)
  | EvRegistered
  | EvKmNodes (rid : N) (nodes : list Node).

(** The loop of the [loadSecretCh] case: every queued secret is offered
    to the enclave once; those that fail are kept, in order. *)
Fixpoint loadSecrets (X : Externals) (wd : World) (w : Worker)
    (queue failed : list SignedEncryptedEphemeralSecret)
    : Worker * list SignedEncryptedEphemeralSecret :=
  match queue with
  | [] => (w, failed)
  | secret :: rest =>
      let w := emit w [LocalCall RPCMethodLoadEphemeralSecret (ArgsLoad secret)] in
      match loadEphemeralSecret X wd secret with
      | Err _ => loadSecrets X wd w rest (failed ++ [secret])
      | Ok _ =>
          loadSecrets X wd (setLastLoadedSecretEpoch w (sec_Epoch (Secret secret)))
            rest failed
      end
  end.

(** The body of the detached generation task: the outcome is written to
    [genSecretDoneCh], and a success is recorded. *)
Definition runGenTask (X : Externals) (wd : World) (s : State) (t : GenTask) : State :=
  let out := generateEphemeralSecret X wd (wk s) (runtimeID (wk s))
               (task_epoch t) (task_kmStatus t) (task_rtStatus t) in
  let w := emit (wk s) out.1 in
  let l := lp s in
  match out.2 with
  | Err _ =>
      {| wk := w;
         lp := with_gen l (epoch l) (genSecretCh l) (Some false) (genSecretHeight l)
                 (genSecretInProgress l) (genSecretRetry l) None |}
  | Ok _ =>
      {| wk := setLastGeneratedSecretEpoch w (task_epoch t);
         lp := with_gen l (epoch l) (genSecretCh l) (Some true) (genSecretHeight l)
                 (genSecretInProgress l) (genSecretRetry l) None |}
  end.

(** The five steps that bring up the hosted runtime on the first status
    update; the first one that fails ends the worker. *)
Definition provision (wd : World) (s : State) : State * bool :=
  match ProvisionHostedRuntime wd with
  | Some _ => (s, false)
  | None =>
      let w := with_init (wk s) (initCh (wk s)) (registerCallback (wk s))
                 (initTicker (wk s)) true in
      match WatchEvents wd with
      | Some _ => ({| wk := w; lp := lp s |}, false)
      | None =>
          let l := with_host (lp s) (running (lp s)) true (currentStatus (lp s))
                     (currentRuntimeStatus (lp s)) in
          match hrtStart wd, hrtNotifierStart wd, SetHostedRuntimeVersion wd with
          | None, None, None => ({| wk := w; lp := l |}, true)
          | _, _, _ => ({| wk := w; lp := l |}, false)
          end
      end
  end.

(** Forwarding a status to the enclave and re-checking the runtimes, as
    the status and the retry-tick cases do. *)
Definition reconcile (X : Externals) (wd : World) (w : Worker)
    (status : Status) (rs : runtimeStatus) : Worker :=
  let upd := updateStatus X wd w status rs in
  match upd.2 with
  | Some _ => upd.1
  | None => (recheckAllRuntimes X wd upd.1 (Some status)).1
  end.

(** *** The cases of the select *)

Definition onHostStarted (X : Externals) (wd : World) (s : State)
    (v : N) (tee : option CapabilityTEE) : State :=
  let rs := {| version := v; capabilityTEE := tee |} in
  let fetched := match fetchLastEphemeralSecrets wd (runtimeID (wk s)) with
                 | Ok l => l
                 | Err _ => []
                 end in
  let l := with_host (lp s) (running (lp s)) (hrtEventCh (lp s))
             (currentStatus (lp s)) (Some rs) in
  let l := with_load l fetched true 0 in
  match currentStatus l with
  | None => {| wk := wk s; lp := l |}
  | Some status =>
      let w := match enclaveStatus (wk s) with
               | None => emit (wk s) [SetAvailable v None tee]
               | Some _ => wk s
               end in
      {| wk := (updateStatus X wd w status rs).1; lp := l |}
  end.

Definition onHost (X : Externals) (wd : World) (s : State) (ev : HostEvent) : State :=
  match ev with
  | Started v tee => onHostStarted X wd s v tee
  | Updated v tee => onHostStarted X wd s v tee
  | FailedToStart | Stopped =>
      {| wk := emit (wk s) [SetUnavailable];
         lp := with_host (lp s) (running (lp s)) (hrtEventCh (lp s))
                 (currentStatus (lp s)) None |}
  | UnknownHostEvent => s
  end.

Definition onStatus (X : Externals) (wd : World) (s : State) (status : Status) : State :=
  if negb (N.eqb (st_ID status) (runtimeID (wk s))) then s
  else
    let s := {| wk := setStatus (wk s) status; lp := lp s |} in
    let up := if hostedRuntime (wk s) then (s, true) else provision wd s in
    if negb up.2 then {| wk := wk up.1; lp := stopped (lp up.1) |}
    else
      let s := up.1 in
      let l := with_host (lp s) (running (lp s)) (hrtEventCh (lp s)) (Some status)
                 (currentRuntimeStatus (lp s)) in
      match currentRuntimeStatus l with
      | None => {| wk := wk s; lp := l |}
      | Some rs => {| wk := reconcile X wd (wk s) status rs; lp := l |}
      end.

Definition onInitTick (X : Externals) (wd : World) (s : State) : State :=
  match currentStatus (lp s), currentRuntimeStatus (lp s) with
  | Some status, Some rs => {| wk := reconcile X wd (wk s) status rs; lp := lp s |}
  | _, _ => s
  end.

Definition onRuntime (X : Externals) (wd : World) (s : State) (rt : Runtime) : State :=
  {| wk := (startClientRuntimeWatcher X wd (wk s) rt (currentStatus (lp s))).1;
     lp := lp s |}.

(** One watcher's [epochTransition], stored back under its runtime. *)
Definition refreshWatcher (X : Externals) (wd : World) (w : Worker)
    (kv : N * clientRuntimeWatcher) : Worker :=
  let r := epochTransition X wd w kv.2 in
  with_watchers r.1 (<[ kv.1 := r.2 ]> (clientRuntimes r.1)) (computeRuntimeCount r.1).

Definition onEpoch (X : Externals) (wd : World) (s : State) (e : Z) : State :=
  let w := foldl (refreshWatcher X wd) (wk s) (map_to_list (clientRuntimes (wk s))) in
  let height := match randomBlockHeight wd e 90 with
                | Ok h => h
                | Err _ => 0
                end in
  let l := lp s in
  {| wk := w;
     lp := with_gen l e (genSecretCh l) (genSecretDoneCh l) height
             (genSecretInProgress l) 0 (genTask l) |}.

Definition onBlock (s : State) (blk : option Z) : State :=
  match blk with
  | None => {| wk := wk s; lp := stopped (lp s) |}
  | Some height =>
      let l := lp s in
      let l := if genSecretHeight l <=? height
               then with_gen l (epoch l) true (genSecretDoneCh l) (genSecretHeight l)
                      (genSecretInProgress l) (genSecretRetry l) (genTask l)
               else l in
      let l := if (0 <? Z.of_nat (length (secrets l)))
               then with_load l (secrets l) true (loadSecretRetry l)
               else l in
      {| wk := wk s; lp := l |}
  end.

Definition onSecret (s : State) (secret : SignedEncryptedEphemeralSecret) : State :=
  if negb (N.eqb (sec_ID (Secret secret)) (runtimeID (wk s))) then s
  else
    let l := lp s in
    let l := if sec_Epoch (Secret secret) =? wrapU64 (epoch l + 1)
             then with_height l MaxInt64 else l in
    {| wk := wk s; lp := with_load l (secrets l ++ [secret]) true 0 |}.

Definition onGenSecret (s : State) : State :=
  let l := lp s in
  let l := with_gen l (epoch l) false (genSecretDoneCh l) (genSecretHeight l)
             (genSecretInProgress l) (genSecretRetry l) (genTask l) in
  match currentStatus l, currentRuntimeStatus l with
  | Some status, Some rs =>
      if genSecretInProgress l || (genSecretHeight l =? MaxInt64)
      then {| wk := wk s; lp := l |}
      else
        let retry := wrap64 (genSecretRetry l + 1) in
        let height := if generateEphemeralSecretMaxRetries <? retry
                      then MaxInt64 else genSecretHeight l in
        {| wk := wk s;
           lp := with_gen l (epoch l) false (genSecretDoneCh l) height true retry
                   (Some {| task_epoch := wrapU64 (epoch l + 1);
                            task_kmStatus := status;
                            task_rtStatus := rs;
                            task_retry := wrap64 (retry - 1) |}) |}
  | _, _ => {| wk := wk s; lp := l |}
  end.

Definition onGenSecretDone (s : State) (ok : bool) : State :=
  let l := lp s in
  let height := if ok && (0 <? genSecretRetry l) then MaxInt64
                else genSecretHeight l in
  {| wk := wk s;
     lp := with_gen l (epoch l) (genSecretCh l) None height false
             (genSecretRetry l) (genTask l) |}.

Definition onLoadSecret (X : Externals) (wd : World) (s : State) : State :=
  let l := lp s in
  let r := loadSecrets X wd (wk s) (secrets l) [] in
  let retry := wrap64 (loadSecretRetry l + 1) in
  let queue := if loadEphemeralSecretMaxRetries <? retry then [] else r.2 in
  {| wk := r.1; lp := with_load l queue false retry |}.

(** Termination waits for a generation task that is still out. *)
Definition onStop (X : Externals) (wd : World) (s : State) : State :=
  let s := if genSecretInProgress (lp s) then
             match genSecretDoneCh (lp s), genTask (lp s) with
             | None, Some t => runGenTask X wd s t
             | _, _ => s
             end
           else s in
  let l := lp s in
  let l := if genSecretInProgress l
           then with_gen l (epoch l) (genSecretCh l) None (genSecretHeight l)
                  (genSecretInProgress l) (genSecretRetry l) (genTask l)
           else l in
  {| wk := wk s; lp := stopped l |}.

(** A client runtime watcher sees a node update that is not a reset. *)
Definition onNodeUpdate (X : Externals) (wd : World) (s : State)
    (rid : N) (reset : bool) : State :=
  match clientRuntimes (wk s) !! rid with
  | None => s
  | Some crw =>
      if reset then s
      else {| wk := setAccessList X (wk s) (crw_runtimeID crw)
                      (GetNodes wd (crw_watched crw));
              lp := lp s |}
  end.

(** One step of the system.  A receive on an empty channel, a tick of a
    ticker that is not armed, any case of the select after [worker] has
    returned and an update from the key manager node watcher of a worker
    that never launched [worker] cannot happen: such an event leaves the
    state as it is.  A load pass over a queue that is not empty, before
    the hosted runtime is provisioned, ends the Go program in a panic
    (the precondition of [localCallEnclave]); a run of the model goes on
    from there, so the states it reaches include every state the program
    reaches. *)
Definition step (X : Externals) (wd : World) (s : State) (ev : Event) : State :=
  match ev with
  | EvGenTask =>
      match genTask (lp s) with
      | Some t => runGenTask X wd s t
      | None => s
      end
  | EvNodeUpdate rid reset => onNodeUpdate X wd s rid reset
  | EvRegistered =>
      if registerCallback (wk s)
      then {| wk := with_init (wk s) true false (initTicker (wk s)) (hostedRuntime (wk s));
              lp := lp s |}
      else s
  | EvKmNodes rid nodes =>
      if enabled (wk s)
      then {| wk := setAccessList X (wk s) rid nodes; lp := lp s |}
      else s
  | _ =>
      if negb (running (lp s)) then s
      else
        match ev with
        | EvHost ev => if hrtEventCh (lp s) then onHost X wd s ev else s
        | EvStatus status => onStatus X wd s status
        | EvInitTick => if initTicker (wk s) then onInitTick X wd s else s
        | EvRuntime rt => onRuntime X wd s rt
        | EvEpoch e => onEpoch X wd s e
        | EvBlock blk => onBlock s blk
        | EvSecret secret => onSecret s secret
        | EvGenSecret => if genSecretCh (lp s) then onGenSecret s else s
        | EvGenSecretDone =>
            match genSecretDoneCh (lp s) with
            | Some ok => onGenSecretDone s ok
            | None => s
            end
        | EvLoadSecret => if loadSecretCh (lp s) then onLoadSecret X wd s else s
        | EvStop => onStop X wd s
        | _ => s
        end
  end.

(** A run: every event is handled in the world of its moment. *)
Definition run (X : Externals) (s : State) (trace : list (World * Event)) : State :=
  foldl (fun s we => step X we.1 s we.2) s trace.

(** The worker as constructed, and the loop as [worker] enters it, which
    is once consensus has synced and the subscriptions are made.
    [newWorker] is an enabled worker; [disabledWorker] differs from it in
    the flag only. *)
Definition newWorker (rid nid : N) (private : gset string) (gen : bool) : Worker :=
  {| runtimeID := rid; nodeID := nid; privatePeers := private; mayGenerate := gen;
     enabled := true;
     initCh := false; registerCallback := false; initTicker := false;
     hostedRuntime := false; clientRuntimes := ∅;
     accessList := ∅; accessListByRuntime := ∅;
     globalStatus := None; enclaveStatus := None; policy := None;
     policyChecksum := [];
     numLoadedSecrets := 0; lastLoadedSecret := 0;
     numGeneratedSecrets := 0; lastGeneratedSecret := 0;
     computeRuntimeCount := 0; policyUpdateCount := 0; effects := [] |}.

Definition initLoop : Loop :=
  {| running := true; hrtEventCh := false; currentStatus := None;
     currentRuntimeStatus := None; epoch := 0; secrets := [];
     loadSecretCh := false; loadSecretRetry := 0;
     genSecretCh := false; genSecretDoneCh := None;
     genSecretHeight := MaxInt64; genSecretInProgress := false;
     genSecretRetry := 0; genTask := None |}.

Definition initState (rid nid : N) (private : gset string) (gen : bool) : State :=
  {| wk := newWorker rid nid private gen; lp := initLoop |}.

Definition disabledWorker (rid nid : N) (private : gset string) (gen : bool) : Worker :=
  {| runtimeID := rid; nodeID := nid; privatePeers := private; mayGenerate := gen;
     enabled := false;
     initCh := false; registerCallback := false; initTicker := false;
     hostedRuntime := false; clientRuntimes := ∅;
     accessList := ∅; accessListByRuntime := ∅;
     globalStatus := None; enclaveStatus := None; policy := None;
     policyChecksum := [];
     numLoadedSecrets := 0; lastLoadedSecret := 0;
     numGeneratedSecrets := 0; lastGeneratedSecret := 0;
     computeRuntimeCount := 0; policyUpdateCount := 0; effects := [] |}.

(** [Start]: a disabled worker closes [initCh] at once and launches
    nothing, so that there is no loop to run; an enabled worker launches
    [worker], whose loop starts from [initLoop]. *)
Definition Start (w : Worker) : State :=
  if enabled w then {| wk := w; lp := initLoop |}
  else {| wk := with_init w true (registerCallback w) (initTicker w) (hostedRuntime w);
          lp := stopped initLoop |}.

(** ** Predicates on the access control table *)

(** The peer ids derived from a node list, in order, skipping the nodes
    whose key does not translate. *)
Definition derivedPeers (X : Externals) (nodes : list Node) : list string :=
  omap (fun n => PublicKeyToPeerID X (node_P2P_ID n)) nodes.

(** [(p, r)] is a pair of the table: [p] has an entry and it holds [r]. *)
Definition hasPair (al : gmap string (gset N)) (p : string) (r : N) : Prop :=
  exists s, al !! p = Some s /\ r ∈ s.

(** What the first loop of [setAccessList] leaves of an entry. *)
Definition cleanEntry (r : N) (o : option (gset N)) : option (gset N) :=
  match o with
  | Some s => if decide (size (s ∖ {[ r ]}) = 0%nat) then None else Some (s ∖ {[ r ]})
  | None => None
  end.

(** The mirror invariant of the two maps, as the specification words it:
    a peer has an entry exactly when some runtime lists it. *)
Definition mirrorInvariant (w : Worker) : Prop :=
  forall p : string,
    is_Some (accessList w !! p) <->
    exists r : N, p ∈ peersOf (accessListByRuntime w) r.

(** The pairwise form, which is the one [setAccessList] maintains: the
    pairs of [accessList] are the pairs of [accessListByRuntime], and no
    entry is empty. *)
Definition pairwiseMirror (w : Worker) : Prop :=
  (forall (p : string) (r : N),
      hasPair (accessList w) p r <-> p ∈ peersOf (accessListByRuntime w) r) /\
  (forall (p : string) (s : gset N), accessList w !! p = Some s -> s <> ∅).

(** A sequence of [setAccessList] calls. *)
Definition setAccessLists (X : Externals) (w : Worker)
    (calls : list (N * list Node)) : Worker :=
  foldl (fun w c => setAccessList X w c.1 c.2) w calls.

(** ** Observations on runs *)

Definition isLoadCall (e : Effect) : bool :=
  match e with
  | LocalCall m _ => String.eqb m RPCMethodLoadEphemeralSecret
  | _ => false
  end.

(** The number of [load_ephemeral_secret] calls made so far. *)
Definition loadCalls (w : Worker) : nat :=
  length (List.filter isLoadCall (effects w)).

Definition isEpochEvent (ev : Event) : bool :=
  match ev with
  | EvEpoch _ => true
  | _ => false
  end.

(** A trace without epoch transitions. *)
Definition sameEpoch (trace : list (World * Event)) : Prop :=
  forall we, we ∈ trace -> isEpochEvent we.2 = false.

(** The retry counter of generation stays within its cap plus one, and
    generation is disarmed once the cap is exceeded. *)
Definition retryBounded (l : Loop) : Prop :=
  0 <= genSecretRetry l <= generateEphemeralSecretMaxRetries + 1 /\
  (generateEphemeralSecretMaxRetries < genSecretRetry l ->
   genSecretHeight l = MaxInt64).

(** ** A small concrete world

    A toy instance of the externals and of the backends, used to run the
    worker on concrete inputs.  A toy signature is valid for key [k] when
    it is the single byte [k]. *)

Definition toyPeerID (k : N) : option string :=
  if N.eqb k 0 then None else Some (String (Ascii.ascii_of_N k) EmptyString).

Definition toyFrame (data : list Byte.byte) : option Frame :=
  match data with
  | [] => None
  | b :: rest =>
      Some {| Session := [];
              UntrustedPlaintext :=
                match Byte.to_N b with
                | 0%N => ""
                | 1%N => RPCMethodGetPublicKey
                | 2%N => RPCMethodGetPublicEphemeralKey
                | _ => "secret_method"
                end;
              Payload := rest |}
  end.

Definition toyInitResponse (payload : list Byte.byte) : SignedInitResponse :=
  {| InitResponse_ := {| ir_IsSecure := false; ir_Checksum := [];
                         PolicyChecksum := payload; ir_RSK := None |};
     ir_Signature := payload |}.

Definition toySecret (rid : N) (e : Z) : SignedEncryptedEphemeralSecret :=
  {| Secret := {| sec_ID := rid; sec_Epoch := e; sec_Ciphertexts := [] |};
     sec_Signature := [] |}.

(** The envelope of an answer: the byte [0xff] is an error body, any
    other non-empty answer is a success carrying the answer itself. *)
Definition toyMessage (b : list Byte.byte) : option Message :=
  match b with
  | [] => None
  | [Byte.xff] =>
      Some {| msg_Response := Some {| Success := None; Error := Some "rejected" |} |}
  | _ => Some {| msg_Response := Some {| Success := Some b; Error := None |} |}
  end.

Definition toyExternals : Externals :=
  {| PublicKeyToPeerID := toyPeerID;
     InsecureRAK := 1%N;
     InsecureREK := 2%N;
     UnmarshalFrame := toyFrame;
     MarshalRequest := fun m _ => String.list_byte_of_string m;
     UnmarshalMessage := toyMessage;
     UnmarshalInitResponse := fun b => Some (toyInitResponse b);
     UnmarshalGenerateResponse := fun _ => Some (toySecret 7 0);
     UnmarshalEmpty := fun _ => true;
     MarshalPolicy := fun _ => [];
     MarshalInitResponse := fun r => ir_Signature r;
     HexEncode := fun _ => "";
     VerifyInitResponse := fun r k =>
       match ir_Signature r with
       | [b] => N.eqb (Byte.to_N b) k
       | _ => false
       end;
     VerifySecret := fun _ _ _ _ => true;
     UnmarshalMessageError := fun _ => Errorf "cbor: unexpected end of input";
     UnmarshalPayloadError := fun _ _ => Errorf "cbor: cannot decode payload";
     VerifySecretError := fun _ _ _ _ => Errorf "signature verification failed";
     FormatTEEHardware := fun hw =>
       match hw with
       | TEEHardwareInvalid => "invalid"
       | TEEHardwareIntelSGX => "intel-sgx"
       | TEEHardwareOther _ => "[unsupported TEEHardware]"
       end |}.

(** The world at consensus epoch [E] in which the secrets of the epochs
    [lo..hi] are published, the enclave answers every local call with the
    one-byte payload [reply], and creating a node descriptor watcher ends
    as [watcher] says. *)
Definition toyWorld (E lo hi : Z) (reply : Byte.byte) (watcher : option error) : World :=
  {| GetEpoch := Ok E;
     ConsensusParametersInterval := Ok 600;
     GetEpochBlock := fun e => Ok (e * 600);
     Int63n := fun n => n / 2;
     GetEphemeralSecret := fun rid e =>
       if (lo <=? e) && (e <=? hi) then Found (toySecret rid e) else NoSuch;
     GetRuntimes := Ok [];
     GetRuntime := fun rid =>
       Ok {| rt_ID := rid; rt_Kind := KindKeyManager; rt_KeyManager := None;
             rt_TEEHardware := TEEHardwareInvalid |};
     GetNode := fun _ => NoSuch;
     GetCommittees := fun _ => Ok [];
     NewVersionedNodeDescriptorWatcher := watcher;
     GetNodes := fun _ => [];
     Call := fun _ => Ok {| RuntimeRPCCallResponse := Some [reply];
                            RuntimeLocalRPCCallResponse := Some [reply] |};
     ProvisionHostedRuntime := None;
     WatchEvents := None;
     hrtStart := None;
     hrtNotifierStart := None;
     SetHostedRuntimeVersion := None;
     SignAndSubmitTx := fun _ => None |}.

(** Key manager runtime 7 on node 9, with one private peer. *)
Definition toyWorker : Worker := newWorker 7 9 {[ "P0" ]} true.

Definition toyStatus : Status :=
  {| st_ID := 7%N; IsInitialized := true; IsSecure := false; Checksum := [];
     Nodes := [9%N]; st_Policy := None; st_RSK := None |}.

Definition toyRuntimeStatus : runtimeStatus :=
  {| version := 1%N; capabilityTEE := None |}.

(** A compute runtime that uses key manager 7. *)
Definition toyRuntime : Runtime :=
  {| rt_ID := 187%N; rt_Kind := KindCompute; rt_KeyManager := Some 7%N;
     rt_TEEHardware := TEEHardwareInvalid |}.

(** A node whose P2P key translates to peer ["A"], and the worker after
    that node was installed for runtime 187. *)
Definition toyNode : Node :=
  {| node_ID := 3%N; node_P2P_ID := 65%N; node_Runtimes := [] |}.

Definition toyListed : Worker := setAccessList toyExternals toyWorker 187 [toyNode].

(** The epochs [e, e-1, ..., e-n+1], newest first. *)
Definition epochsDown (e : Z) (n : nat) : list Z :=
  map (fun k => e - Z.of_nat k) (seq 0 n).

(** The epoch of the last secret of a queue, [d] when it is empty. *)
Definition lastEpoch (d : Z) (queue : list SignedEncryptedEphemeralSecret) : Z :=
  default d (last (map (fun s => sec_Epoch (Secret s)) queue)).

(** Load iterations in successive worlds. *)
Definition loadIterations (X : Externals) (s : State) (wds : list World) : State :=
  foldl (fun s wd => onLoadSecret X wd s) s wds.

(** A started worker: status seen, runtime provisioned and started, in
    the toy world at epoch 100 with the secrets of epochs 81..100
    published. *)
Definition toyNow : World := toyWorld 100 81 100 Byte.x00 None.

Definition toyProvisioned : State :=
  run toyExternals (initState 7 9 {[ "P0" ]} true) [(toyNow, EvStatus toyStatus)].

Definition toyStarted : State :=
  run toyExternals toyProvisioned [(toyNow, EvHost (Started 1 None))].

(** The toy world in which the enclave rejects every local call. *)
Definition toyRejecting : World := toyWorld 100 81 100 Byte.xff None.

(** The loop with its runtime provisioned, after it has observed one
    published secret. *)
Definition toyQueued : State :=
  run toyExternals toyProvisioned [(toyNow, EvSecret (toySecret 7 101))].

(** The generation fields a handler leaves alone. *)
Definition genKept (l l' : Loop) : Prop :=
  genSecretHeight l' = genSecretHeight l /\
  genSecretRetry l' = genSecretRetry l /\
  genSecretInProgress l' = genSecretInProgress l.

(** The cases of the select by what they do to generation. *)
Inductive GenChange (l l' : Loop) : Prop :=
  | gen_kept : genKept l l' -> GenChange l l'
  | gen_disarmed :
      genSecretHeight l' = MaxInt64 ->
      genSecretRetry l' = genSecretRetry l ->
      (genSecretInProgress l' = genSecretInProgress l \/ genSecretInProgress l' = false) ->
      GenChange l l'
  | gen_finished :
      genSecretHeight l' = genSecretHeight l ->
      genSecretRetry l' = genSecretRetry l ->
      genSecretInProgress l' = false ->
      GenChange l l'
  | gen_launched :
      genSecretHeight l <> MaxInt64 ->
      genSecretInProgress l = false ->
      genSecretInProgress l' = true ->
      genSecretRetry l' = wrap64 (genSecretRetry l + 1) ->
      genSecretHeight l' = (if generateEphemeralSecretMaxRetries <? genSecretRetry l'
                            then MaxInt64 else genSecretHeight l) ->
      GenChange l l'.

(** The started worker after the transition to epoch 100 and the block at
    the height picked for generation (60270 in the toy world). *)
Definition toyArmed : list (World * Event) :=
  [(toyNow, EvStatus toyStatus); (toyNow, EvHost (Started 1 None));
   (toyNow, EvEpoch 100); (toyNow, EvBlock (Some 60270))].

(** The toy world one epoch later, the secret of epoch 101 published. *)
Definition toyNext : World := toyWorld 101 81 101 Byte.x00 None.

(** The access control maps are as they were. *)
Definition accessKept (w w' : Worker) : Prop :=
  accessList w' = accessList w /\ accessListByRuntime w' = accessListByRuntime w.

(** What the policy switch of [startClientRuntimeWatcher] decides. *)
Definition policyAdmits (st : Status) (rtID : N) : Prop :=
  (exists (p : SignedPolicySGX) (id : N) (enc : EnclavePolicySGX),
      st_Policy st = Some p /\ Enclaves (Policy p) !! id = Some enc /\
      is_Some (MayQuery enc !! rtID)) \/
  (IsSecure st = false /\ st_Policy st = None).

(** The conditions under which a runtime is given a watcher. *)
Definition eligible (w : Worker) (rt : Runtime) (status : option Status) : Prop :=
  exists st : Status,
    status = Some st /\ IsInitialized st = true /\
    rt_Kind rt = KindCompute /\ rt_KeyManager rt = Some (runtimeID w) /\
    clientRuntimes w !! rt_ID rt = None /\
    policyAdmits st (rt_ID rt).

(** Twenty-one publications, of the epochs 101..121, each followed by a
    load iteration in which the enclave rejects what it is offered. *)
Definition toyFlood : list (World * Event) :=
  flat_map (fun e => [(toyNow, EvSecret (toySecret 7 e)); (toyRejecting, EvLoadSecret)])
           (map (fun k => 101 + Z.of_nat k) (seq 0 21)).

(** ** Further predicates: the enclave RPC adapter *)

(** The methods any peer may call over a Noise session. *)
Definition openMethod (m : string) : Prop :=
  m = "" \/ m = RPCMethodGetPublicKey \/ m = RPCMethodGetPublicEphemeralKey.

(** What the switch at the head of [CallEnclave] lets through. *)
Definition accessGranted (X : Externals) (w : Worker) (peer : option string)
    (data : list Byte.byte) (kind : Kind) : Prop :=
  match kind with
  | KindNoiseSession =>
      exists (peerID : string) (frame : Frame),
        peer = Some peerID /\ UnmarshalFrame X data = Some frame /\
        (openMethod (UntrustedPlaintext frame) \/ peerID ∈ privatePeers w \/
         is_Some (accessList w !! peerID))
  | KindInsecureQuery => True
  | KindLocalQuery => False
  end.

(** ** Further predicates: the access control table *)

(** One [setAccessList] call on one entry: the runtime is removed when the
    peer was listed for it, and added when the peer is derived from the
    new nodes. *)
Definition entryAfter (r : N) (listed derived : bool) (o : option (gset N))
    : option (gset N) :=
  let cleared := if listed then cleanEntry r o else o in
  if derived then Some ({[ r ]} ∪ default ∅ cleared) else cleared.

(** An entry by its runtimes: no entry when there is none. *)
Definition entryOf (s : gset N) : option (gset N) :=
  if decide (s = ∅) then None else Some s.

(** The runtimes of an entry after one call. *)
Definition runtimesAfter (r : N) (listed derived : bool) (s : gset N) : gset N :=
  let cleared := if listed then s ∖ {[ r ]} else s in
  if derived then {[ r ]} ∪ cleared else cleared.

(** A second toy node, with P2P key 66 (peer ["B"]). *)
Definition toyNodeB : Node :=
  {| node_ID := 4%N; node_P2P_ID := 66%N; node_Runtimes := [] |}.

(** ** Client runtime watchers and the access table *)

(** The bookkeeping of the watchers: the [computeRuntimeCount] metric
    counts them, each is stored under the runtime it watches, and a
    runtime with a row in [accessListByRuntime] is watched or is one of
    the runtimes [P] that the key manager node watcher installs nodes
    for. *)
Definition watchersConsistent (P : N -> Prop) (w : Worker) : Prop :=
  computeRuntimeCount w = Z.of_nat (size (clientRuntimes w)) /\
  (forall (r : N) (crw : clientRuntimeWatcher),
      clientRuntimes w !! r = Some crw -> crw_runtimeID crw = r) /\
  (forall r : N, is_Some (accessListByRuntime w !! r) ->
                 is_Some (clientRuntimes w !! r) \/ P r).

(** The runtimes for which the key manager node watcher installs nodes
    in the course of a run all satisfy [P]. *)
Definition kmNodesWithin (P : N -> Prop) (trace : list (World * Event)) : Prop :=
  forall we r nodes, we ∈ trace -> we.2 = EvKmNodes r nodes -> P r.

(** The access maps and the watcher bookkeeping are left as they were. *)
Definition tablesKept (w w' : Worker) : Prop :=
  accessKept w w' /\
  clientRuntimes w' = clientRuntimes w /\
  computeRuntimeCount w' = computeRuntimeCount w.

(** The toy world in which the registry lists the given runtimes. *)
Definition toyRegistry (rts : list Runtime) : World :=
  let wd := toyWorld 100 1 0 Byte.x01 None in
  {| GetEpoch := GetEpoch wd;
     ConsensusParametersInterval := ConsensusParametersInterval wd;
     GetEpochBlock := GetEpochBlock wd;
     Int63n := Int63n wd;
     GetEphemeralSecret := GetEphemeralSecret wd;
     GetRuntimes := Ok rts;
     GetRuntime := GetRuntime wd;
     GetNode := GetNode wd;
     GetCommittees := GetCommittees wd;
     NewVersionedNodeDescriptorWatcher := NewVersionedNodeDescriptorWatcher wd;
     GetNodes := GetNodes wd;
     Call := Call wd;
     ProvisionHostedRuntime := ProvisionHostedRuntime wd;
     WatchEvents := WatchEvents wd;
     hrtStart := hrtStart wd;
     hrtNotifierStart := hrtNotifierStart wd;
     SetHostedRuntimeVersion := SetHostedRuntimeVersion wd;
     SignAndSubmitTx := SignAndSubmitTx wd |}.

(** A compute runtime that uses another key manager. *)
Definition toyForeignRuntime : Runtime :=
  {| rt_ID := 188%N; rt_Kind := KindCompute; rt_KeyManager := Some 8%N;
     rt_TEEHardware := TEEHardwareInvalid |}.

(** ** Ephemeral secrets: observations *)

(** The secret consensus holds for an epoch, if the query finds one. *)
Definition publishedAt (wd : World) (rid : N) (e : Z)
    : option SignedEncryptedEphemeralSecret :=
  match GetEphemeralSecret wd rid e with
  | Found secret => Some secret
  | _ => None
  end.

(** The REK a committee node contributes in [generateEphemeralSecret]. *)
Definition contributes (X : Externals) (wd : World) (kmID : N) (hw : TEEHardware)
    (id : N) (k : N) : Prop :=
  exists (n : Node) (nRt : NodeRuntime),
    GetNode wd id = Found n /\
    find (fun rt => N.eqb (nrt_ID rt) kmID) (node_Runtimes n) = Some nRt /\
    ((hw = TEEHardwareInvalid /\ k = InsecureREK X) \/
     (hw = TEEHardwareIntelSGX /\
      exists tee, nrt_TEE nRt = Some tee /\ REK tee = Some k)).

(** ** The generation task in flight *)

(** At most one generation task is out, and its completion is in the
    channel only while the loop still counts the attempt as in progress. *)
Definition singleFlight (l : Loop) : Prop :=
  (is_Some (genTask l) -> genSecretInProgress l = true /\ genSecretDoneCh l = None) /\
  (is_Some (genSecretDoneCh l) -> genSecretInProgress l = true /\ genTask l = None).

(** The task, the completion channel and the in-progress flag are left
    as they were. *)
Definition flightKept (l l' : Loop) : Prop :=
  genTask l' = genTask l /\
  genSecretDoneCh l' = genSecretDoneCh l /\
  genSecretInProgress l' = genSecretInProgress l.

(** Six generation attempts in one epoch, each rejected by the enclave
    and each followed by the block that signals generation again. *)
Definition toyExhausted : list (World * Event) :=
  toyArmed ++
  flat_map (fun _ : nat => [(toyRejecting, EvGenSecret); (toyRejecting, EvGenTask);
                            (toyRejecting, EvGenSecretDone);
                            (toyRejecting, EvBlock (Some 60270))])
           (seq 0 6).

(** ** Initialization *)

(** What the worker has cached and signalled about the enclave: the
    initialization signal and its pending callback presuppose a cached
    init response, and a cached init response is one the node was
    announced with, its policy checksum being the cached one. *)
Definition announced (X : Externals) (w : Worker) : Prop :=
  0 <= policyUpdateCount w /\
  (initCh w = true \/ registerCallback w = true -> is_Some (enclaveStatus w)) /\
  (forall resp, enclaveStatus w = Some resp ->
     policyChecksum w = PolicyChecksum (InitResponse_ resp) /\
     0 < policyUpdateCount w /\
     exists v tee, SetAvailable v (Some (MarshalInitResponse X resp)) tee ∈ effects w).

(** The initialization fields are left as they were and no outward
    action is forgotten. *)
Definition initKept (w w' : Worker) : Prop :=
  initCh w' = initCh w /\
  registerCallback w' = registerCallback w /\
  enclaveStatus w' = enclaveStatus w /\
  policyChecksum w' = policyChecksum w /\
  policyUpdateCount w' = policyUpdateCount w /\
  (forall e, e ∈ effects w -> e ∈ effects w').

(** ** Loading: observations *)

(** The enclave refuses to load the secret. *)
Definition loadFails (X : Externals) (wd : World)
    (sec : SignedEncryptedEphemeralSecret) : bool :=
  match loadEphemeralSecret X wd sec with
  | Ok _ => false
  | Err _ => true
  end.

Definition loadCall (sec : SignedEncryptedEphemeralSecret) : Effect :=
  LocalCall RPCMethodLoadEphemeralSecret (ArgsLoad sec).

(** ** Key manager API (go/keymanager/api)

    The signature scheme, CBOR and the registry's enclave identity check
    are outside the source.  [VerifyNodeRuntimeEnclaveIDs] is the check
    at the time, height and consensus parameters of the call, which
    [VerifyExtraInfo] only passes on. *)

Definition initResponseSignatureContext : string :=
  "oasis-core/keymanager: init response".

Record ApiExternals : Type := {
  Signer : Type;
  signerPublic : Signer -> PublicKey;
  ContextSign : Signer -> string -> bytes -> result bytes;
  pkVerify : PublicKey -> string -> bytes -> bytes -> bool;
  cborInitResponse : InitResponse -> bytes;
  cborUnmarshalSigned : bytes -> result SignedInitResponse;
  VerifyNodeRuntimeEnclaveIDs : PublicKey -> NodeRuntime -> Runtime -> option error
}.

(** [SignedInitResponse.Verify]: [None] is the nil error. *)
Definition SignedInitResponse_Verify (A : ApiExternals) (r : SignedInitResponse)
    (pk : PublicKey) : option error :=
  let raw := cborInitResponse A (InitResponse_ r) in
  if negb (pkVerify A pk initResponseSignatureContext raw (ir_Signature r))
  then Some (Errorf "keymanager: invalid initialization response signature")
  else None.

Definition SignInitResponse (A : ApiExternals) (signer : Signer A)
    (response : InitResponse) : result SignedInitResponse :=
  match ContextSign A signer initResponseSignatureContext (cborInitResponse A response) with
  | Err e => Err e
  | Ok sig => Ok {| InitResponse_ := response; ir_Signature := sig |}
  end.

Definition TEEHardware_eqb (a b : TEEHardware) : bool :=
  match a, b with
  | TEEHardwareInvalid, TEEHardwareInvalid => true
  | TEEHardwareIntelSGX, TEEHardwareIntelSGX => true
  | TEEHardwareOther x, TEEHardwareOther y => N.eqb x y
  | _, _ => false
  end.

(** The hardware and the key [VerifyExtraInfo] settles on for a node
    runtime. *)
Definition declaredTEE (X : Externals) (nodeRt : NodeRuntime) : TEEHardware * PublicKey :=
  match nrt_TEE nodeRt with
  | None => (TEEHardwareInvalid, InsecureRAK X)
  | Some tee =>
      match Hardware tee with
      | TEEHardwareInvalid => (TEEHardwareInvalid, InsecureRAK X)
      | hw => (hw, RAK tee)
      end
  end.

Definition VerifyExtraInfo (A : ApiExternals) (X : Externals) (nodeID : PublicKey)
    (rt : Runtime) (nodeRt : NodeRuntime) : result InitResponse :=
  let (hw, rak) := declaredTEE X nodeRt in
  if negb (TEEHardware_eqb hw (rt_TEEHardware rt))
  then Err (Errorf "keymanager: TEEHardware mismatch")
  else
    match VerifyNodeRuntimeEnclaveIDs A nodeID nodeRt rt with
    | Some e => Err e
    | None =>
        match nrt_ExtraInfo nodeRt with
        | None => Err (Errorf "keymanager: missing ExtraInfo")
        | Some extra =>
            match cborUnmarshalSigned A extra with
            | Err e => Err e
            | Ok untrustedSignedInitResponse =>
                match SignedInitResponse_Verify A untrustedSignedInitResponse rak with
                | Some e => Err e
                | None => Ok (InitResponse_ untrustedSignedInitResponse)
                end
            end
        end
    end.

(** The node runtime descriptor that the registration callback of
    [updateStatus] writes: version, extra information and TEE capability
    are those of the announcement. *)
Definition registeredRuntime (w : Worker) (e : Effect) : option NodeRuntime :=
  match e with
  | SetAvailable v extra tee =>
      Some {| nrt_ID := runtimeID w; nrt_Version := v; nrt_TEE := tee;
              nrt_ExtraInfo := extra |}
  | _ => None
  end.

(** A toy API in which a signer is its key, a signature is valid for
    key [k] when it is the single byte [k], and CBOR is as in the toy
    externals. *)
Definition toyApi : ApiExternals :=
  {| Signer := N;
     signerPublic := fun k => k;
     ContextSign := fun k _ _ =>
       match Byte.of_N k with
       | Some b => Ok [b]
       | None => Err (Errorf "no such key")
       end;
     pkVerify := fun k _ _ sig =>
       match sig with
       | [b] => N.eqb (Byte.to_N b) k
       | _ => false
       end;
     cborInitResponse := fun r => PolicyChecksum r;
     cborUnmarshalSigned := fun b => Ok (toyInitResponse b);
     VerifyNodeRuntimeEnclaveIDs := fun _ _ _ => None |}.

(** A runtime status with a TEE capability that names no hardware. *)
Definition toyTEEStatus : runtimeStatus :=
  {| version := 1%N;
     capabilityTEE := Some {| Hardware := TEEHardwareInvalid; RAK := 5%N; REK := None |} |}.

(** The key manager runtime 7 as the registry describes it. *)
Definition toyKeyManager : Runtime :=
  {| rt_ID := 7%N; rt_Kind := KindKeyManager; rt_KeyManager := None;
     rt_TEEHardware := TEEHardwareInvalid |}.

(** ** Genesis document assembly (go/oasis-node/cmd/genesis)

    The file system, JSON decoding, the signature checks of the entity
    package and the configuration (viper, flags) are outside the source. *)

Record Entity : Type := {
  ent_ID : PublicKey;
  ent_Nodes : list PublicKey
}.

Record SignedEntity : Type := {
  se_Blob : bytes;
  se_Signature : bytes
}.

Record SignedRuntime : Type := {
  srt_Blob : bytes;
  srt_Signature : bytes
}.

Record SignedNode : Type := {
  sn_Blob : bytes;
  sn_Signature : bytes
}.

(** [block.Block]: the namespace of the header, and the rest. *)
Record Block : Type := {
  blk_Namespace : Namespace;
  blk_Round : N;
  blk_Rest : bytes
}.

Record RegistryParameters : Type := {
  DebugAllowUnroutableAddresses : bool;
  DebugAllowRuntimeRegistration : bool;
  DebugBypassStake : bool;
  KeyManagerOperator : PublicKey
}.

Record RegistryGenesis : Type := {
  reg_Parameters : RegistryParameters;
  reg_Entities : list SignedEntity;
  reg_Runtimes : list SignedRuntime;
  reg_Nodes : list SignedNode
}.

Record RootHashParameters : Type := {
  RoundTimeout : Z;
  Algorithm : string;
  BatchFlushTimeout : Z;
  MaxBatchSize : Z;
  MaxBatchSizeBytes : Z
}.

Record RootHashGenesis : Type := {
  rh_Parameters : RootHashParameters;
  rh_Blocks : gmap Namespace Block
}.

Record GenesisEnv : Type := {
  ReadFile : string -> result bytes;
  jsonSignedEntity : bytes -> result SignedEntity;
  OpenEntity : SignedEntity -> result Entity;
  jsonSignedRuntime : bytes -> result SignedRuntime;
  jsonSignedNode : bytes -> result SignedNode;
  jsonBlocks : bytes -> result (list Block);
  DebugTestEntity : bool;
  TestEntity : result (Entity * N);
  SignEntity : N -> Entity -> result SignedEntity;
  ErrNoSuchEntity : error;
  cfgKeyManagerOperator : string;
  cfgRegistryDebugAllowUnroutableAddresses : bool;
  cfgRegistryDebugAllowRuntimeRegistration : bool;
  cfgRegistryDebugBypassStake : bool;
  cfgRootHashParameters : RootHashParameters
}.

(** The closure [loadSignedEntity] of [AppendRegistryState]. *)
Definition loadSignedEntity (G : GenesisEnv) (fn : string)
    : result (SignedEntity * Entity) :=
  match ReadFile G fn with
  | Err e => Err e
  | Ok b =>
      match jsonSignedEntity G b with
      | Err e => Err e
      | Ok signedEntity =>
          match OpenEntity G signedEntity with
          | Err e => Err e
          | Ok ent => Ok (signedEntity, ent)
          end
      end
  end.

(** The closure [appendToEntities]: [st] is the pair of [entMap] and
    [regSt.Entities]. *)
Definition appendToEntities (st : gset N * list SignedEntity)
    (signedEntity : SignedEntity) (ent : Entity)
    : result (gset N * list SignedEntity) :=
  if bool_decide (ent_ID ent ∈ st.1)
  then Err (Errorf "genesis: duplicate entity registration")
  else Ok ({[ ent_ID ent ]} ∪ st.1, st.2 ++ [signedEntity]).

(** The loop over the entity files.  A file that fails to load ends the
    call; the error of [appendToEntities] is logged and the loop goes
    on. *)
Fixpoint loadEntities (G : GenesisEnv) (files : list string)
    (st : gset N * list SignedEntity) : result (gset N * list SignedEntity) :=
  match files with
  | [] => Ok st
  | v :: rest =>
      match loadSignedEntity G v with
      | Err e => Err e
      | Ok (signedEntity, ent) =>
          match appendToEntities st signedEntity ent with
          | Err _ => loadEntities G rest st
          | Ok st' => loadEntities G rest st'
          end
      end
  end.

Fixpoint loadRuntimes (G : GenesisEnv) (files : list string)
    (acc : list SignedRuntime) : result (list SignedRuntime) :=
  match files with
  | [] => Ok acc
  | v :: rest =>
      match ReadFile G v with
      | Err e => Err e
      | Ok b =>
          match jsonSignedRuntime G b with
          | Err e => Err e
          | Ok rt => loadRuntimes G rest (acc ++ [rt])
          end
      end
  end.

Fixpoint loadNodes (G : GenesisEnv) (files : list string)
    (acc : list SignedNode) : result (list SignedNode) :=
  match files with
  | [] => Ok acc
  | v :: rest =>
      match ReadFile G v with
      | Err e => Err e
      | Ok b =>
          match jsonSignedNode G b with
          | Err e => Err e
          | Ok n => loadNodes G rest (acc ++ [n])
          end
      end
  end.

(** The debug test entity, when the flag asks for it: it is appended and
    becomes the key manager operator; here a duplicate is an error. *)
Definition addTestEntity (G : GenesisEnv) (st : gset N * list SignedEntity)
    (operator : PublicKey) : result (gset N * list SignedEntity * PublicKey) :=
  if DebugTestEntity G then
    match TestEntity G with
    | Err e => Err e
    | Ok (ent, signer) =>
        match SignEntity G signer ent with
        | Err e => Err e
        | Ok signedEntity =>
            match appendToEntities st signedEntity ent with
            | Err e => Err e
            | Ok st' => Ok (st', ent_ID ent)
            end
        end
    end
  else Ok (st, operator).

(** The key manager operator named by the configuration must be one of
    the entities seen so far. *)
Definition setKeyManagerOperator (G : GenesisEnv) (entMap : gset N)
    (operator : PublicKey) : result PublicKey :=
  if negb (String.eqb (cfgKeyManagerOperator G) "") then
    match loadSignedEntity G (cfgKeyManagerOperator G) with
    | Err e => Err e
    | Ok (_, ent) =>
        if negb (bool_decide (ent_ID ent ∈ entMap)) then Err (ErrNoSuchEntity G)
        else Ok (ent_ID ent)
    end
  else Ok operator.

(** [AppendRegistryState]; the result is what is stored in
    [doc.Registry], which is assigned on success only.  The zero value
    of a public key is [0]. *)
Definition AppendRegistryState (G : GenesisEnv) (entities runtimes nodes : list string)
    : result RegistryGenesis :=
  match loadEntities G entities (∅, []) with
  | Err e => Err e
  | Ok st =>
      match addTestEntity G st 0%N with
      | Err e => Err e
      | Ok (st, operator) =>
          match setKeyManagerOperator G st.1 operator with
          | Err e => Err e
          | Ok operator =>
              match loadRuntimes G runtimes [] with
              | Err e => Err e
              | Ok rts =>
                  match loadNodes G nodes [] with
                  | Err e => Err e
                  | Ok ns =>
                      Ok {| reg_Parameters :=
                              {| DebugAllowUnroutableAddresses :=
                                   cfgRegistryDebugAllowUnroutableAddresses G;
                                 DebugAllowRuntimeRegistration :=
                                   cfgRegistryDebugAllowRuntimeRegistration G;
                                 DebugBypassStake := cfgRegistryDebugBypassStake G;
                                 KeyManagerOperator := operator |};
                            reg_Entities := st.2;
                            reg_Runtimes := rts;
                            reg_Nodes := ns |}
                  end
              end
          end
      end
  end.

(** The inner loop of [AppendRootHashState]: a namespace seen before is
    an error. *)
Fixpoint addBlocks (blocks : gmap N Block) (blks : list Block) : result (gmap N Block) :=
  match blks with
  | [] => Ok blocks
  | blk :: rest =>
      match blocks !! blk_Namespace blk with
      | Some _ => Err (Errorf "duplicate genesis roothash block")
      | None => addBlocks (<[ blk_Namespace blk := blk ]> blocks) rest
      end
  end.

Fixpoint loadExports (G : GenesisEnv) (exports : list string) (blocks : gmap N Block)
    : result (gmap N Block) :=
  match exports with
  | [] => Ok blocks
  | v :: rest =>
      match ReadFile G v with
      | Err e => Err e
      | Ok b =>
          match jsonBlocks G b with
          | Err e => Err e
          | Ok blks =>
              match addBlocks blocks blks with
              | Err e => Err e
              | Ok blocks' => loadExports G rest blocks'
              end
          end
      end
  end.

Definition AppendRootHashState (G : GenesisEnv) (exports : list string)
    : result RootHashGenesis :=
  match loadExports G exports ∅ with
  | Err e => Err e
  | Ok blocks => Ok {| rh_Parameters := cfgRootHashParameters G; rh_Blocks := blocks |}
  end.

(** *** Observations *)

(** The blocks of an export file, when it can be read and decoded. *)
Definition exportedBlocks (G : GenesisEnv) (v : string) : option (list Block) :=
  match ReadFile G v with
  | Ok b => match jsonBlocks G b with
            | Ok blks => Some blks
            | Err _ => None
            end
  | Err _ => None
  end.

(** The identities of the entities in the given files that load. *)
Definition entityIDs (G : GenesisEnv) (files : list string) : list N :=
  omap (fun v => match loadSignedEntity G v with
                 | Ok p => Some (ent_ID p.2)
                 | Err _ => None
                 end) files.

(** A toy environment: the file named by one character holds the entity
    (or the single block) whose identity is the character's code; the
    empty name cannot be read. *)
Definition toyGenesis (testEntity : bool) (operator : string) : GenesisEnv :=
  {| ReadFile := fun fn => match fn with
                           | EmptyString => Err (Errorf "no such file")
                           | String c _ => match Byte.of_N (Ascii.N_of_ascii c) with
                                           | Some b => Ok [b]
                                           | None => Err (Errorf "no such file")
                                           end
                           end;
     jsonSignedEntity := fun b => Ok {| se_Blob := b; se_Signature := [] |};
     OpenEntity := fun se => match se_Blob se with
                             | [b] => Ok {| ent_ID := Byte.to_N b; ent_Nodes := [] |}
                             | _ => Err (Errorf "bad signature")
                             end;
     jsonSignedRuntime := fun b => Ok {| srt_Blob := b; srt_Signature := [] |};
     jsonSignedNode := fun b => Ok {| sn_Blob := b; sn_Signature := [] |};
     jsonBlocks := fun b => match b with
                            | [x] => Ok [{| blk_Namespace := Byte.to_N x; blk_Round := 0;
                                            blk_Rest := [] |}]
                            | _ => Err (Errorf "bad blocks")
                            end;
     DebugTestEntity := testEntity;
     TestEntity := Ok ({| ent_ID := 65%N; ent_Nodes := [] |}, 1%N);
     SignEntity := fun _ ent => Ok {| se_Blob := []; se_Signature := [Byte.x01] |};
     ErrNoSuchEntity := Errorf "registry: no such entity";
     cfgKeyManagerOperator := operator;
     cfgRegistryDebugAllowUnroutableAddresses := false;
     cfgRegistryDebugAllowRuntimeRegistration := false;
     cfgRegistryDebugBypassStake := false;
     cfgRootHashParameters :=
       {| RoundTimeout := 10; Algorithm := "batching"; BatchFlushTimeout := 1;
          MaxBatchSize := 1000; MaxBatchSizeBytes := 16777216 |} |}.

(** ** Initialization calls along runs *)

Definition isInitCall (e : Effect) : bool :=
  match e with
  | LocalCall m _ => String.eqb m RPCMethodInit
  | _ => false
  end.

(** The number of [init] calls made so far. *)
Definition initCalls (w : Worker) : nat :=
  length (List.filter isInitCall (effects w)).

(** The hosted runtime reports that it has started or was updated. *)
Definition isHostStart (ev : Event) : bool :=
  match ev with
  | EvHost (Started _ _) | EvHost (Updated _ _) => true
  | _ => false
  end.

(** ** The hosted runtime along runs *)

(** Nothing that needs the hosted runtime has begun: no event channel of
    the runtime, no runtime status, no generation task, no retry ticker,
    no registration, no initialization signal, nothing cached. *)
Definition pristine (s : State) : Prop :=
  hrtEventCh (lp s) = false /\
  currentRuntimeStatus (lp s) = None /\
  genTask (lp s) = None /\
  initTicker (wk s) = false /\
  registerCallback (wk s) = false /\
  initCh (wk s) = false /\
  enclaveStatus (wk s) = None.

Definition runtimeReady (s : State) : Prop :=
  hostedRuntime (wk s) = true \/ (hostedRuntime (wk s) = false /\ pristine s).

(** The hosted runtime is left as it is. *)
Definition hostedKept (w w' : Worker) : Prop :=
  hostedRuntime w' = hostedRuntime w.

(** The hosted runtime and the initialization state are left as they
    are. *)
Definition setupKept (w w' : Worker) : Prop :=
  hostedRuntime w' = hostedRuntime w /\
  initTicker w' = initTicker w /\
  registerCallback w' = registerCallback w /\
  initCh w' = initCh w /\
  enclaveStatus w' = enclaveStatus w.

(** * Properties *)

(** ** Access control table *)

Section AccessTable.

Variable X : Externals.

Lemma cleanEntry_idemp r o : cleanEntry r (cleanEntry r o) = cleanEntry r o.
Proof.
  destruct o as [s|]; simpl; [|done].
  destruct (decide (size (s ∖ {[r]}) = 0%nat)) as [Hz|Hnz]; simpl; [done|].
  assert (s ∖ {[r]} ∖ {[r]} = s ∖ {[r]}) as -> by (apply set_eq; set_solver).
  by rewrite decide_False.
Qed.

Lemma clearPeer_lookup r (al : gmap string (gset N)) (q p : string) :
  clearPeer r al q !! p =
    if decide (p = q) then cleanEntry r (al !! p) else al !! p.
Proof.
  unfold clearPeer, cleanEntry.
  destruct (decide (p = q)) as [->|Hne].
  - destruct (al !! q) as [s|] eqn:Hq; [|by rewrite Hq].
    destruct (decide (size (s ∖ {[r]}) = 0%nat)).
    + by rewrite lookup_delete_eq.
    + by rewrite lookup_insert_eq.
  - destruct (al !! q) as [s|] eqn:Hq; [|done].
    destruct (decide (size (s ∖ {[r]}) = 0%nat)).
    + by rewrite lookup_delete_ne.
    + by rewrite lookup_insert_ne.
Qed.

Lemma clearPeers_lookup r (ps : list string) :
  forall (al : gmap string (gset N)) (p : string),
    foldl (clearPeer r) al ps !! p =
      if decide (p ∈ ps) then cleanEntry r (al !! p) else al !! p.
Proof.
  induction ps as [|q ps IH]; intros al p.
  - destruct (decide (p ∈ [])) as [Hin|_]; [|done].
    by apply not_elem_of_nil in Hin.
  - cbn [foldl]. rewrite IH, clearPeer_lookup.
    destruct (decide (p = q)) as [->|Hne].
    + rewrite (decide_True (P := q ∈ q :: ps)) by apply list_elem_of_here.
      destruct (decide (q ∈ ps)); [apply cleanEntry_idemp|done].
    + destruct (decide (p ∈ ps)) as [Hin|Hnin].
      * rewrite decide_True; [done|]. by apply list_elem_of_further.
      * rewrite decide_False; [done|].
        intros [?|?]%elem_of_cons; done.
Qed.

Lemma derivedPeers_cons (n : Node) (nodes : list Node) :
  derivedPeers X (n :: nodes) =
    match PublicKeyToPeerID X (node_P2P_ID n) with
    | Some q => q :: derivedPeers X nodes
    | None => derivedPeers X nodes
    end.
Proof. reflexivity. Qed.

Lemma addNodes_peers r (nodes : list Node) :
  forall (acc : gmap string (gset N) * list string),
    (foldl (addNode X r) acc nodes).2 = acc.2 ++ derivedPeers X nodes.
Proof.
  induction nodes as [|n nodes IH]; intros acc.
  - simpl. by rewrite app_nil_r.
  - cbn [foldl]. rewrite IH, derivedPeers_cons. unfold addNode.
    destruct (PublicKeyToPeerID X (node_P2P_ID n)) as [q|]; simpl; [|done].
    by rewrite <- app_assoc.
Qed.

Lemma addNodes_lookup r (nodes : list Node) :
  forall (acc : gmap string (gset N) * list string) (p : string),
    (foldl (addNode X r) acc nodes).1 !! p =
      if decide (p ∈ derivedPeers X nodes)
      then Some ({[ r ]} ∪ default ∅ (acc.1 !! p))
      else acc.1 !! p.
Proof.
  induction nodes as [|n nodes IH]; intros acc p.
  - destruct (decide (p ∈ derivedPeers X [])) as [Hin|_]; [|done].
    by apply not_elem_of_nil in Hin.
  - cbn [foldl]. rewrite IH, derivedPeers_cons. unfold addNode.
    destruct (PublicKeyToPeerID X (node_P2P_ID n)) as [q|]; simpl; [|done].
    destruct (decide (p = q)) as [->|Hne].
    + rewrite lookup_insert_eq. simpl.
      rewrite (decide_True (P := q ∈ q :: _)) by apply list_elem_of_here.
      destruct (decide (q ∈ derivedPeers X nodes)); f_equal; set_solver.
    + rewrite lookup_insert_ne by done.
      destruct (decide (p ∈ derivedPeers X nodes)) as [Hin|Hnin].
      * rewrite decide_True; [done|]. by apply list_elem_of_further.
      * rewrite decide_False; [done|].
        intros [?|?]%elem_of_cons; done.
Qed.

(** The entry of a peer after [setAccessList], in closed form. *)
Lemma setAccessList_lookup (w : Worker) (r : N) (nodes : list Node) (p : string) :
  accessList (setAccessList X w r nodes) !! p =
    let cleared := if decide (p ∈ peersOf (accessListByRuntime w) r)
                   then cleanEntry r (accessList w !! p)
                   else accessList w !! p in
    if decide (p ∈ derivedPeers X nodes)
    then Some ({[ r ]} ∪ default ∅ cleared)
    else cleared.
Proof.
  unfold setAccessList, with_access. cbn [accessList].
  rewrite addNodes_lookup. cbn [fst]. by rewrite clearPeers_lookup.
Qed.

Lemma setAccessList_byRuntime (w : Worker) (r : N) (nodes : list Node) :
  accessListByRuntime (setAccessList X w r nodes) =
    <[ r := derivedPeers X nodes ]> (accessListByRuntime w).
Proof.
  unfold setAccessList, with_access. cbn [accessListByRuntime].
  by rewrite addNodes_peers.
Qed.

End AccessTable.

Section Mirror.

Variable X : Externals.

Lemma cleanEntry_other (r r' : N) (o : option (gset N)) :
  r' <> r ->
  (exists s, cleanEntry r o = Some s /\ r' ∈ s) <-> (exists s, o = Some s /\ r' ∈ s).
Proof.
  intros Hne. destruct o as [s|]; simpl; [|done].
  destruct (decide (size (s ∖ {[r]}) = 0%nat)) as [Hz|Hnz].
  - apply size_empty_inv in Hz. split; [by intros (? & ? & ?)|].
    intros (s' & [= <-] & Hin). exfalso. set_solver.
  - split.
    + intros (s' & [= <-] & Hin). exists s. set_solver.
    + intros (s' & [= <-] & Hin). exists (s ∖ {[r]}). set_solver.
Qed.

Lemma cleanEntry_self (r : N) (o : option (gset N)) (s : gset N) :
  cleanEntry r o = Some s -> (r ∉ s) /\ s <> ∅.
Proof.
  destruct o as [s0|]; simpl; [|done].
  destruct (decide (size (s0 ∖ {[r]}) = 0%nat)) as [Hz|Hnz]; [done|].
  intros [= <-]. split; [set_solver|].
  intros Hempty. apply Hnz. rewrite Hempty. apply size_empty.
Qed.

Lemma setAccessList_other_runtime (w : Worker) (r r' : N) (nodes : list Node) (p : string) :
  r' <> r ->
  hasPair (accessList (setAccessList X w r nodes)) p r' <-> hasPair (accessList w) p r'.
Proof.
  intros Hne. unfold hasPair. rewrite setAccessList_lookup. cbn zeta.
  set (cleared := if decide (p ∈ peersOf (accessListByRuntime w) r)
                  then cleanEntry r (accessList w !! p) else accessList w !! p).
  assert (Hc : (exists s, cleared = Some s /\ r' ∈ s) <->
               (exists s, accessList w !! p = Some s /\ r' ∈ s)).
  { unfold cleared. destruct (decide _); [by apply cleanEntry_other|done]. }
  rewrite <- Hc.
  destruct (decide (p ∈ derivedPeers X nodes)); [|done].
  split.
  - intros (s & [= <-] & Hin). destruct cleared as [s0|]; simpl in Hin.
    + exists s0. set_solver.
    + set_solver.
  - intros (s & -> & Hin). eexists. split; [done|]. set_solver.
Qed.

Lemma peersOf_set_same (w : Worker) (r : N) (nodes : list Node) :
  peersOf (accessListByRuntime (setAccessList X w r nodes)) r = derivedPeers X nodes.
Proof. unfold peersOf. by rewrite setAccessList_byRuntime, lookup_insert_eq. Qed.

Lemma peersOf_set_other (w : Worker) (r r' : N) (nodes : list Node) :
  r' <> r ->
  peersOf (accessListByRuntime (setAccessList X w r nodes)) r'
  = peersOf (accessListByRuntime w) r'.
Proof.
  intros Hne. unfold peersOf. by rewrite setAccessList_byRuntime, lookup_insert_ne.
Qed.

Lemma setAccessList_pairwise (w : Worker) (r : N) (nodes : list Node) :
  pairwiseMirror w -> pairwiseMirror (setAccessList X w r nodes).
Proof.
  intros [Hpairs Hne]. split.
  - intros p r0. destruct (decide (r0 = r)) as [->|Hr].
    + unfold hasPair. rewrite setAccessList_lookup, peersOf_set_same. cbn zeta.
      destruct (decide (p ∈ derivedPeers X nodes)) as [Hin|Hnin].
      * split; [done|]. intros _. eexists. split; [done|]. set_solver.
      * split; [|done]. intros (s & Hs & Hrs). exfalso.
        destruct (decide (p ∈ peersOf (accessListByRuntime w) r)) as [Hold|Hold].
        -- apply cleanEntry_self in Hs. tauto.
        -- apply Hold, Hpairs. by exists s.
    + rewrite setAccessList_other_runtime, peersOf_set_other by done.
      apply Hpairs.
  - intros p s. rewrite setAccessList_lookup. cbn zeta.
    destruct (decide (p ∈ derivedPeers X nodes)).
    + intros [= <-]. set_solver.
    + destruct (decide (p ∈ peersOf (accessListByRuntime w) r)).
      * intros Hs. by apply cleanEntry_self in Hs as [_ ?].
      * apply Hne.
Qed.

Lemma pairwise_mirror (w : Worker) : pairwiseMirror w -> mirrorInvariant w.
Proof.
  intros [Hpairs Hne] p. split.
  - intros [s Hs]. destruct (set_choose_L s (Hne p s Hs)) as [r Hr].
    exists r. apply Hpairs. by exists s.
  - intros [r Hr]. apply Hpairs in Hr as (s & Hs & _). by exists s.
Qed.

Lemma pairwise_empty (w : Worker) :
  accessList w = ∅ -> accessListByRuntime w = ∅ -> pairwiseMirror w.
Proof.
  intros Hal Hby. split.
  - intros p r. unfold hasPair, peersOf. rewrite Hal, Hby, !lookup_empty. simpl.
    split; [by intros (? & ? & ?)|]. by intros ?%not_elem_of_nil.
  - intros p s. by rewrite Hal, lookup_empty.
Qed.

Lemma setAccessLists_pairwise (calls : list (N * list Node)) :
  forall w, pairwiseMirror w -> pairwiseMirror (setAccessLists X w calls).
Proof.
  induction calls as [|c calls IH]; intros w Hw; [done|].
  apply IH. by apply setAccessList_pairwise.
Qed.

End Mirror.

(** C6.  After [setAccessList(r, N)] the peers listed for [r] are exactly
    the peer ids derived from the nodes of [N] that translate; every peer
    that was listed for [r] and is not derived again loses the pair
    [(peer, r)], its entry keeping the other runtimes or disappearing when
    none is left; and the pairs of every other runtime are as before. *)
Theorem setAccessList_replaces_runtime_peers
    (X : Externals) (w : Worker) (r : N) (nodes : list Node) :
  let w' := setAccessList X w r nodes in
  peersOf (accessListByRuntime w') r = derivedPeers X nodes /\
  (forall p : string,
      p ∈ peersOf (accessListByRuntime w) r ->
      p ∉ derivedPeers X nodes ->
      (~ hasPair (accessList w') p r) /\
      accessList w' !! p =
        match accessList w !! p with
        | Some s => if decide (s ∖ {[ r ]} = ∅) then None else Some (s ∖ {[ r ]})
        | None => None
        end) /\
  (forall (p : string) (r' : N),
      r' <> r -> (hasPair (accessList w') p r' <-> hasPair (accessList w) p r')).
Proof.
  cbn zeta. split; [|split].
  - apply peersOf_set_same.
  - intros p Hold Hnew.
    assert (Hl : accessList (setAccessList X w r nodes) !! p
                 = cleanEntry r (accessList w !! p)).
    { rewrite setAccessList_lookup. cbn zeta.
      by rewrite (decide_False (P := p ∈ derivedPeers X nodes)), decide_True. }
    split.
    + intros (s & Hs & Hin). rewrite Hl in Hs.
      apply cleanEntry_self in Hs. tauto.
    + rewrite Hl. unfold cleanEntry. destruct (accessList w !! p) as [s|]; [|done].
      destruct (decide (size (s ∖ {[r]}) = 0%nat)) as [Hz|Hnz].
      * apply size_empty_inv in Hz. rewrite decide_True; [done|]. by apply set_eq.
      * rewrite decide_False; [done|]. intros Hempty. apply Hnz.
        rewrite Hempty. apply size_empty.
  - intros p r' Hne. by apply setAccessList_other_runtime.
Qed.

Lemma setAccessList_replaces_runtime_peers_witness :
  "A" ∈ peersOf (accessListByRuntime toyListed) 187 /\
  accessList toyListed !! "A" = Some {[ 187%N ]} /\
  accessList (setAccessList toyExternals toyListed 187 []) !! "A" = None.
Proof.
  assert (Hold : "A" ∈ peersOf (accessListByRuntime toyListed) 187)
    by (vm_compute; apply list_elem_of_here).
  assert (Hnew : "A" ∉ derivedPeers toyExternals []) by apply not_elem_of_nil.
  assert (Hbefore : accessList toyListed !! "A" = Some {[ 187%N ]}) by reflexivity.
  split; [exact Hold|]. split; [exact Hbefore|].
  destruct (setAccessList_replaces_runtime_peers toyExternals toyListed 187 [])
    as (_ & Hremoved & _).
  destruct (Hremoved "A" Hold Hnew) as [_ Hentry].
  rewrite Hentry, Hbefore. reflexivity.
Defined.

(** ** Enclave RPC adapter *)

(** C1.  A Noise-session call whose frame decodes and whose untrusted
    plaintext is none of the three open methods is refused with "not
    authorized", nothing being sent to the enclave, when the peer is
    neither a private peer nor on the access list, whatever else the frame
    holds; a private peer or a peer with an access list entry passes the
    check, and the call goes on to the dispatch (which hands the request to
    the hosted runtime once initialization has completed). *)
Theorem CallEnclave_noise_access_check
    (X : Externals) (wd : World) (w : Worker) (peerID : string)
    (ctxDone : option error) (data : list Byte.byte) (frame : Frame) :
  UnmarshalFrame X data = Some frame ->
  UntrustedPlaintext frame <> "" ->
  UntrustedPlaintext frame <> RPCMethodGetPublicKey ->
  UntrustedPlaintext frame <> RPCMethodGetPublicEphemeralKey ->
  (peerID ∉ privatePeers w -> accessList w !! peerID = None ->
   CallEnclave X wd w (Some peerID) ctxDone data KindNoiseSession
   = ([], Err (Errorf "not authorized"))) /\
  (peerID ∈ privatePeers w \/ is_Some (accessList w !! peerID) ->
   CallEnclave X wd w (Some peerID) ctxDone data KindNoiseSession
   = dispatchRPC wd ctxDone data KindNoiseSession /\
   (ctxDone = None ->
    (CallEnclave X wd w (Some peerID) ctxDone data KindNoiseSession).1
    = [HostCall (RuntimeRPCCallRequest data KindNoiseSession)])).
Proof.
  intros Hframe Hempty Hpk Hepk.
  assert (Hgate :
    CallEnclave X wd w (Some peerID) ctxDone data KindNoiseSession =
      if bool_decide (peerID ∈ privatePeers w)
      then dispatchRPC wd ctxDone data KindNoiseSession
      else match accessList w !! peerID with
           | None => ([], Err (Errorf "not authorized"))
           | Some _ => dispatchRPC wd ctxDone data KindNoiseSession
           end).
  { unfold CallEnclave. rewrite Hframe.
    apply String.eqb_neq in Hempty, Hpk, Hepk.
    by rewrite Hempty, Hpk, Hepk. }
  split.
  - intros Hpriv Hlist. rewrite Hgate, Hlist.
    by rewrite bool_decide_eq_false_2.
  - intros Hallowed.
    assert (Hpass : CallEnclave X wd w (Some peerID) ctxDone data KindNoiseSession
                    = dispatchRPC wd ctxDone data KindNoiseSession).
    { rewrite Hgate. destruct Hallowed as [Hpriv|[s Hs]].
      - by rewrite bool_decide_eq_true_2.
      - rewrite Hs. by destruct (bool_decide _). }
    split; [exact Hpass|].
    intros ->. rewrite Hpass. unfold dispatchRPC.
    destruct (Call wd _) as [response|e]; [|done].
    by destruct (RuntimeRPCCallResponse response).
Qed.

Lemma CallEnclave_noise_access_check_witness :
  CallEnclave toyExternals (toyWorld 100 81 100 Byte.x00 None) toyListed
    (Some "B") None [Byte.x09] KindNoiseSession
  = ([], Err (Errorf "not authorized")) /\
  CallEnclave toyExternals (toyWorld 100 81 100 Byte.x00 None) toyListed
    (Some "A") None [Byte.x09] KindNoiseSession
  = dispatchRPC (toyWorld 100 81 100 Byte.x00 None) None [Byte.x09] KindNoiseSession.
Proof.
  pose (frame := {| Session := []; UntrustedPlaintext := "secret_method";
                    Payload := [] |}).
  split.
  - apply (CallEnclave_noise_access_check toyExternals _ toyListed "B" None
             [Byte.x09] frame); [reflexivity|discriminate..| |reflexivity].
    vm_compute. set_solver.
  - apply (CallEnclave_noise_access_check toyExternals _ toyListed "A" None
             [Byte.x09] frame); [reflexivity|discriminate..|].
    right. by eexists.
Defined.

(** C10.  A Noise-session call without a peer id in its context is refused
    with "not authorized" whatever the decoder would say of the data, and a
    call whose data does not decode as a frame is refused with "malformed
    request"; neither sends anything to the enclave. *)
Theorem CallEnclave_noise_early_errors
    (X : Externals) (wd : World) (w : Worker)
    (ctxDone : option error) (data : list Byte.byte) :
  (forall X' : Externals,
      CallEnclave X' wd w None ctxDone data KindNoiseSession
      = ([], Err (Errorf "not authorized"))) /\
  (forall peerID : string,
      UnmarshalFrame X data = None ->
      CallEnclave X wd w (Some peerID) ctxDone data KindNoiseSession
      = ([], Err (Errorf "malformed request"))).
Proof.
  split.
  - reflexivity.
  - intros peerID Hbad. unfold CallEnclave. by rewrite Hbad.
Qed.

Lemma CallEnclave_noise_early_errors_witness :
  CallEnclave toyExternals (toyWorld 100 81 100 Byte.x00 None) toyListed
    (Some "A") None [] KindNoiseSession
  = ([], Err (Errorf "malformed request")).
Proof.
  apply (CallEnclave_noise_early_errors toyExternals). reflexivity.
Defined.

(** ** Status reconciler *)

Section UpdateStatus.

Variables (X : Externals) (wd : World) (w : Worker) (status : Status).
Variable resp : SignedInitResponse.

Hypothesis init_answer :
  localCallEnclave X wd (UnmarshalInitResponse X) RPCMethodInit (initRequest X w status)
  = Ok resp.

(** The three cached fields after a run of [updateStatus]. *)
Let cached (w' : Worker) : Prop :=
  enclaveStatus w' = Some resp /\
  policy w' = st_Policy status /\
  policyChecksum w' = PolicyChecksum (InitResponse_ resp).

Let untouched (w' : Worker) : Prop :=
  enclaveStatus w' = enclaveStatus w /\
  policy w' = policy w /\
  policyChecksum w' = policyChecksum w.

Lemma updateStatus_no_tee (v : N) :
  let r := updateStatus X wd w status {| version := v; capabilityTEE := None |} in
  r.2 = None /\ cached r.1.
Proof. unfold updateStatus. rewrite init_answer. by cbn. Qed.

Lemma updateStatus_checked (v : N) (tee : CapabilityTEE) (key : N) :
  signingKeyFor X tee = Ok key ->
  let r := updateStatus X wd w status {| version := v; capabilityTEE := Some tee |} in
  if VerifyInitResponse X resp key
  then r.2 = None /\ cached r.1
  else r.2 <> None /\ untouched r.1.
Proof.
  intros Hkey. unfold updateStatus. rewrite init_answer. cbn.
  rewrite Hkey. by destruct (VerifyInitResponse X resp key); cbn.
Qed.

Lemma updateStatus_unknown_tee (v : N) (tee : CapabilityTEE) (code : N) :
  Hardware tee = TEEHardwareOther code ->
  let r := updateStatus X wd w status {| version := v; capabilityTEE := Some tee |} in
  r.2 = Some (Errorf ("worker/keymanager: unknown TEE hardware: "
                      +:+ FormatTEEHardware X (TEEHardwareOther code))) /\
  untouched r.1.
Proof.
  intros Hhw. unfold updateStatus. rewrite init_answer. cbn.
  unfold signingKeyFor. rewrite Hhw. by cbn.
Qed.

End UpdateStatus.

(** C2, as the code has it.  Once the enclave has answered [init] with a
    signed response: with Invalid hardware the response is cached exactly
    when its signature verifies against the insecure RAK, with Intel SGX
    exactly when it verifies against the RAK of the capability, and a
    failed verification leaves the cached status, policy and policy
    checksum as they were; any other hardware kind ends in the unknown-TEE
    error with the three fields untouched; and when the runtime reports no
    TEE capability at all the response is cached without any signature
    check. *)
Theorem updateStatus_signature_check
    (X : Externals) (wd : World) (w : Worker) (status : Status)
    (rs : runtimeStatus) (resp : SignedInitResponse) :
  localCallEnclave X wd (UnmarshalInitResponse X) RPCMethodInit (initRequest X w status)
  = Ok resp ->
  let r := updateStatus X wd w status rs in
  let cached :=
    r.2 = None /\ enclaveStatus r.1 = Some resp /\ policy r.1 = st_Policy status /\
    policyChecksum r.1 = PolicyChecksum (InitResponse_ resp) in
  let untouched :=
    enclaveStatus r.1 = enclaveStatus w /\ policy r.1 = policy w /\
    policyChecksum r.1 = policyChecksum w in
  match capabilityTEE rs with
  | None => cached
  | Some tee =>
      match Hardware tee with
      | TEEHardwareInvalid =>
          if VerifyInitResponse X resp (InsecureRAK X) then cached
          else r.2 <> None /\ untouched
      | TEEHardwareIntelSGX =>
          if VerifyInitResponse X resp (RAK tee) then cached
          else r.2 <> None /\ untouched
      | TEEHardwareOther code =>
          r.2 = Some (Errorf ("worker/keymanager: unknown TEE hardware: "
                              +:+ FormatTEEHardware X (TEEHardwareOther code))) /\
          untouched
      end
  end.
Proof.
  intros Hinit. destruct rs as [v [tee|]]; cbn [capabilityTEE].
  - destruct (Hardware tee) as [| |code] eqn:Hhw.
    + pose proof (updateStatus_checked X wd w status resp Hinit v tee (InsecureRAK X)) as H.
      unfold signingKeyFor in H. rewrite Hhw in H. specialize (H eq_refl).
      cbn zeta in *. destruct (VerifyInitResponse X resp (InsecureRAK X)); tauto.
    + pose proof (updateStatus_checked X wd w status resp Hinit v tee (RAK tee)) as H.
      unfold signingKeyFor in H. rewrite Hhw in H. specialize (H eq_refl).
      cbn zeta in *. destruct (VerifyInitResponse X resp (RAK tee)); tauto.
    + pose proof (updateStatus_unknown_tee X wd w status resp Hinit v tee code Hhw) as H.
      cbn zeta in *. tauto.
  - pose proof (updateStatus_no_tee X wd w status resp Hinit v) as H.
    cbn zeta in *. tauto.
Qed.

Lemma updateStatus_signature_check_witness :
  let r := updateStatus toyExternals (toyWorld 100 81 100 Byte.x01 None) toyWorker toyStatus
             {| version := 1%N;
                capabilityTEE := Some {| Hardware := TEEHardwareInvalid; RAK := 5%N;
                                         REK := None |} |} in
  r.2 = None /\ enclaveStatus r.1 = Some (toyInitResponse [Byte.x01]) /\
  policy r.1 = None /\ policyChecksum r.1 = [Byte.x01].
Proof.
  exact (updateStatus_signature_check toyExternals (toyWorld 100 81 100 Byte.x01 None)
           toyWorker toyStatus
           {| version := 1%N;
              capabilityTEE := Some {| Hardware := TEEHardwareInvalid; RAK := 5%N;
                                       REK := None |} |}
           (toyInitResponse [Byte.x01]) eq_refl).
Defined.

(** C2 as the specification states it fails when the runtime reports no
    TEE capability: the response below carries a signature that does not
    verify against the insecure RAK, and it is cached all the same. *)
Lemma updateStatus_no_tee_skips_verification :
  let rs := {| version := 1%N; capabilityTEE := None |} in
  let r := updateStatus toyExternals (toyWorld 100 81 100 Byte.x00 None) toyWorker
             toyStatus rs in
  localCallEnclave toyExternals (toyWorld 100 81 100 Byte.x00 None)
    (UnmarshalInitResponse toyExternals) RPCMethodInit
    (initRequest toyExternals toyWorker toyStatus)
  = Ok (toyInitResponse [Byte.x00]) /\
  VerifyInitResponse toyExternals (toyInitResponse [Byte.x00]) (InsecureRAK toyExternals)
  = false /\
  r.2 = None /\
  enclaveStatus r.1 = Some (toyInitResponse [Byte.x00]).
Proof. cbn zeta. repeat split; reflexivity. Qed.

(** ** Client runtime watchers *)

Lemma managedBy_true (rt : Runtime) (rid : N) :
  managedBy rt rid = true <-> rt_Kind rt = KindCompute /\ rt_KeyManager rt = Some rid.
Proof.
  unfold managedBy. destruct (rt_Kind rt), (rt_KeyManager rt) as [km|];
    try (split; [discriminate|intros [? ?]; congruence]).
  rewrite N.eqb_eq. split; [intros ->; done|intros [_ [= ->]]; done].
Qed.

Lemma foundInPolicy_true (st : Status) (rtID : N) :
  foundInPolicy st rtID = true <-> policyAdmits st rtID.
Proof.
  unfold foundInPolicy, policyAdmits. destruct (st_Policy st) as [p|].
  - rewrite bool_decide_eq_false_2, andb_false_r by done.
    rewrite existsb_exists. split.
    + intros ([id enc] & Hin & Hq). left. exists p, id, enc.
      apply list_elem_of_In, elem_of_map_to_list in Hin.
      apply bool_decide_eq_true in Hq. done.
    + intros [(p' & id & enc & [= <-] & Hl & Hq)|[_ ?]]; [|done].
      exists (id, enc). split.
      * by apply list_elem_of_In, elem_of_map_to_list.
      * by apply bool_decide_eq_true.
  - rewrite bool_decide_eq_true_2, andb_true_r by done.
    destruct (IsSecure st); cbn [negb]; split; try done.
    + intros [(p & _ & _ & ? & _)|[? _]]; done.
    + intros _. by right.
Qed.

Lemma epochTransition_count (X : Externals) (wd : World) (w : Worker)
    (crw : clientRuntimeWatcher) :
  computeRuntimeCount (epochTransition X wd w crw).1 = computeRuntimeCount w /\
  clientRuntimes (epochTransition X wd w crw).1 = clientRuntimes w /\
  effects (epochTransition X wd w crw).1 = effects w.
Proof. unfold epochTransition. by destruct (GetCommittees wd _). Qed.

Lemma startClientRuntimeWatcher_cases (X : Externals) (wd : World) (w : Worker)
    (rt : Runtime) (status : option Status) :
  (eligible w rt status /\
   startClientRuntimeWatcher X wd w rt status =
     match NewVersionedNodeDescriptorWatcher wd with
     | Some e => (w, Some e)
     | None =>
         let started :=
           epochTransition X wd w {| crw_runtimeID := rt_ID rt; crw_watched := [] |} in
         (with_watchers (emit started.1 [StartWatcher (rt_ID rt)])
            (<[ rt_ID rt := started.2 ]> (clientRuntimes (emit started.1 [StartWatcher (rt_ID rt)])))
            (computeRuntimeCount (emit started.1 [StartWatcher (rt_ID rt)]) + 1), None)
     end) \/
  (~ eligible w rt status /\ startClientRuntimeWatcher X wd w rt status = (w, None)).
Proof.
  unfold startClientRuntimeWatcher, eligible.
  destruct status as [st|]; [|right; split; [by intros (? & ? & _)|done]].
  destruct (IsInitialized st) eqn:Hinit; cbn [negb];
    [|right; split; [intros (? & [= <-] & ? & _); congruence|done]].
  destruct (managedBy rt (runtimeID w)) eqn:Hm; cbn [negb].
  2:{ right. split; [|done]. intros (? & _ & _ & Hk & Hkm & _).
      assert (managedBy rt (runtimeID w) = true) by (by apply managedBy_true).
      congruence. }
  apply managedBy_true in Hm as [Hk Hkm].
  destruct (bool_decide (is_Some (clientRuntimes w !! rt_ID rt))) eqn:Hw.
  { right. split; [|done]. apply bool_decide_eq_true in Hw as [c Hc].
    intros (? & _ & _ & _ & _ & Hnone & _). congruence. }
  apply bool_decide_eq_false in Hw.
  assert (Hnone : clientRuntimes w !! rt_ID rt = None).
  { destruct (clientRuntimes w !! rt_ID rt) eqn:E; [|done]. exfalso. apply Hw. by eexists. }
  destruct (foundInPolicy st (rt_ID rt)) eqn:Hf; cbn [negb].
  2:{ right. split; [|done]. intros (? & [= <-] & _ & _ & _ & _ & Had).
      apply foundInPolicy_true in Had. congruence. }
  apply foundInPolicy_true in Hf.
  left. split; [by exists st|]. by destruct (NewVersionedNodeDescriptorWatcher wd).
Qed.

(** C9, as the code has it.  A watcher is started for a runtime exactly
    when the runtime is eligible (the status is initialized, the runtime is
    a compute runtime managed by this key manager, it has no watcher yet,
    and the policy lists it under some enclave's [MayQuery] or the status
    is insecure without a policy) and its node descriptor watcher can be
    created; starting registers the watcher under the runtime and counts
    it, and in every other case the worker is left as it was. *)
Theorem startClientRuntimeWatcher_starts_iff
    (X : Externals) (wd : World) (w : Worker) (rt : Runtime) (status : option Status) :
  let r := startClientRuntimeWatcher X wd w rt status in
  (eligible w rt status /\ NewVersionedNodeDescriptorWatcher wd = None ->
   is_Some (clientRuntimes r.1 !! rt_ID rt) /\
   computeRuntimeCount r.1 = computeRuntimeCount w + 1 /\
   effects r.1 = effects w ++ [StartWatcher (rt_ID rt)] /\
   r.2 = None) /\
  (~ (eligible w rt status /\ NewVersionedNodeDescriptorWatcher wd = None) ->
   r.1 = w /\
   (r.2 <> None -> eligible w rt status /\ r.2 = NewVersionedNodeDescriptorWatcher wd)).
Proof.
  cbn zeta.
  destruct (startClientRuntimeWatcher_cases X wd w rt status) as [[He ->]|[Hn ->]].
  - destruct (NewVersionedNodeDescriptorWatcher wd) as [e|] eqn:Hnw.
    + split; [by intros [_ ?]|]. intros _. by cbn.
    + split; [|intros Hno; exfalso; by apply Hno].
      intros _. cbn.
      destruct (epochTransition_count X wd w
                  {| crw_runtimeID := rt_ID rt; crw_watched := [] |}) as (Hc & _ & He').
      rewrite lookup_insert_eq, Hc, He'. by eauto.
  - split; [by intros [? _]|]. intros _. by cbn.
Qed.

Lemma startClientRuntimeWatcher_starts_iff_witness :
  let r := startClientRuntimeWatcher toyExternals (toyWorld 100 81 100 Byte.x00 None)
             toyWorker toyRuntime (Some toyStatus) in
  is_Some (clientRuntimes r.1 !! 187%N) /\
  computeRuntimeCount r.1 = 1 /\
  effects r.1 = [StartWatcher 187] /\
  r.2 = None.
Proof.
  apply (startClientRuntimeWatcher_starts_iff toyExternals
           (toyWorld 100 81 100 Byte.x00 None) toyWorker toyRuntime (Some toyStatus)).
  split; [|reflexivity].
  exists toyStatus. repeat split; try reflexivity. by right.
Defined.

(** C9 as the specification states it fails when the node descriptor
    watcher cannot be created: the runtime below meets every listed
    condition, yet no watcher is registered and the counter stays. *)
Lemma startClientRuntimeWatcher_creation_failure :
  let wd := toyWorld 100 81 100 Byte.x00 (Some (Errorf "watch nodes failed")) in
  let r := startClientRuntimeWatcher toyExternals wd toyWorker toyRuntime (Some toyStatus) in
  eligible toyWorker toyRuntime (Some toyStatus) /\
  clientRuntimes r.1 !! 187%N = None /\
  computeRuntimeCount r.1 = computeRuntimeCount toyWorker /\
  r.2 = Some (Errorf "watch nodes failed").
Proof.
  cbn zeta. split; [|by repeat split].
  exists toyStatus. repeat split; try reflexivity. by right.
Qed.

(** ** Ephemeral secrets: warm-up and loading *)

Lemma wrap64_small (x : Z) : - 2 ^ 63 <= x < 2 ^ 63 -> wrap64 x = x.
Proof. intros H. unfold wrap64. rewrite Z.mod_small; lia. Qed.

Lemma wrapU64_small (x : Z) : 0 <= x < 2 ^ 64 -> wrapU64 x = x.
Proof. intros H. unfold wrapU64. by rewrite Z.mod_small. Qed.

Lemma epochsDown_S (e : Z) (n : nat) :
  epochsDown e (S n) = e :: epochsDown (e - 1) n.
Proof.
  unfold epochsDown. cbn [seq map]. f_equal; [lia|].
  rewrite <- seq_shift, map_map. apply map_ext. intros k. lia.
Qed.

Lemma epochsDown_range (e : Z) (n : nat) (x : Z) :
  x ∈ epochsDown e n <-> e - Z.of_nat n < x <= e.
Proof.
  revert e. induction n as [|n IH]; intros e.
  - unfold epochsDown. cbn. split; [by intros ?%not_elem_of_nil|lia].
  - rewrite epochsDown_S, elem_of_cons, IH. lia.
Qed.

(** The fetch loop over a window in which every epoch is published. *)
Lemma fetchSecretsFrom_published (wd : World) (rid : N)
    (published : Z -> SignedEncryptedEphemeralSecret) (n : nat) :
  forall (e : Z) (acc : list SignedEncryptedEphemeralSecret),
    Z.of_nat n <= e ->
    (forall e', e - Z.of_nat n < e' <= e ->
                GetEphemeralSecret wd rid e' = Found (published e')) ->
    fetchSecretsFrom wd rid n e acc = Ok (acc ++ map published (epochsDown e n)).
Proof.
  induction n as [|n IH]; intros e acc Hle Hpub.
  - cbn. by rewrite app_nil_r.
  - cbn [fetchSecretsFrom].
    assert ((0 <? e) = true) as -> by (apply Z.ltb_lt; lia).
    rewrite Hpub by lia. rewrite IH; [|lia|intros; apply Hpub; lia].
    rewrite epochsDown_S. cbn [map]. by rewrite <- app_assoc.
Qed.

(** The fetch loop never returns more than it has iterations. *)
Lemma fetchSecretsFrom_length (wd : World) (rid : N) (n : nat) :
  forall (e : Z) (acc l : list SignedEncryptedEphemeralSecret),
    fetchSecretsFrom wd rid n e acc = Ok l ->
    (length l <= length acc + n)%nat.
Proof.
  induction n as [|n IH]; intros e acc l.
  - cbn. intros [= <-]. lia.
  - cbn [fetchSecretsFrom]. destruct (0 <? e); [|intros [= <-]; lia].
    destruct (GetEphemeralSecret wd rid e) as [sec| |err]; [| |done].
    + intros H%IH. rewrite length_app in H. cbn in H. lia.
    + intros H%IH. lia.
Qed.

Lemma fetchLastEphemeralSecrets_length (wd : World) (rid : N)
    (l : list SignedEncryptedEphemeralSecret) :
  fetchLastEphemeralSecrets wd rid = Ok l -> (length l <= 20)%nat.
Proof.
  unfold fetchLastEphemeralSecrets.
  change (Z.to_nat ephemeralSecretCacheSize) with 20%nat.
  destruct (GetEpoch wd) as [e|]; [|done].
  intros H%fetchSecretsFrom_length. cbn [length] in H. lia.
Qed.

Lemma loadCalls_emit (w : Worker) (es : list Effect) :
  loadCalls (emit w es)
  = (loadCalls w + length (List.filter isLoadCall es))%nat.
Proof. unfold loadCalls, emit. cbn. by rewrite List.filter_app, length_app. Qed.

Lemma lastEpoch_cons (d : Z) (sec : SignedEncryptedEphemeralSecret)
    (queue : list SignedEncryptedEphemeralSecret) :
  lastEpoch d (sec :: queue) = lastEpoch (sec_Epoch (Secret sec)) queue.
Proof.
  unfold lastEpoch. destruct queue as [|sec2 queue]; [done|].
  cbn [map]. change (last (?a :: ?b :: ?l)) with (last (b :: l)).
  by destruct (proj2 (last_is_Some (sec_Epoch (Secret sec2)
                 :: map (fun s => sec_Epoch (Secret s)) queue)) ltac:(done)) as [y ->].
Qed.

(** A pass over the queue in which every load succeeds. *)
Lemma loadSecrets_all_ok (X : Externals) (wd : World)
    (queue : list SignedEncryptedEphemeralSecret) :
  forall (w : Worker) (failed : list SignedEncryptedEphemeralSecret),
    (forall sec, sec ∈ queue -> loadEphemeralSecret X wd sec = Ok tt) ->
    let r := loadSecrets X wd w queue failed in
    r.2 = failed /\
    loadCalls r.1 = (loadCalls w + length queue)%nat /\
    lastLoadedSecret r.1 = lastEpoch (lastLoadedSecret w) queue.
Proof.
  induction queue as [|sec queue IH]; intros w failed Hok; cbn zeta.
  - by cbn.
  - cbn [loadSecrets]. rewrite Hok by apply list_elem_of_here.
    destruct (IH (setLastLoadedSecretEpoch
                    (emit w [LocalCall RPCMethodLoadEphemeralSecret (ArgsLoad sec)])
                    (sec_Epoch (Secret sec))) failed) as (Hf & Hc & Hl).
    { intros sec' Hin. apply Hok. by apply list_elem_of_further. }
    cbn zeta in *. rewrite Hf, Hc, Hl. split; [done|]. split.
    + change (loadCalls (setLastLoadedSecretEpoch ?w ?e)) with (loadCalls w).
      rewrite loadCalls_emit. cbn. lia.
    + by rewrite lastEpoch_cons.
Qed.

(** A pass over the queue in which every load fails. *)
Lemma loadSecrets_all_fail (X : Externals) (wd : World)
    (queue : list SignedEncryptedEphemeralSecret) :
  forall (w : Worker) (failed : list SignedEncryptedEphemeralSecret),
    (forall sec, sec ∈ queue -> loadEphemeralSecret X wd sec <> Ok tt) ->
    (loadSecrets X wd w queue failed).2 = failed ++ queue.
Proof.
  induction queue as [|sec queue IH]; intros w failed Hfail.
  - cbn. by rewrite app_nil_r.
  - cbn [loadSecrets].
    destruct (loadEphemeralSecret X wd sec) as [[]|err] eqn:Hl.
    + exfalso. by apply (Hfail sec); [apply list_elem_of_here|].
    + rewrite IH; [by rewrite <- app_assoc|].
      intros sec' Hin. apply Hfail. by apply list_elem_of_further.
Qed.

Lemma updateStatus_effects (X : Externals) (wd : World) (w : Worker)
    (status : Status) (rs : runtimeStatus) :
  let w' := (updateStatus X wd w status rs).1 in
  (effects w' = effects w ++ [LocalCall RPCMethodInit (initRequest X w status)] \/
   exists a b c, effects w' = effects w ++ [LocalCall RPCMethodInit (initRequest X w status);
                                            SetAvailable a b c]) /\
  lastLoadedSecret w' = lastLoadedSecret w /\
  numLoadedSecrets w' = numLoadedSecrets w /\
  runtimeID w' = runtimeID w.
Proof.
  cbn zeta. unfold updateStatus.
  destruct (localCallEnclave _ _ _ _ _) as [resp|err]; [|cbn; by auto].
  destruct (capabilityTEE rs) as [tee|] eqn:Htee.
  - destruct (signingKeyFor X tee) as [key|err]; [|cbn; by auto].
    destruct (VerifyInitResponse X resp key); [|cbn; by auto].
    cbn. rewrite <- app_assoc. split; [right; by eauto|done].
  - cbn. rewrite <- app_assoc. split; [right; by eauto|done].
Qed.

Lemma updateStatus_loads (X : Externals) (wd : World) (w : Worker)
    (status : Status) (rs : runtimeStatus) :
  loadCalls (updateStatus X wd w status rs).1 = loadCalls w /\
  lastLoadedSecret (updateStatus X wd w status rs).1 = lastLoadedSecret w /\
  runtimeID (updateStatus X wd w status rs).1 = runtimeID w.
Proof.
  destruct (updateStatus_effects X wd w status rs) as (He & Hl & _ & Hr).
  cbn zeta in *. split; [|done].
  unfold loadCalls.
  destruct He as [->|(a & b & c & ->)]; rewrite List.filter_app, length_app; cbn; lia.
Qed.

Lemma onHostStarted_queue (X : Externals) (wd : World) (s : State)
    (v : N) (tee : option CapabilityTEE) :
  let s' := onHostStarted X wd s v tee in
  secrets (lp s') = match fetchLastEphemeralSecrets wd (runtimeID (wk s)) with
                    | Ok l => l
                    | Err _ => []
                    end /\
  loadSecretCh (lp s') = true /\
  loadSecretRetry (lp s') = 0 /\
  running (lp s') = running (lp s) /\
  loadCalls (wk s') = loadCalls (wk s) /\
  lastLoadedSecret (wk s') = lastLoadedSecret (wk s) /\
  runtimeID (wk s') = runtimeID (wk s).
Proof.
  cbn zeta. unfold onHostStarted. cbn [currentStatus with_load with_host].
  destruct (currentStatus (lp s)) as [status|]; cbn [wk lp]; [|done].
  repeat (split; [done|]).
  destruct (updateStatus_loads X wd
              match enclaveStatus (wk s) with
              | Some _ => wk s
              | None => emit (wk s) [SetAvailable v None tee]
              end status {| version := v; capabilityTEE := tee |}) as (Hc & Hl & Hr).
  rewrite Hc, Hl, Hr.
  destruct (enclaveStatus (wk s)); [done|].
  rewrite loadCalls_emit. cbn. split; [lia|done].
Qed.


Lemma fetchSecretsFrom_S (wd : World) (rid : N) (n : nat) (e : Z)
    (acc : list SignedEncryptedEphemeralSecret) :
  fetchSecretsFrom wd rid (S n) e acc =
    if 0 <? e then
      match GetEphemeralSecret wd rid e with
      | Found secret => fetchSecretsFrom wd rid n (e - 1) (acc ++ [secret])
      | NoSuch => fetchSecretsFrom wd rid n (e - 1) acc
      | Failed err => Err (Wrapf "failed to fetch ephemeral secret" err)
      end
    else Ok acc.
Proof. reflexivity. Qed.

Lemma epochsDown_snoc (e : Z) (n : nat) :
  epochsDown e (S n) = epochsDown e n ++ [e - Z.of_nat n].
Proof. unfold epochsDown. by rewrite seq_S, map_app. Qed.

(** C4, as the code has it.  When the runtime starts while the consensus
    epoch is [E] and consensus holds exactly the secrets of the epochs
    [E-19 .. E], the warm-up fetch walks the twenty epochs
    [E+1, E, ..., E-18]: it queues the nineteen secrets of [E .. E-18],
    newest first, and never asks for epoch [E-19].  The load pass that
    follows, every load succeeding, makes exactly nineteen
    [load_ephemeral_secret] calls, empties the queue, and leaves
    [E-18], the epoch loaded last, as the last loaded epoch. *)
Theorem warmup_loads_fetched_window
    (X : Externals) (wd1 wd2 : World) (s : State) (E : Z)
    (v : N) (tee : option CapabilityTEE)
    (published : Z -> SignedEncryptedEphemeralSecret) :
  running (lp s) = true ->
  hrtEventCh (lp s) = true ->
  GetEpoch wd1 = Ok E ->
  19 <= E < 2 ^ 64 - 1 ->
  (forall e, E - 19 <= e <= E ->
             GetEphemeralSecret wd1 (runtimeID (wk s)) e = Found (published e) /\
             sec_Epoch (Secret (published e)) = e) ->
  (forall e, ~ (E - 19 <= e <= E) ->
             GetEphemeralSecret wd1 (runtimeID (wk s)) e = NoSuch) ->
  (forall sec, loadEphemeralSecret X wd2 sec = Ok tt) ->
  let s1 := step X wd1 s (EvHost (Started v tee)) in
  let s2 := step X wd2 s1 EvLoadSecret in
  secrets (lp s1) = map published (epochsDown E 19) /\
  loadCalls (wk s2) = (loadCalls (wk s) + 19)%nat /\
  lastLoadedSecret (wk s2) = E - 18 /\
  secrets (lp s2) = [].
Proof.
  intros Hrun Hch Hepoch HE Hpub Hnone Hload. cbn zeta.
  assert (Hfetch : fetchLastEphemeralSecrets wd1 (runtimeID (wk s))
                   = Ok (map published (epochsDown E 19))).
  { unfold fetchLastEphemeralSecrets. rewrite Hepoch.
    rewrite wrapU64_small by lia.
    change (Z.to_nat ephemeralSecretCacheSize) with (S 19).
    rewrite fetchSecretsFrom_S.
    assert ((0 <? E + 1) = true) as -> by (apply Z.ltb_lt; lia).
    rewrite Hnone by lia.
    replace (E + 1 - 1) with E by lia.
    apply (fetchSecretsFrom_published wd1 _ published 19 E []); [lia|].
    intros e' He'. apply Hpub. lia. }
  assert (Hs1 : step X wd1 s (EvHost (Started v tee)) = onHostStarted X wd1 s v tee).
  { unfold step. by rewrite Hrun, Hch. }
  rewrite Hs1.
  destruct (onHostStarted_queue X wd1 s v tee)
    as (Hq & Hsig & Hretry & Hrun1 & Hcalls & Hlast & _).
  cbn zeta in *. rewrite Hfetch in Hq.
  set (s1 := onHostStarted X wd1 s v tee) in *.
  split; [exact Hq|].
  assert (Hs2 : step X wd2 s1 EvLoadSecret = onLoadSecret X wd2 s1).
  { unfold step. by rewrite Hrun1, Hrun, Hsig. }
  rewrite Hs2. unfold onLoadSecret. cbn [wk lp secrets with_load].
  destruct (loadSecrets_all_ok X wd2 (secrets (lp s1)) (wk s1) [])
    as (Hfailed & Hc & Hl); [by intros|].
  cbn zeta in *. rewrite Hretry, Hfailed, Hc, Hl, Hq, Hcalls, Hlast.
  rewrite length_map. unfold epochsDown at 1. rewrite length_map, length_seq.
  split; [done|]. split; [|done].
  unfold lastEpoch. rewrite map_map, epochsDown_snoc.
  rewrite map_app, last_app. cbn [map last default].
  destruct (Hpub (E - 18)) as [_ Hlast18]; [lia|].
  replace (E - Z.of_nat 18) with (E - 18) by lia. exact Hlast18.
Qed.

Lemma warmup_loads_fetched_window_witness :
  let s1 := step toyExternals toyNow toyProvisioned (EvHost (Started 1 None)) in
  let s2 := step toyExternals toyNow s1 EvLoadSecret in
  secrets (lp s1) = map (toySecret 7) (epochsDown 100 19) /\
  loadCalls (wk s2) = (loadCalls (wk toyProvisioned) + 19)%nat /\
  lastLoadedSecret (wk s2) = 100 - 18 /\
  secrets (lp s2) = [].
Proof.
  apply (warmup_loads_fetched_window toyExternals toyNow toyNow toyProvisioned 100
           1 None (toySecret 7)).
  - reflexivity.
  - reflexivity.
  - reflexivity.
  - lia.
  - intros e He. split; [|reflexivity].
    change (GetEphemeralSecret toyNow (runtimeID (wk toyProvisioned)) e)
      with (if (81 <=? e) && (e <=? 100) then Found (toySecret 7 e) else NoSuch).
    by rewrite (proj2 (Z.leb_le 81 e)), (proj2 (Z.leb_le e 100)) by lia.
  - intros e He.
    change (GetEphemeralSecret toyNow (runtimeID (wk toyProvisioned)) e)
      with (if (81 <=? e) && (e <=? 100) then Found (toySecret 7 e) else NoSuch).
    destruct (81 <=? e) eqn:H1, (e <=? 100) eqn:H2; try reflexivity.
    apply Z.leb_le in H1, H2. lia.
  - intros sec. reflexivity.
Defined.

(** C4 as the specification states it fails.  At epoch 100 with exactly
    the secrets of the epochs 81..100 published, the warm-up and the load
    pass make nineteen calls, not twenty, and the last loaded epoch is 82,
    not 100. *)
Lemma warmup_misses_oldest_epoch :
  let s1 := step toyExternals toyNow toyProvisioned (EvHost (Started 1 None)) in
  let s2 := step toyExternals toyNow s1 EvLoadSecret in
  GetEpoch toyNow = Ok 100 /\
  loadCalls (wk toyProvisioned) = 0%nat /\
  map (fun sec => sec_Epoch (Secret sec)) (secrets (lp s1)) = epochsDown 100 19 /\
  loadCalls (wk s2) = 19%nat /\
  loadCalls (wk s2) <> 20%nat /\
  lastLoadedSecret (wk s2) = 82 /\
  lastLoadedSecret (wk s2) <> 100.
Proof. cbn zeta. repeat split; try (vm_compute; congruence). Qed.

(** ** Ephemeral secrets: the queue *)

Lemma onLoadSecret_retry (X : Externals) (wd : World) (s : State) :
  let s' := onLoadSecret X wd s in
  loadSecretRetry (lp s') = wrap64 (loadSecretRetry (lp s) + 1) /\
  secrets (lp s') =
    (if loadEphemeralSecretMaxRetries <? wrap64 (loadSecretRetry (lp s) + 1)
     then []
     else (loadSecrets X wd (wk s) (secrets (lp s)) []).2) /\
  running (lp s') = running (lp s).
Proof. done. Qed.

(** Successive load iterations count up from the retry counter they
    start with, as long as it stays small. *)
Lemma loadIterations_retry (X : Externals) (wds : list World) :
  forall s : State,
    0 <= loadSecretRetry (lp s) ->
    loadSecretRetry (lp s) + Z.of_nat (length wds) < 2 ^ 63 ->
    loadSecretRetry (lp (loadIterations X s wds))
    = loadSecretRetry (lp s) + Z.of_nat (length wds).
Proof.
  induction wds as [|wd wds IH]; intros s H0 Hb.
  - cbn. lia.
  - cbn [loadIterations foldl]. fold (loadIterations X (onLoadSecret X wd s) wds).
    cbn [length] in Hb.
    assert (Hr : loadSecretRetry (lp (onLoadSecret X wd s)) = loadSecretRetry (lp s) + 1).
    { cbn. apply wrap64_small. lia. }
    rewrite IH; rewrite Hr; cbn [length]; lia.
Qed.

Lemma loadIterations_snoc (X : Externals) (s : State) (wds : list World) (wd : World) :
  loadIterations X s (wds ++ [wd]) = onLoadSecret X wd (loadIterations X s wds).
Proof. unfold loadIterations. by rewrite foldl_app. Qed.

(** The load pass leaves the hosted runtime as it is. *)
Lemma loadSecrets_hosted (X : Externals) (wd : World)
    (queue : list SignedEncryptedEphemeralSecret) :
  forall (w : Worker) (failed : list SignedEncryptedEphemeralSecret),
    hostedRuntime (loadSecrets X wd w queue failed).1 = hostedRuntime w.
Proof.
  induction queue as [|sec queue IH]; intros w failed; [done|].
  cbn [loadSecrets]. destruct (loadEphemeralSecret X wd sec); by rewrite IH.
Qed.

Lemma loadIterations_hosted (X : Externals) (wds : list World) :
  forall s : State,
    hostedRuntime (wk (loadIterations X s wds)) = hostedRuntime (wk s).
Proof.
  induction wds as [|wd wds IH]; intros s; [done|].
  cbn [loadIterations foldl]. fold (loadIterations X (onLoadSecret X wd s) wds).
  rewrite IH. cbn [onLoadSecret wk]. apply loadSecrets_hosted.
Qed.

(** C5, as the code has it.  The warm-up fetch returns at most 20
    secrets, but the queue itself has no bound: every published secret of
    this runtime that the loop observes is appended to it.  While the
    hosted runtime is provisioned (without one a load call does not
    return), a load iteration increments the retry counter and clears the
    queue when the counter then exceeds 5, and otherwise keeps the secrets
    that failed; counting from a counter just reset, it is the sixth
    iteration that clears the queue, the runtime being still there at
    each of them. *)
Theorem pending_secrets_queue
    (X : Externals) (wd : World) (s : State) :
  (forall (rid : N) (l : list SignedEncryptedEphemeralSecret),
      fetchLastEphemeralSecrets wd rid = Ok l -> (length l <= 20)%nat) /\
  (forall secret : SignedEncryptedEphemeralSecret,
      running (lp s) = true ->
      sec_ID (Secret secret) = runtimeID (wk s) ->
      secrets (lp (step X wd s (EvSecret secret))) = secrets (lp s) ++ [secret]) /\
  (running (lp s) = true -> loadSecretCh (lp s) = true ->
   hostedRuntime (wk s) = true ->
   let s' := step X wd s EvLoadSecret in
   loadSecretRetry (lp s') = wrap64 (loadSecretRetry (lp s) + 1) /\
   (loadEphemeralSecretMaxRetries < loadSecretRetry (lp s') -> secrets (lp s') = []) /\
   (loadSecretRetry (lp s') <= loadEphemeralSecretMaxRetries ->
    secrets (lp s') = (loadSecrets X wd (wk s) (secrets (lp s)) []).2) /\
   hostedRuntime (wk s') = true) /\
  (forall wds : list World,
      hostedRuntime (wk s) = true ->
      loadSecretRetry (lp s) = 0 -> length wds = 6%nat ->
      secrets (lp (loadIterations X s wds)) = [] /\
      forall k, hostedRuntime (wk (loadIterations X s (take k wds))) = true).
Proof.
  split; [|split; [|split]].
  - intros rid l. apply fetchLastEphemeralSecrets_length.
  - intros secret Hrun Hid. unfold step. rewrite Hrun. cbn [negb].
    unfold onSecret. rewrite Hid, N.eqb_refl. cbn [negb].
    by destruct (sec_Epoch (Secret secret) =? wrapU64 (epoch (lp s) + 1)).
  - intros Hrun Hsig Hhrt. cbn zeta. unfold step. rewrite Hrun, Hsig. cbn [negb].
    destruct (onLoadSecret_retry X wd s) as (Hr & Hq & _). cbn zeta in *.
    rewrite Hr, Hq. split; [done|]. split; [|split].
    + intros Hgt. by rewrite (proj2 (Z.ltb_lt _ _) Hgt).
    + intros Hle. by rewrite (proj2 (Z.ltb_ge _ _) Hle).
    + cbn [onLoadSecret wk]. by rewrite loadSecrets_hosted.
  - intros wds Hhrt Hzero Hlen.
    split; [|intros k; by rewrite loadIterations_hosted].
    destruct (exists_last (l := wds)) as (front & wd6 & ->); [by destruct wds|].
    rewrite length_app in Hlen. cbn in Hlen.
    rewrite loadIterations_snoc.
    destruct (onLoadSecret_retry X wd6 (loadIterations X s front)) as (_ & Hq & _).
    cbn zeta in Hq. rewrite Hq.
    rewrite loadIterations_retry by (rewrite Hzero; lia).
    rewrite Hzero. replace (length front) with 5%nat by lia. done.
Qed.

Lemma pending_secrets_queue_witness :
  hostedRuntime (wk toyProvisioned) = true /\
  secrets (lp (step toyExternals toyNow toyProvisioned (EvSecret (toySecret 7 101))))
  = [toySecret 7 101] /\
  secrets (lp (loadIterations toyExternals toyQueued (replicate 6 toyRejecting))) = [].
Proof.
  assert (Hrun : running (lp toyProvisioned) = true) by (vm_compute; reflexivity).
  assert (Hhrt : hostedRuntime (wk toyQueued) = true) by (vm_compute; reflexivity).
  assert (Hzero : loadSecretRetry (lp toyQueued) = 0) by (vm_compute; reflexivity).
  destruct (pending_secrets_queue toyExternals toyNow toyProvisioned)
    as (_ & Happend & _ & _).
  destruct (pending_secrets_queue toyExternals toyNow toyQueued)
    as (_ & _ & _ & Hsix).
  split; [vm_compute; reflexivity|]. split.
  - apply (Happend (toySecret 7 101)); [exact Hrun|reflexivity].
  - apply (Hsix (replicate 6 toyRejecting) Hhrt Hzero). reflexivity.
Defined.

(** C5 as the specification states it fails, on a worker whose runtime
    is provisioned.  Twenty-one published secrets leave twenty-one
    entries in the queue, whether they are observed in a row or each is
    followed by a load iteration that the enclave rejects; and five
    failed load iterations bring the retry counter to the cap, not above
    it, so that the secret is still queued. *)
Lemma pending_secrets_exceed_cache_size :
  let flood := replicate 21 (toyNow, EvSecret (toySecret 7 101)) in
  let s := loadIterations toyExternals toyQueued (replicate 5 toyRejecting) in
  hostedRuntime (wk toyProvisioned) = true /\
  length (secrets (lp (run toyExternals toyProvisioned flood))) = 21%nat /\
  length (secrets (lp (run toyExternals toyProvisioned toyFlood))) = 21%nat /\
  loadEphemeralSecret toyExternals toyRejecting (toySecret 7 101) <> Ok tt /\
  loadSecretRetry (lp s) = 5 /\
  secrets (lp s) = [toySecret 7 101].
Proof.
  cbn zeta. repeat match goal with |- _ /\ _ => split end;
    vm_compute; first [reflexivity | discriminate].
Qed.

(** ** Ephemeral secrets: generation *)

Lemma genKept_refl (l : Loop) : genKept l l.
Proof. by unfold genKept. Qed.

Lemma provision_gen (wd : World) (s : State) :
  genKept (lp s) (lp (provision wd s).1).
Proof.
  unfold provision, genKept.
  destruct (ProvisionHostedRuntime wd); [done|].
  destruct (WatchEvents wd); [done|].
  by destruct (hrtStart wd), (hrtNotifierStart wd), (SetHostedRuntimeVersion wd).
Qed.

Lemma runGenTask_gen (X : Externals) (wd : World) (s : State) (t : GenTask) :
  genKept (lp s) (lp (runGenTask X wd s t)).
Proof.
  unfold runGenTask, genKept.
  by destruct (generateEphemeralSecret _ _ _ _ _ _ _).2.
Qed.

Lemma onStatus_gen (X : Externals) (wd : World) (s : State) (status : Status) :
  genKept (lp s) (lp (onStatus X wd s status)).
Proof.
  unfold onStatus.
  destruct (negb _); [apply genKept_refl|].
  set (s0 := {| wk := setStatus (wk s) status; lp := lp s |}).
  assert (Hup : genKept (lp s)
                  (lp (if hostedRuntime (wk s0) then (s0, true) else provision wd s0).1)).
  { destruct (hostedRuntime (wk s0)); [apply genKept_refl|apply (provision_gen wd s0)]. }
  destruct (if hostedRuntime (wk s0) then (s0, true) else provision wd s0) as [s' ok].
  unfold genKept in *. cbn in *.
  destruct ok; cbn; [|exact Hup].
  by destruct (currentRuntimeStatus (lp s')).
Qed.

Lemma onHost_gen (X : Externals) (wd : World) (s : State) (ev : HostEvent) :
  genKept (lp s) (lp (onHost X wd s ev)).
Proof.
  unfold genKept.
  destruct ev; cbn [onHost]; try done;
    unfold onHostStarted; cbn [currentStatus with_load with_host];
    by destruct (currentStatus (lp s)).
Qed.

Lemma onStop_gen (X : Externals) (wd : World) (s : State) :
  genKept (lp s) (lp (onStop X wd s)).
Proof.
  unfold onStop.
  destruct (genSecretInProgress (lp s)) eqn:Hin; [|by rewrite Hin; unfold genKept].
  destruct (genSecretDoneCh (lp s)); [by rewrite Hin; unfold genKept|].
  destruct (genTask (lp s)) as [t|]; [|by rewrite Hin; unfold genKept].
  pose proof (runGenTask_gen X wd s t) as Hg. unfold genKept in *.
  destruct (genSecretInProgress (lp (runGenTask X wd s t))); cbn; intuition congruence.
Qed.

Lemma onBlock_gen (s : State) (blk : option Z) :
  genKept (lp s) (lp (onBlock s blk)).
Proof.
  unfold onBlock, genKept. destruct blk as [h|]; [|done]. cbn [lp].
  destruct (genSecretHeight (lp s) <=? h);
    by destruct (0 <? Z.of_nat (length (secrets _))).
Qed.

Lemma step_gen (X : Externals) (wd : World) (s : State) (ev : Event) :
  isEpochEvent ev = false -> GenChange (lp s) (lp (step X wd s ev)).
Proof.
  intros Hev.
  destruct ev; try discriminate Hev; unfold step.
  all: try (destruct (running (lp s)); cbn [negb];
            [|by apply gen_kept, genKept_refl]).
  - destruct (hrtEventCh (lp s)); [|by apply gen_kept, genKept_refl].
    apply gen_kept, onHost_gen.
  - apply gen_kept, onStatus_gen.
  - destruct (initTicker (wk s)); [|by apply gen_kept, genKept_refl].
    unfold onInitTick.
    destruct (currentStatus (lp s)), (currentRuntimeStatus (lp s));
      by apply gen_kept, genKept_refl.
  - by apply gen_kept, genKept_refl.
  - apply gen_kept, onBlock_gen.
  - unfold onSecret. destruct (negb _); [by apply gen_kept, genKept_refl|].
    cbn [lp]. destruct (sec_Epoch (Secret s0) =? wrapU64 (epoch (lp s) + 1)).
    + apply gen_disarmed; cbn; auto.
    + by apply gen_kept.
  - destruct (genSecretCh (lp s)); [|by apply gen_kept, genKept_refl].
    unfold onGenSecret. cbn [currentStatus currentRuntimeStatus with_gen
      genSecretInProgress genSecretHeight].
    destruct (currentStatus (lp s)) as [st|]; [|by apply gen_kept].
    destruct (currentRuntimeStatus (lp s)) as [rs|]; [|by apply gen_kept].
    destruct (genSecretInProgress (lp s)) eqn:Hp; cbn [orb]; [by apply gen_kept|].
    destruct (genSecretHeight (lp s) =? MaxInt64) eqn:Hh; [by apply gen_kept|].
    apply Z.eqb_neq in Hh. by apply gen_launched.
  - destruct (genSecretDoneCh (lp s)) as [ok|]; [|by apply gen_kept, genKept_refl].
    unfold onGenSecretDone. cbn [lp].
    destruct (ok && (0 <? genSecretRetry (lp s))).
    + apply gen_disarmed; cbn; auto.
    + by apply gen_finished.
  - destruct (loadSecretCh (lp s)); by apply gen_kept.
  - apply gen_kept, onStop_gen.
  - destruct (genTask (lp s)) as [t|]; [|by apply gen_kept, genKept_refl].
    apply gen_kept, runGenTask_gen.
  - unfold onNodeUpdate. destruct (clientRuntimes (wk s) !! rid); [|by apply gen_kept, genKept_refl].
    destruct reset; by apply gen_kept, genKept_refl.
  - destruct (registerCallback (wk s)); by apply gen_kept, genKept_refl.
  - destruct (enabled (wk s)); by apply gen_kept, genKept_refl.
Qed.

Lemma step_epoch_retry (X : Externals) (wd : World) (s : State) (e : Z) :
  lp (step X wd s (EvEpoch e)) = lp s \/
  genSecretRetry (lp (step X wd s (EvEpoch e))) = 0.
Proof.
  unfold step. destruct (running (lp s)); cbn [negb]; [by right|by left].
Qed.

Lemma step_retryBounded (X : Externals) (wd : World) (s : State) (ev : Event) :
  retryBounded (lp s) -> retryBounded (lp (step X wd s ev)).
Proof.
  unfold retryBounded, generateEphemeralSecretMaxRetries. intros [Hb Hd].
  destruct (isEpochEvent ev) eqn:Hev.
  - destruct ev; try discriminate Hev.
    destruct (step_epoch_retry X wd s e) as [-> | ->]; [done|lia].
  - destruct (step_gen X wd s ev Hev) as [Hk|Hh Hr Hq|Hh Hr Hq|Hh Hp Hp' Hr Hh'].
    + destruct Hk as (Hh & Hr & _). by rewrite Hh, Hr.
    + rewrite Hr. split; [lia|done].
    + by rewrite Hh, Hr.
    + assert (genSecretRetry (lp s) <= 5) by (destruct (Z_lt_le_dec 5 (genSecretRetry (lp s))); [tauto|lia]).
      rewrite wrap64_small in Hr by lia.
      unfold generateEphemeralSecretMaxRetries in Hh'. rewrite Hh', Hr.
      split; [lia|]. intros Hgt. by rewrite (proj2 (Z.ltb_lt _ _) Hgt).
Qed.

Lemma run_snoc (X : Externals) (s : State) (trace : list (World * Event))
    (wd : World) (ev : Event) :
  run X s (trace ++ [(wd, ev)]) = step X wd (run X s trace) ev.
Proof. unfold run. by rewrite foldl_app. Qed.

Lemma run_retryBounded (X : Externals) (trace : list (World * Event)) :
  forall s, retryBounded (lp s) -> retryBounded (lp (run X s trace)).
Proof.
  induction trace as [|[wd ev] trace IH]; intros s Hs; [done|].
  apply IH. by apply step_retryBounded.
Qed.

Lemma init_retryBounded (rid nid : N) (private : gset string) (gen : bool) :
  retryBounded (lp (initState rid nid private gen)).
Proof. unfold retryBounded. cbn. unfold generateEphemeralSecretMaxRetries. lia. Qed.

(** Once disarmed, generation stays disarmed until an epoch transition. *)
Lemma step_stays_disarmed (X : Externals) (wd : World) (s : State) (ev : Event) :
  isEpochEvent ev = false ->
  genSecretHeight (lp s) = MaxInt64 ->
  genSecretHeight (lp (step X wd s ev)) = MaxInt64.
Proof.
  intros Hev Hmax.
  destruct (step_gen X wd s ev Hev) as [Hk|Hh Hr Hq|Hh Hr Hq|Hh Hp Hp' Hr Hh'];
    [destruct Hk as (Hh & _)|..]; congruence.
Qed.

Lemma run_stays_disarmed (X : Externals) (trace : list (World * Event)) :
  forall s, sameEpoch trace ->
            genSecretHeight (lp s) = MaxInt64 ->
            genSecretHeight (lp (run X s trace)) = MaxInt64.
Proof.
  induction trace as [|[wd ev] trace IH]; intros s Hsame Hmax; [done|].
  apply IH.
  - intros we Hin. apply Hsame. by apply list_elem_of_further.
  - apply step_stays_disarmed; [|done]. apply (Hsame (wd, ev)), list_elem_of_here.
Qed.

(** Within an epoch the retry counter, once positive, stays positive. *)
Lemma step_retry_positive (X : Externals) (wd : World) (s : State) (ev : Event) :
  isEpochEvent ev = false ->
  retryBounded (lp s) ->
  0 < genSecretRetry (lp s) ->
  0 < genSecretRetry (lp (step X wd s ev)).
Proof.
  unfold retryBounded, generateEphemeralSecretMaxRetries. intros Hev [Hb _] Hpos.
  destruct (step_gen X wd s ev Hev) as [Hk|Hh Hr Hq|Hh Hr Hq|Hh Hp Hp' Hr Hh'];
    [destruct Hk as (_ & Hr & _)|..].
  1-3: by rewrite Hr.
  rewrite Hr, wrap64_small; lia.
Qed.

Lemma run_retry_positive (X : Externals) (trace : list (World * Event)) :
  forall s, sameEpoch trace ->
            retryBounded (lp s) ->
            0 < genSecretRetry (lp s) ->
            0 < genSecretRetry (lp (run X s trace)).
Proof.
  induction trace as [|[wd ev] trace IH]; intros s Hsame Hb Hpos; [done|].
  apply IH.
  - intros we Hin. apply Hsame. by apply list_elem_of_further.
  - by apply step_retryBounded.
  - apply step_retry_positive; [|done..]. apply (Hsame (wd, ev)), list_elem_of_here.
Qed.

(** Launching an attempt makes the retry counter positive. *)
Lemma launch_retry_positive (X : Externals) (wd : World) (s : State) :
  retryBounded (lp s) ->
  genSecretInProgress (lp s) = false ->
  genSecretInProgress (lp (step X wd s EvGenSecret)) = true ->
  0 < genSecretRetry (lp (step X wd s EvGenSecret)).
Proof.
  unfold retryBounded, generateEphemeralSecretMaxRetries. intros [Hb _] Hp Hp'.
  destruct (step_gen X wd s EvGenSecret eq_refl)
    as [Hk|Hh Hr Hq|Hh Hr Hq|Hh Hq Hq' Hr Hh'].
  - destruct Hk as (_ & _ & Hk). congruence.
  - destruct Hq; congruence.
  - congruence.
  - rewrite Hr, wrap64_small; lia.
Qed.

(** The receipt of a completion. *)
Lemma step_done (X : Externals) (wd : World) (s : State) (ok : bool) :
  running (lp s) = true ->
  genSecretDoneCh (lp s) = Some ok ->
  genSecretHeight (lp (step X wd s EvGenSecretDone))
  = (if ok && (0 <? genSecretRetry (lp s)) then MaxInt64 else genSecretHeight (lp s)) /\
  genSecretInProgress (lp (step X wd s EvGenSecretDone)) = false /\
  genSecretRetry (lp (step X wd s EvGenSecretDone)) = genSecretRetry (lp s).
Proof.
  intros Hrun Hdone. unfold step. rewrite Hrun, Hdone. cbn [negb].
  unfold onGenSecretDone. by cbn.
Qed.

(** C3.  When the loop receives the successful completion of a generation
    attempt, it disarms generation exactly when the retry counter is
    positive at that moment, and otherwise leaves the height as it is.
    The counter is positive whenever no epoch transition was handled since
    the attempt was launched, so that an attempt that succeeds within its
    epoch leaves generation disarmed; and a disarmed height stays disarmed
    through every event other than an epoch transition. *)
Theorem generation_disarmed_after_success
    (X : Externals) (rid nid : N) (private : gset string) (gen : bool)
    (before during rest : list (World * Event)) (wdL wd : World) :
  let s0 := run X (initState rid nid private gen) before in
  let s1 := step X wdL s0 EvGenSecret in
  let s2 := run X s1 during in
  let s3 := step X wd s2 EvGenSecretDone in
  (forall s : State,
      running (lp s) = true -> genSecretDoneCh (lp s) = Some true ->
      genSecretHeight (lp (step X wd s EvGenSecretDone))
      = if 0 <? genSecretRetry (lp s) then MaxInt64 else genSecretHeight (lp s)) /\
  (forall (s : State) (trace : list (World * Event)),
      sameEpoch trace -> genSecretHeight (lp s) = MaxInt64 ->
      genSecretHeight (lp (run X s trace)) = MaxInt64) /\
  (genSecretInProgress (lp s0) = false -> genSecretInProgress (lp s1) = true ->
   sameEpoch during ->
   running (lp s2) = true -> genSecretDoneCh (lp s2) = Some true ->
   sameEpoch rest ->
   0 < genSecretRetry (lp s2) /\
   genSecretHeight (lp s3) = MaxInt64 /\
   genSecretHeight (lp (run X s3 rest)) = MaxInt64).
Proof.
  cbn zeta. split; [|split].
  - intros s Hrun Hdone. by destruct (step_done X wd s true Hrun Hdone) as [-> _].
  - intros s trace. apply run_stays_disarmed.
  - intros Hidle Hlaunched Hduring Hrun Hdone Hrest.
    set (s0 := run X (initState rid nid private gen) before) in *.
    assert (Hb0 : retryBounded (lp s0)) by apply run_retryBounded, init_retryBounded.
    assert (Hpos : 0 < genSecretRetry (lp (run X (step X wdL s0 EvGenSecret) during))).
    { apply run_retry_positive; [done|by apply step_retryBounded|].
      by apply launch_retry_positive. }
    assert (Hmax : genSecretHeight
                     (lp (step X wd (run X (step X wdL s0 EvGenSecret) during)
                            EvGenSecretDone)) = MaxInt64).
    { destruct (step_done X wd _ true Hrun Hdone) as [-> _].
      by rewrite (proj2 (Z.ltb_lt _ _) Hpos). }
    split; [done|]. split; [done|]. by apply run_stays_disarmed.
Qed.

Lemma sameEpoch_check (trace : list (World * Event)) :
  forallb (fun we => negb (isEpochEvent we.2)) trace = true -> sameEpoch trace.
Proof.
  intros Hall we Hin. rewrite forallb_forall in Hall.
  apply list_elem_of_In, Hall in Hin. by apply negb_true_iff.
Qed.

Lemma generation_disarmed_after_success_witness :
  let s0 := run toyExternals (initState 7 9 {[ "P0" ]} true) toyArmed in
  let s1 := step toyExternals toyNow s0 EvGenSecret in
  let s2 := run toyExternals s1 [(toyNow, EvGenTask)] in
  let s3 := step toyExternals toyNow s2 EvGenSecretDone in
  0 < genSecretRetry (lp s2) /\
  genSecretHeight (lp s3) = MaxInt64 /\
  genSecretHeight
    (lp (run toyExternals s3 [(toyNow, EvBlock (Some 60271)); (toyNow, EvGenSecret)]))
  = MaxInt64.
Proof.
  apply (generation_disarmed_after_success toyExternals 7 9 {[ "P0" ]} true toyArmed
           [(toyNow, EvGenTask)]
           [(toyNow, EvBlock (Some 60271)); (toyNow, EvGenSecret)] toyNow toyNow).
  - reflexivity.
  - reflexivity.
  - by apply sameEpoch_check.
  - reflexivity.
  - reflexivity.
  - by apply sameEpoch_check.
Defined.

(** The toy attempt above is a real one: the secret of epoch 101 is not
    published yet, the enclave generates it and the transaction is
    submitted. *)
Example toy_attempt_publishes :
  let s0 := run toyExternals (initState 7 9 {[ "P0" ]} true) toyArmed in
  let s1 := step toyExternals toyNow s0 EvGenSecret in
  genSecretHeight (lp s0) = 60270 /\
  genTask (lp s1) = Some {| task_epoch := 101; task_kmStatus := toyStatus;
                            task_rtStatus := toyRuntimeStatus; task_retry := 0 |} /\
  generateEphemeralSecret toyExternals toyNow (wk s1) 7 101 toyStatus toyRuntimeStatus
  = ([LocalCall RPCMethodGenerateEphemeralSecret (ArgsGenerate 101);
      SubmitTx (toySecret 7 0)], Ok tt).
Proof. cbn zeta. repeat split; vm_compute; reflexivity. Qed.

(** C8, as the code has it.  When consensus already holds the secret of
    the target epoch, [generateEphemeralSecret] returns success at once:
    no enclave call, no transaction, nothing sent out.  The detached task
    then reports success, and the loop, on receiving it, disarms
    generation exactly when the retry counter is positive, which it is
    whenever no epoch transition was handled since the attempt was
    launched; after such a transition the height picked for the new epoch
    is kept. *)
Theorem generation_skipped_when_published
    (X : Externals) (wd wd' : World) (s : State) (t : GenTask)
    (sec : SignedEncryptedEphemeralSecret) :
  genTask (lp s) = Some t ->
  GetEphemeralSecret wd (runtimeID (wk s)) (task_epoch t) = Found sec ->
  let s1 := step X wd s EvGenTask in
  generateEphemeralSecret X wd (wk s) (runtimeID (wk s)) (task_epoch t)
    (task_kmStatus t) (task_rtStatus t) = ([], Ok tt) /\
  effects (wk s1) = effects (wk s) /\
  genSecretDoneCh (lp s1) = Some true /\
  (running (lp s1) = true ->
   genSecretHeight (lp (step X wd' s1 EvGenSecretDone))
   = if 0 <? genSecretRetry (lp s) then MaxInt64 else genSecretHeight (lp s)) /\
  (forall (rid nid : N) (private : gset string) (gen : bool)
          (before during : list (World * Event)) (wdL : World),
      let s0 := run X (initState rid nid private gen) before in
      s = run X (step X wdL s0 EvGenSecret) during ->
      genSecretInProgress (lp s0) = false ->
      genSecretInProgress (lp (step X wdL s0 EvGenSecret)) = true ->
      sameEpoch during ->
      running (lp s1) = true ->
      genSecretHeight (lp (step X wd' s1 EvGenSecretDone)) = MaxInt64).
Proof.
  intros Htask Hfound. cbn zeta.
  assert (Hgen : generateEphemeralSecret X wd (wk s) (runtimeID (wk s)) (task_epoch t)
                   (task_kmStatus t) (task_rtStatus t) = ([], Ok tt)).
  { unfold generateEphemeralSecret. by rewrite Hfound. }
  assert (Hstep : step X wd s EvGenTask = runGenTask X wd s t).
  { unfold step. by rewrite Htask. }
  assert (Hs1 : effects (wk (step X wd s EvGenTask)) = effects (wk s) /\
                genSecretDoneCh (lp (step X wd s EvGenTask)) = Some true /\
                genSecretRetry (lp (step X wd s EvGenTask)) = genSecretRetry (lp s) /\
                genSecretHeight (lp (step X wd s EvGenTask)) = genSecretHeight (lp s)).
  { rewrite Hstep. unfold runGenTask. rewrite Hgen. cbn. by rewrite app_nil_r. }
  destruct Hs1 as (Heff & Hdone & Hretry & Hheight).
  assert (Hrecv : running (lp (step X wd s EvGenTask)) = true ->
                  genSecretHeight (lp (step X wd' (step X wd s EvGenTask) EvGenSecretDone))
                  = if 0 <? genSecretRetry (lp s) then MaxInt64
                    else genSecretHeight (lp s)).
  { intros Hrun. destruct (step_done X wd' _ true Hrun Hdone) as [-> _].
    by rewrite Hretry, Hheight. }
  repeat (split; [done|]).
  intros rid nid private gen before during wdL Hs Hidle Hlaunched Hsame Hrun.
  rewrite Hrecv by done.
  assert (Hpos : 0 < genSecretRetry (lp s)).
  { rewrite Hs. apply run_retry_positive; [done| |].
    - apply step_retryBounded, run_retryBounded, init_retryBounded.
    - apply launch_retry_positive; [|done..].
      apply run_retryBounded, init_retryBounded. }
  by rewrite (proj2 (Z.ltb_lt _ _) Hpos).
Qed.

Lemma generation_skipped_when_published_witness :
  let s := step toyExternals toyNow
             (run toyExternals (initState 7 9 {[ "P0" ]} true) toyArmed) EvGenSecret in
  let s1 := step toyExternals toyNext s EvGenTask in
  effects (wk s1) = effects (wk s) /\
  genSecretDoneCh (lp s1) = Some true /\
  genSecretHeight (lp (step toyExternals toyNext s1 EvGenSecretDone)) = MaxInt64.
Proof.
  cbn zeta.
  pose (t := {| task_epoch := 101; task_kmStatus := toyStatus;
                task_rtStatus := toyRuntimeStatus; task_retry := 0 |}).
  assert (Htask : genTask (lp (step toyExternals toyNow
                    (run toyExternals (initState 7 9 {[ "P0" ]} true) toyArmed)
                    EvGenSecret)) = Some t) by (vm_compute; reflexivity).
  assert (Hfound : GetEphemeralSecret toyNext
                     (runtimeID (wk (step toyExternals toyNow
                        (run toyExternals (initState 7 9 {[ "P0" ]} true) toyArmed)
                        EvGenSecret))) (task_epoch t) = Found (toySecret 7 101))
    by (vm_compute; reflexivity).
  destruct (generation_skipped_when_published toyExternals toyNext toyNext _ t
              (toySecret 7 101) Htask Hfound)
    as (_ & Heff & Hdone & _ & Hepoch).
  split; [exact Heff|]. split; [exact Hdone|].
  apply (Hepoch 7%N 9%N {[ "P0" ]} true toyArmed [] toyNow).
  - cbv [run foldl]. reflexivity.
  - vm_compute; reflexivity.
  - vm_compute; reflexivity.
  - by apply sameEpoch_check.
  - vm_compute; reflexivity.
Defined.

(** C8 as the specification states it fails when an epoch transition is
    handled while the attempt is in flight.  The attempt for epoch 101 is
    launched in epoch 100; the loop moves to epoch 101 and picks height
    60870; the task then finds the secret of epoch 101 published and
    returns success without any call; the loop receives the success with a
    retry counter of zero and leaves generation armed at 60870. *)
Lemma generation_not_disarmed_across_epoch :
  let s1 := step toyExternals toyNow
              (run toyExternals (initState 7 9 {[ "P0" ]} true) toyArmed) EvGenSecret in
  let s2 := step toyExternals toyNext s1 (EvEpoch 101) in
  let s3 := step toyExternals toyNext s2 EvGenTask in
  let s4 := step toyExternals toyNext s3 EvGenSecretDone in
  (task_epoch <$> genTask (lp s2)) = Some 101 /\
  generateEphemeralSecret toyExternals toyNext (wk s2) 7 101 toyStatus toyRuntimeStatus
  = ([], Ok tt) /\
  effects (wk s3) = effects (wk s2) /\
  genSecretDoneCh (lp s3) = Some true /\
  genSecretRetry (lp s3) = 0 /\
  genSecretInProgress (lp s4) = false /\
  genSecretHeight (lp s4) = 60870 /\
  genSecretHeight (lp s4) <> MaxInt64.
Proof.
  cbn zeta. repeat match goal with |- _ /\ _ => split end;
    vm_compute; first [reflexivity | discriminate].
Qed.

(** ** The access control table along runs of the worker *)

Lemma accessKept_pairwise (w w' : Worker) :
  accessKept w w' -> pairwiseMirror w -> pairwiseMirror w'.
Proof. unfold accessKept, pairwiseMirror. intros [-> ->]. done. Qed.

Lemma updateStatus_access (X : Externals) (wd : World) (w : Worker)
    (status : Status) (rs : runtimeStatus) :
  accessKept w (updateStatus X wd w status rs).1.
Proof.
  unfold updateStatus, accessKept.
  destruct (localCallEnclave _ _ _ _ _) as [resp|err]; [|done].
  destruct (capabilityTEE rs) as [tee|]; [|done].
  destruct (signingKeyFor X tee) as [key|err]; [|done].
  by destruct (VerifyInitResponse X resp key).
Qed.

Lemma epochTransition_pairwise (X : Externals) (wd : World) (w : Worker)
    (crw : clientRuntimeWatcher) :
  pairwiseMirror w -> pairwiseMirror (epochTransition X wd w crw).1.
Proof.
  intros Hw. unfold epochTransition.
  destruct (GetCommittees wd _); [|done]. by apply setAccessList_pairwise.
Qed.

Lemma startClientRuntimeWatcher_pairwise (X : Externals) (wd : World) (w : Worker)
    (rt : Runtime) (status : option Status) :
  pairwiseMirror w -> pairwiseMirror (startClientRuntimeWatcher X wd w rt status).1.
Proof.
  intros Hw.
  destruct (startClientRuntimeWatcher_cases X wd w rt status) as [[_ ->]|[_ ->]]; [|done].
  destruct (NewVersionedNodeDescriptorWatcher wd); [done|]. cbn [fst].
  eapply accessKept_pairwise; [|by apply (epochTransition_pairwise X wd w
    {| crw_runtimeID := rt_ID rt; crw_watched := [] |})].
  by unfold accessKept.
Qed.

Lemma recheckAllRuntimes_pairwise (X : Externals) (wd : World) (w : Worker)
    (status : option Status) :
  pairwiseMirror w -> pairwiseMirror (recheckAllRuntimes X wd w status).1.
Proof.
  unfold recheckAllRuntimes. destruct (GetRuntimes wd) as [rts|]; [|done]. cbn [fst].
  revert w. induction rts as [|rt rts IH]; intros w Hw; [done|].
  cbn [foldl]. by apply IH, startClientRuntimeWatcher_pairwise.
Qed.

Lemma reconcile_pairwise (X : Externals) (wd : World) (w : Worker)
    (status : Status) (rs : runtimeStatus) :
  pairwiseMirror w -> pairwiseMirror (reconcile X wd w status rs).
Proof.
  intros Hw. unfold reconcile.
  assert (Hu : pairwiseMirror (updateStatus X wd w status rs).1)
    by (eapply accessKept_pairwise; [apply updateStatus_access|done]).
  destruct (updateStatus X wd w status rs).2; [done|].
  by apply recheckAllRuntimes_pairwise.
Qed.

Lemma loadSecrets_access (X : Externals) (wd : World)
    (queue : list SignedEncryptedEphemeralSecret) :
  forall (w : Worker) (failed : list SignedEncryptedEphemeralSecret),
    accessKept w (loadSecrets X wd w queue failed).1.
Proof.
  induction queue as [|sec queue IH]; intros w failed; [done|].
  cbn [loadSecrets].
  unfold accessKept in *.
  destruct (loadEphemeralSecret X wd sec).
  - destruct (IH (setLastLoadedSecretEpoch
                    (emit w [LocalCall RPCMethodLoadEphemeralSecret (ArgsLoad sec)])
                    (sec_Epoch (Secret sec))) failed) as [H1 H2].
    by rewrite H1, H2.
  - destruct (IH (emit w [LocalCall RPCMethodLoadEphemeralSecret (ArgsLoad sec)])
                (failed ++ [sec])) as [H1 H2].
    by rewrite H1, H2.
Qed.

Lemma runGenTask_access (X : Externals) (wd : World) (s : State) (t : GenTask) :
  accessKept (wk s) (wk (runGenTask X wd s t)).
Proof.
  unfold runGenTask. by destruct (generateEphemeralSecret _ _ _ _ _ _ _).2.
Qed.

Lemma provision_access (wd : World) (s : State) :
  accessKept (wk s) (wk (provision wd s).1).
Proof.
  unfold provision.
  destruct (ProvisionHostedRuntime wd); [done|].
  destruct (WatchEvents wd); [done|].
  by destruct (hrtStart wd), (hrtNotifierStart wd), (SetHostedRuntimeVersion wd).
Qed.

Lemma refreshWatchers_pairwise (X : Externals) (wd : World)
    (crws : list (N * clientRuntimeWatcher)) :
  forall w, pairwiseMirror w -> pairwiseMirror (foldl (refreshWatcher X wd) w crws).
Proof.
  induction crws as [|kv crws IH]; intros w Hw; [done|].
  cbn [foldl]. apply IH. unfold refreshWatcher.
  eapply accessKept_pairwise; [|by apply (epochTransition_pairwise X wd w kv.2)].
  by unfold accessKept.
Qed.

Lemma onStop_access (X : Externals) (wd : World) (s : State) :
  accessKept (wk s) (wk (onStop X wd s)).
Proof.
  unfold onStop.
  destruct (genSecretInProgress (lp s)); [|done].
  destruct (genSecretDoneCh (lp s)); [done|].
  destruct (genTask (lp s)) as [t|]; [|done].
  cbn [wk]. apply runGenTask_access.
Qed.

(** Every step of the system keeps the two access maps mirrored. *)
Lemma step_pairwise (X : Externals) (wd : World) (s : State) (ev : Event) :
  pairwiseMirror (wk s) -> pairwiseMirror (wk (step X wd s ev)).
Proof.
  intros Hw. destruct ev; unfold step.
  all: try (destruct (running (lp s)); cbn [negb]; [|done]).
  - destruct (hrtEventCh (lp s)); [|done].
    assert (Hstart : forall v tee, pairwiseMirror (wk (onHostStarted X wd s v tee))).
    { intros v tee. unfold onHostStarted. cbn [currentStatus with_load with_host].
      destruct (currentStatus (lp s)) as [status|]; [|done]. cbn [wk].
      eapply accessKept_pairwise; [apply updateStatus_access|].
      by destruct (enclaveStatus (wk s)). }
    destruct ev; cbn [onHost wk]; auto.
  - unfold onStatus. destruct (negb _); [done|].
    set (s0 := {| wk := setStatus (wk s) status; lp := lp s |}).
    assert (Hup : pairwiseMirror
                    (wk (if hostedRuntime (wk s0) then (s0, true) else provision wd s0).1)).
    { destruct (hostedRuntime (wk s0)); [done|].
      eapply accessKept_pairwise; [apply (provision_access wd s0)|done]. }
    destruct (if hostedRuntime (wk s0) then (s0, true) else provision wd s0) as [s' ok].
    cbn [fst snd] in *. destruct ok; cbn [negb wk]; [|done].
    destruct (currentRuntimeStatus _); cbn [wk]; [|done].
    by apply reconcile_pairwise.
  - destruct (initTicker (wk s)); [|done]. unfold onInitTick.
    destruct (currentStatus (lp s)), (currentRuntimeStatus (lp s)); cbn [wk]; try done.
    by apply reconcile_pairwise.
  - cbn [onRuntime wk]. by apply startClientRuntimeWatcher_pairwise.
  - cbn [onEpoch wk]. by apply refreshWatchers_pairwise.
  - unfold onBlock. by destruct blk.
  - unfold onSecret. by destruct (negb _).
  - destruct (genSecretCh (lp s)); [|done]. unfold onGenSecret.
    cbn [currentStatus currentRuntimeStatus with_gen genSecretInProgress genSecretHeight].
    destruct (currentStatus (lp s)), (currentRuntimeStatus (lp s)); try done.
    by destruct (_ || _).
  - by destruct (genSecretDoneCh (lp s)).
  - destruct (loadSecretCh (lp s)); [|done]. cbn [onLoadSecret wk].
    eapply accessKept_pairwise; [apply loadSecrets_access|done].
  - eapply accessKept_pairwise; [apply onStop_access|done].
  - destruct (genTask (lp s)) as [t|]; [|done].
    eapply accessKept_pairwise; [apply runGenTask_access|done].
  - unfold onNodeUpdate. destruct (clientRuntimes (wk s) !! rid); [|done].
    destruct reset; [done|]. cbn [wk]. by apply setAccessList_pairwise.
  - by destruct (registerCallback (wk s)).
  - destruct (enabled (wk s)); [|done]. cbn [wk]. by apply setAccessList_pairwise.
Qed.

(** The two maps are mirrored pair by pair in every state the worker
    can reach. *)
Lemma run_pairwise (X : Externals) (rid nid : N) (private : gset string)
    (gen : bool) (trace : list (World * Event)) :
  pairwiseMirror (wk (run X (initState rid nid private gen) trace)).
Proof.
  assert (H0 : pairwiseMirror (wk (initState rid nid private gen)))
    by (by apply pairwise_empty).
  revert H0. generalize (initState rid nid private gen).
  induction trace as [|[wd ev] trace IH]; intros s Hs; [done|].
  apply IH. by apply step_pairwise.
Qed.

(** C7.  The mirror invariant (a peer has an entry in [accessList] exactly
    when some runtime lists it in [accessListByRuntime]) holds for the
    worker as constructed, and every [setAccessList] call, whatever its
    arguments, leaves it in force: it holds before and after the call in
    every state reached by earlier calls, and in every state a run of the
    worker reaches, where the two maps change through [setAccessList]
    only. *)
Theorem mirror_invariant_setAccessList
    (X : Externals) (rid nid : N) (private : gset string) (gen : bool) :
  mirrorInvariant (newWorker rid nid private gen) /\
  (forall (calls : list (N * list Node)) (r : N) (nodes : list Node),
      let w := setAccessLists X (newWorker rid nid private gen) calls in
      mirrorInvariant w /\ mirrorInvariant (setAccessList X w r nodes)) /\
  (forall (trace : list (World * Event)) (r : N) (nodes : list Node),
      let w := wk (run X (initState rid nid private gen) trace) in
      mirrorInvariant w /\ mirrorInvariant (setAccessList X w r nodes)).
Proof.
  assert (H0 : pairwiseMirror (newWorker rid nid private gen))
    by (by apply pairwise_empty).
  split; [by apply pairwise_mirror|]. split.
  - intros calls r nodes. cbn zeta.
    assert (Hw : pairwiseMirror (setAccessLists X (newWorker rid nid private gen) calls))
      by (by apply setAccessLists_pairwise).
    split; apply pairwise_mirror; [done|by apply setAccessList_pairwise].
  - intros trace r nodes. cbn zeta.
    assert (Hw : pairwiseMirror (wk (run X (initState rid nid private gen) trace)))
      by apply run_pairwise.
    split; apply pairwise_mirror; [done|by apply setAccessList_pairwise].
Qed.

(** * Further properties *)

(** ** Enclave RPC adapter *)

Lemma CallEnclave_gate (X : Externals) (wd : World) (w : Worker)
    (peer : option string) (ctxDone : option error)
    (data : list Byte.byte) (kind : Kind) :
  (accessGranted X w peer data kind /\
   CallEnclave X wd w peer ctxDone data kind = dispatchRPC wd ctxDone data kind) \/
  (~ accessGranted X w peer data kind /\
   exists e, CallEnclave X wd w peer ctxDone data kind = ([], Err e)).
Proof.
  unfold accessGranted, openMethod. destruct kind; cbn [CallEnclave].
  - destruct peer as [peerID|];
      [|right; split; [by intros (? & ? & ? & _)|by eexists]].
    destruct (UnmarshalFrame X data) as [frame|] eqn:Hf;
      [|right; split; [by intros (? & ? & ? & ? & _)|by eexists]].
    destruct (String.eqb_spec (UntrustedPlaintext frame) "") as [He|He].
    { left. split; [|done]. exists peerID, frame. repeat split; auto. }
    destruct (String.eqb_spec (UntrustedPlaintext frame) RPCMethodGetPublicKey) as [Hk|Hk].
    { left. split; [|done]. exists peerID, frame. repeat split; auto. }
    destruct (String.eqb_spec (UntrustedPlaintext frame) RPCMethodGetPublicEphemeralKey)
      as [Hek|Hek].
    { left. split; [|done]. exists peerID, frame. repeat split; auto. }
    cbn [orb]. destruct (bool_decide (peerID ∈ privatePeers w)) eqn:Hp.
    { apply bool_decide_eq_true in Hp. left. split; [|done]. exists peerID, frame. repeat split; auto. }
    apply bool_decide_eq_false in Hp.
    destruct (accessList w !! peerID) as [entry|] eqn:Hl.
    { left. split; [|done]. exists peerID, frame. rewrite Hl. repeat split; eauto. }
    right. split; [|by eexists].
    intros (p & f & [= <-] & [= <-] & [[?|[?|?]]|[?|[? ?]]]); congruence.
  - left. done.
  - right. split; [tauto|by eexists].
Qed.

Lemma dispatchRPC_cases (wd : World) (ctxDone : option error)
    (data : list Byte.byte) (kind : Kind) :
  let req := RuntimeRPCCallRequest data kind in
  (exists e, ctxDone = Some e /\ dispatchRPC wd ctxDone data kind = ([], Err e)) \/
  (ctxDone = None /\
   (dispatchRPC wd ctxDone data kind).1 = [HostCall req] /\
   (forall b, (dispatchRPC wd ctxDone data kind).2 = Ok b <->
              exists resp, Call wd req = Ok resp /\ RuntimeRPCCallResponse resp = Some b)).
Proof.
  cbn zeta. unfold dispatchRPC. destruct ctxDone as [e|]; [left; by eexists|].
  right. split; [done|].
  destruct (Call wd _) as [resp|e].
  - destruct (RuntimeRPCCallResponse resp) as [b0|] eqn:Hr; cbn.
    + split; [done|]. intros b. split.
      * intros [= <-]. by exists resp.
      * intros (resp' & [= <-] & Hb). congruence.
    + split; [done|]. intros b. split; [done|].
      intros (resp' & [= <-] & Hb). congruence.
  - cbn. split; [done|]. intros b. split; [done|]. by intros (? & ? & _).
Qed.

(** X1.  [CallEnclave] hands a request to the hosted runtime only when
    the access switch lets it through (an insecure query; or a Noise
    session whose peer is known, whose frame decodes, and whose method is
    open or whose peer is private or on the access list) and the
    initialization wait was won; what it hands over is then exactly one
    request carrying the caller's data and kind, unchanged.  A local query
    never reaches the runtime. *)
Theorem CallEnclave_dispatches_only_granted
    (X : Externals) (wd : World) (w : Worker) (peer : option string)
    (ctxDone : option error) (data : list Byte.byte) (kind : Kind) :
  (CallEnclave X wd w peer ctxDone data kind).1 <> [] ->
  accessGranted X w peer data kind /\
  kind <> KindLocalQuery /\
  ctxDone = None /\
  (CallEnclave X wd w peer ctxDone data kind).1 = [HostCall (RuntimeRPCCallRequest data kind)].
Proof.
  intros Hsent.
  destruct (CallEnclave_gate X wd w peer ctxDone data kind)
    as [[Hg Heq]|[_ (e & Heq)]]; rewrite Heq in *; [|done].
  split; [done|]. split; [by intros ->|].
  destruct (dispatchRPC_cases wd ctxDone data kind) as [(e & _ & He)|(Hc & Hs & _)].
  - by rewrite He in Hsent.
  - done.
Qed.

Lemma CallEnclave_dispatches_only_granted_witness :
  accessGranted toyExternals toyListed (Some "A") [Byte.x09] KindNoiseSession /\
  (CallEnclave toyExternals toyNow toyListed (Some "A") None [Byte.x09] KindNoiseSession).1
  = [HostCall (RuntimeRPCCallRequest [Byte.x09] KindNoiseSession)].
Proof.
  assert (Hsent : (CallEnclave toyExternals toyNow toyListed (Some "A") None [Byte.x09]
                     KindNoiseSession).1 <> []) by (vm_compute; discriminate).
  destruct (CallEnclave_dispatches_only_granted toyExternals toyNow toyListed (Some "A")
              None [Byte.x09] KindNoiseSession Hsent) as (Hg & _ & _ & He).
  split; [exact Hg|exact He].
Defined.

(** X2.  [CallEnclave] returns bytes exactly when access is granted, the
    initialization wait is won, the hosted runtime answers the call and
    the answer carries an RPC response: the bytes returned are those of
    that response.  In every other case it returns an error. *)
Theorem CallEnclave_returns_runtime_response
    (X : Externals) (wd : World) (w : Worker) (peer : option string)
    (ctxDone : option error) (data : list Byte.byte) (kind : Kind) (b : list Byte.byte) :
  (CallEnclave X wd w peer ctxDone data kind).2 = Ok b <->
  accessGranted X w peer data kind /\ ctxDone = None /\
  exists resp, Call wd (RuntimeRPCCallRequest data kind) = Ok resp /\
               RuntimeRPCCallResponse resp = Some b.
Proof.
  destruct (CallEnclave_gate X wd w peer ctxDone data kind)
    as [[Hg Heq]|[Hn (e & Heq)]]; rewrite Heq.
  - destruct (dispatchRPC_cases wd ctxDone data kind) as [(e & -> & He)|(Hc & _ & Hb)].
    + rewrite He. cbn. split; [done|]. by intros (_ & ? & _).
    + cbn zeta in Hb. rewrite Hb. tauto.
  - cbn. split; [done|]. tauto.
Qed.

(** X3.  [localCallEnclave] yields a response exactly when the hosted
    runtime answers the call, the answer carries a local RPC response,
    the envelope decodes to a response whose body has a success payload,
    and the payload decodes; a success payload is used even when the body
    also carries an error.  A body with an error and no success payload
    is reported as an RPC failure quoting the enclave's text. *)
Theorem localCallEnclave_outcomes
    {T : Type} (X : Externals) (wd : World) (unmarshal : list Byte.byte -> option T)
    (method : string) (args : RpcArgs) :
  let call := Call wd (RuntimeLocalRPCCallRequest (MarshalRequest X method args)) in
  (forall r : T,
      localCallEnclave X wd unmarshal method args = Ok r <->
      exists response resp msg body payload,
        call = Ok response /\
        RuntimeLocalRPCCallResponse response = Some resp /\
        UnmarshalMessage X resp = Some msg /\
        msg_Response msg = Some body /\
        Success body = Some payload /\
        unmarshal payload = Some r) /\
  (forall response resp msg body text,
      call = Ok response ->
      RuntimeLocalRPCCallResponse response = Some resp ->
      UnmarshalMessage X resp = Some msg ->
      msg_Response msg = Some body ->
      Success body = None -> Error body = Some text ->
      localCallEnclave X wd unmarshal method args
      = Err (Errorf ("rpc failure: '" +:+ text +:+ "'"))) /\
  (forall e, call = Err e -> localCallEnclave X wd unmarshal method args = Err e).
Proof.
  cbn zeta. split; [|split].
  - intros r. unfold localCallEnclave.
    destruct (Call wd _) as [response|e].
    2:{ split; [done|]. by intros (? & ? & ? & ? & ? & ? & _). }
    destruct (RuntimeLocalRPCCallResponse response) as [resp|] eqn:Hresp.
    2:{ split; [done|]. intros (? & ? & ? & ? & ? & [= <-] & ? & _). congruence. }
    destruct (UnmarshalMessage X resp) as [msg|] eqn:Hmsg.
    2:{ split; [done|].
        intros (? & ? & ? & ? & ? & [= <-] & ? & ? & _). congruence. }
    destruct (msg_Response msg) as [body|] eqn:Hbody.
    2:{ split; [done|].
        intros (? & ? & ? & ? & ? & [= <-] & ? & ? & ? & _). congruence. }
    destruct (Success body) as [payload|] eqn:Hs.
    + destruct (unmarshal payload) as [r0|] eqn:Hu.
      * split.
        -- intros [= <-]. by exists response, resp, msg, body, payload.
        -- intros (? & ? & ? & ? & ? & [= <-] & ? & ? & ? & ? & ?). congruence.
      * split; [done|].
        intros (? & ? & ? & ? & ? & [= <-] & ? & ? & ? & ? & ?). congruence.
    + split.
      * by destruct (Error body).
      * intros (? & ? & ? & ? & ? & [= <-] & ? & ? & ? & ? & ?). congruence.
  - intros response resp msg body text Hc Hr Hm Hb Hs He.
    unfold localCallEnclave. by rewrite Hc, Hr, Hm, Hb, Hs, He.
  - intros e Hc. unfold localCallEnclave. by rewrite Hc.
Qed.

(** ** Status reconciler *)

(** X4.  Every run of [updateStatus] makes exactly one [init] call.  When
    it fails, for whatever reason, the retry ticker is armed, nothing is
    announced to the registration worker, and the cached enclave status,
    policy, policy checksum and the policy update counter stay as they
    were.  When it succeeds, the ticker is disarmed, the counter goes up by
    one, and the node is announced once, with the runtime version, the
    init response in CBOR as extra information and the TEE capability of
    the runtime. *)
Theorem updateStatus_retry_and_registration
    (X : Externals) (wd : World) (w : Worker) (status : Status) (rs : runtimeStatus) :
  let r := updateStatus X wd w status rs in
  let init := LocalCall RPCMethodInit (initRequest X w status) in
  (r.2 <> None ->
   initTicker r.1 = true /\
   registerCallback r.1 = registerCallback w /\
   effects r.1 = effects w ++ [init] /\
   enclaveStatus r.1 = enclaveStatus w /\ policy r.1 = policy w /\
   policyChecksum r.1 = policyChecksum w /\
   policyUpdateCount r.1 = policyUpdateCount w) /\
  (r.2 = None ->
   initTicker r.1 = false /\
   registerCallback r.1 = true /\
   policyUpdateCount r.1 = policyUpdateCount w + 1 /\
   exists resp,
     localCallEnclave X wd (UnmarshalInitResponse X) RPCMethodInit (initRequest X w status)
     = Ok resp /\
     enclaveStatus r.1 = Some resp /\
     effects r.1 = effects w ++
       [init; SetAvailable (version rs) (Some (MarshalInitResponse X resp))
                (capabilityTEE rs)]).
Proof.
  cbn zeta. unfold updateStatus.
  destruct (localCallEnclave _ _ _ _ _) as [resp|err] eqn:Hcall; [|by cbn].
  destruct (capabilityTEE rs) as [tee|] eqn:Htee.
  - destruct (signingKeyFor X tee) as [key|err]; [|by cbn].
    destruct (VerifyInitResponse X resp key); [|by cbn].
    cbn. split; [done|]. intros _. repeat split; try done.
    exists resp. by rewrite <- app_assoc.
  - cbn. split; [done|]. intros _. repeat split; try done.
    exists resp. by rewrite <- app_assoc.
Qed.

(** ** Access control table: how calls compose *)

Lemma cleanEntry_Some (r : N) (s : gset N) :
  cleanEntry r (Some s) = if decide (s ∖ {[ r ]} = ∅) then None else Some (s ∖ {[ r ]}).
Proof.
  unfold cleanEntry. destruct (decide (size (s ∖ {[r]}) = 0%nat)) as [Hz|Hn].
  - apply size_empty_inv in Hz. rewrite decide_True; [done|]. by apply set_eq.
  - rewrite decide_False; [done|]. intros He. apply Hn. rewrite He. apply size_empty.
Qed.

Lemma setAccessList_entry (X : Externals) (w : Worker) (r : N) (nodes : list Node)
    (p : string) :
  accessList (setAccessList X w r nodes) !! p
  = entryAfter r (bool_decide (p ∈ peersOf (accessListByRuntime w) r))
      (bool_decide (p ∈ derivedPeers X nodes)) (accessList w !! p).
Proof.
  rewrite setAccessList_lookup. cbn zeta. unfold entryAfter.
  destruct (decide (p ∈ derivedPeers X nodes)) as [Hd|Hd],
           (decide (p ∈ peersOf (accessListByRuntime w) r)) as [Hl|Hl].
  all: rewrite ?(bool_decide_eq_true_2 _ Hd), ?(bool_decide_eq_false_2 _ Hd),
         ?(bool_decide_eq_true_2 _ Hl), ?(bool_decide_eq_false_2 _ Hl); done.
Qed.

Lemma cleanEntry_entryOf (r : N) (o : option (gset N)) :
  cleanEntry r o = entryOf (default ∅ o ∖ {[ r ]}).
Proof.
  unfold entryOf. destruct o as [s|]; cbn [default].
  - apply cleanEntry_Some.
  - cbn. rewrite decide_True; [done|]. set_solver.
Qed.

Lemma default_entryOf (s : gset N) : default ∅ (entryOf s) = s.
Proof. unfold entryOf. by case_decide. Qed.

(** A call that touches the entry leaves the entry of the runtimes it
    computes; a call that does not leaves the entry as it is. *)
Lemma entryAfter_entryOf (r : N) (listed derived : bool) (o : option (gset N)) :
  entryAfter r listed derived o
  = if listed || derived then entryOf (runtimesAfter r listed derived (default ∅ o))
    else o.
Proof.
  unfold entryAfter, runtimesAfter. destruct listed, derived; cbn [orb].
  - rewrite cleanEntry_entryOf, default_entryOf. unfold entryOf at 1.
    rewrite decide_False; [done|]. set_solver.
  - apply cleanEntry_entryOf.
  - unfold entryOf. rewrite decide_False; [done|]. set_solver.
  - done.
Qed.

Lemma entryAfter_idemp (r : N) (listed derived : bool) (o : option (gset N)) :
  entryAfter r derived derived (entryAfter r listed derived o)
  = entryAfter r listed derived o.
Proof.
  rewrite !entryAfter_entryOf. unfold runtimesAfter.
  destruct listed, derived; cbn [orb]; rewrite ?default_entryOf; try done;
    f_equal; apply set_eq; intros x; destruct (decide (x = r)); set_solver.
Qed.

Lemma runtimesAfter_comm (r1 r2 : N) (l1 d1 l2 d2 : bool) (s : gset N) :
  r1 <> r2 ->
  runtimesAfter r2 l2 d2 (runtimesAfter r1 l1 d1 s)
  = runtimesAfter r1 l1 d1 (runtimesAfter r2 l2 d2 s).
Proof.
  intros Hne. unfold runtimesAfter.
  destruct l1, d1, l2, d2; apply set_eq; intros x;
    destruct (decide (x = r1)), (decide (x = r2)); set_solver.
Qed.

Lemma entryAfter_comm (r1 r2 : N) (l1 d1 l2 d2 : bool) (o : option (gset N)) :
  r1 <> r2 ->
  entryAfter r2 l2 d2 (entryAfter r1 l1 d1 o)
  = entryAfter r1 l1 d1 (entryAfter r2 l2 d2 o).
Proof.
  intros Hne. rewrite !entryAfter_entryOf.
  destruct (l1 || d1) eqn:H1, (l2 || d2) eqn:H2; rewrite ?default_entryOf; try done.
  by rewrite runtimesAfter_comm.
Qed.

Lemma with_access_self (w : Worker) :
  with_access w (accessList w) (accessListByRuntime w) = w.
Proof. by destruct w. Qed.

Lemma with_access_setAccessList (X : Externals) (w : Worker) (r : N)
    (nodes : list Node) (a : gmap string (gset N)) (b : gmap N (list string)) :
  with_access (setAccessList X w r nodes) a b = with_access w a b.
Proof. reflexivity. Qed.

Lemma setAccessList_as_update (X : Externals) (w : Worker) (r : N) (nodes : list Node) :
  setAccessList X w r nodes
  = with_access w (accessList (setAccessList X w r nodes))
      (accessListByRuntime (setAccessList X w r nodes)).
Proof. reflexivity. Qed.

(** X5.  [setAccessList] is idempotent: installing the same nodes for the
    same runtime a second time changes nothing. *)
Theorem setAccessList_idempotent
    (X : Externals) (w : Worker) (r : N) (nodes : list Node) :
  setAccessList X (setAccessList X w r nodes) r nodes = setAccessList X w r nodes.
Proof.
  assert (HA : accessList (setAccessList X (setAccessList X w r nodes) r nodes)
               = accessList (setAccessList X w r nodes)).
  { apply map_eq. intros p. rewrite setAccessList_entry, peersOf_set_same.
    rewrite setAccessList_entry. apply entryAfter_idemp. }
  assert (HB : accessListByRuntime (setAccessList X (setAccessList X w r nodes) r nodes)
               = accessListByRuntime (setAccessList X w r nodes)).
  { rewrite !setAccessList_byRuntime. apply insert_insert_eq. }
  rewrite (setAccessList_as_update X (setAccessList X w r nodes)), HA, HB.
  apply with_access_self.
Qed.

(** X6.  [setAccessList] calls for different runtimes commute, so the
    order in which the watchers of an epoch transition are visited does
    not matter. *)
Theorem setAccessList_commutes
    (X : Externals) (w : Worker) (r1 r2 : N) (nodes1 nodes2 : list Node) :
  r1 <> r2 ->
  setAccessList X (setAccessList X w r1 nodes1) r2 nodes2
  = setAccessList X (setAccessList X w r2 nodes2) r1 nodes1.
Proof.
  intros Hne.
  assert (HA : accessList (setAccessList X (setAccessList X w r1 nodes1) r2 nodes2)
               = accessList (setAccessList X (setAccessList X w r2 nodes2) r1 nodes1)).
  { apply map_eq. intros p. rewrite !setAccessList_entry.
    rewrite (peersOf_set_other X w r1 r2) by done.
    rewrite (peersOf_set_other X w r2 r1) by done.
    by apply entryAfter_comm. }
  assert (HB : accessListByRuntime (setAccessList X (setAccessList X w r1 nodes1) r2 nodes2)
               = accessListByRuntime (setAccessList X (setAccessList X w r2 nodes2) r1 nodes1)).
  { rewrite !setAccessList_byRuntime. by apply insert_insert_ne. }
  rewrite (setAccessList_as_update X (setAccessList X w r1 nodes1)).
  rewrite (setAccessList_as_update X (setAccessList X w r2 nodes2)).
  rewrite HA, HB, !with_access_setAccessList. reflexivity.
Qed.

Lemma setAccessList_commutes_witness :
  setAccessList toyExternals (setAccessList toyExternals toyWorker 187 [toyNode]) 188 [toyNodeB]
  = setAccessList toyExternals (setAccessList toyExternals toyWorker 188 [toyNodeB]) 187 [toyNode].
Proof.
  apply (setAccessList_commutes toyExternals toyWorker 187 188 [toyNode] [toyNodeB]).
  discriminate.
Defined.

(** X7.  After [setAccessList(r, nodes)] on a worker in any state its
    loop can reach, a peer that is not private passes the access check of
    a Noise session for a method that is not open exactly when it is
    derived from [nodes] or was listed for some other runtime: the new
    nodes are let in, and a peer dropped from the runtime is refused
    unless another runtime still lists it. *)
Theorem setAccessList_governs_access
    (X : Externals) (rid nid : N) (private : gset string) (gen : bool)
    (trace : list (World * Event)) (r : N) (nodes : list Node)
    (peerID : string) (data : list Byte.byte) (frame : Frame) :
  let w := wk (run X (initState rid nid private gen) trace) in
  UnmarshalFrame X data = Some frame ->
  ~ openMethod (UntrustedPlaintext frame) ->
  peerID ∉ privatePeers w ->
  accessGranted X (setAccessList X w r nodes) (Some peerID) data KindNoiseSession <->
  peerID ∈ derivedPeers X nodes \/
  exists r', r' <> r /\ peerID ∈ peersOf (accessListByRuntime w) r'.
Proof.
  cbn zeta. intros Hframe Hclosed Hpriv.
  set (w := wk (run X (initState rid nid private gen) trace)) in *.
  assert (Hw : pairwiseMirror w) by apply run_pairwise.
  assert (Hw' : pairwiseMirror (setAccessList X w r nodes))
    by (by apply setAccessList_pairwise).
  pose proof (pairwise_mirror _ Hw') as Hm.
  assert (Hlisted : is_Some (accessList (setAccessList X w r nodes) !! peerID) <->
                    peerID ∈ derivedPeers X nodes \/
                    exists r', r' <> r /\ peerID ∈ peersOf (accessListByRuntime w) r').
  { rewrite (Hm peerID). split.
    - intros [r' Hin]. destruct (decide (r' = r)) as [->|Hne].
      + left. by rewrite peersOf_set_same in Hin.
      + right. exists r'. by rewrite peersOf_set_other in Hin.
    - intros [Hd|(r' & Hne & Hin)].
      + exists r. by rewrite peersOf_set_same.
      + exists r'. by rewrite peersOf_set_other. }
  rewrite <- Hlisted. cbn [accessGranted]. split.
  - intros (p & f & [= <-] & Hf & [Ho|[Hp|Hl]]); [|done..].
    rewrite Hframe in Hf. by injection Hf as <-.
  - intros Hl. exists peerID, frame. auto.
Qed.

Lemma setAccessList_governs_access_witness :
  accessGranted toyExternals
    (setAccessList toyExternals (wk (run toyExternals (initState 7 9 {[ "P0" ]} true) []))
       187 [toyNode])
    (Some "A") [Byte.x09] KindNoiseSession.
Proof.
  pose (frame := {| Session := []; UntrustedPlaintext := "secret_method";
                    Payload := [] |}).
  apply (setAccessList_governs_access toyExternals 7 9 {[ "P0" ]} true [] 187 [toyNode]
           "A" [Byte.x09] frame).
  - reflexivity.
  - intros [H|[H|H]]; discriminate H.
  - vm_compute. set_solver.
  - left. vm_compute. apply list_elem_of_here.
Defined.

(** ** Watcher bookkeeping along runs of the worker *)

Section WatcherBookkeeping.

Variable P : N -> Prop.

Lemma tablesKept_consistent (w w' : Worker) :
  tablesKept w w' -> watchersConsistent P w -> watchersConsistent P w'.
Proof.
  unfold tablesKept, accessKept, watchersConsistent.
  intros ([_ ->] & -> & ->). done.
Qed.

Lemma updateStatus_tables (X : Externals) (wd : World) (w : Worker)
    (status : Status) (rs : runtimeStatus) :
  tablesKept w (updateStatus X wd w status rs).1.
Proof.
  unfold updateStatus, tablesKept, accessKept.
  destruct (localCallEnclave _ _ _ _ _) as [resp|err]; [|done].
  destruct (capabilityTEE rs) as [tee|]; [|done].
  destruct (signingKeyFor X tee) as [key|err]; [|done].
  by destruct (VerifyInitResponse X resp key).
Qed.

Lemma loadSecrets_tables (X : Externals) (wd : World)
    (queue : list SignedEncryptedEphemeralSecret) :
  forall (w : Worker) (failed : list SignedEncryptedEphemeralSecret),
    tablesKept w (loadSecrets X wd w queue failed).1.
Proof.
  induction queue as [|sec queue IH]; intros w failed; [done|].
  cbn [loadSecrets].
  unfold tablesKept, accessKept in *.
  destruct (loadEphemeralSecret X wd sec).
  - destruct (IH (setLastLoadedSecretEpoch
                    (emit w [LocalCall RPCMethodLoadEphemeralSecret (ArgsLoad sec)])
                    (sec_Epoch (Secret sec))) failed) as ([H1 H2] & H3 & H4).
    by rewrite H1, H2, H3, H4.
  - destruct (IH (emit w [LocalCall RPCMethodLoadEphemeralSecret (ArgsLoad sec)])
                (failed ++ [sec])) as ([H1 H2] & H3 & H4).
    by rewrite H1, H2, H3, H4.
Qed.

Lemma runGenTask_tables (X : Externals) (wd : World) (s : State) (t : GenTask) :
  tablesKept (wk s) (wk (runGenTask X wd s t)).
Proof.
  unfold runGenTask. by destruct (generateEphemeralSecret _ _ _ _ _ _ _).2.
Qed.

Lemma provision_tables (wd : World) (s : State) :
  tablesKept (wk s) (wk (provision wd s).1).
Proof.
  unfold provision.
  destruct (ProvisionHostedRuntime wd); [done|].
  destruct (WatchEvents wd); [done|].
  by destruct (hrtStart wd), (hrtNotifierStart wd), (SetHostedRuntimeVersion wd).
Qed.

Lemma onStop_tables (X : Externals) (wd : World) (s : State) :
  tablesKept (wk s) (wk (onStop X wd s)).
Proof.
  unfold onStop.
  destruct (genSecretInProgress (lp s)); [|done].
  destruct (genSecretDoneCh (lp s)); [done|].
  destruct (genTask (lp s)) as [t|]; [|done].
  cbn [wk]. apply runGenTask_tables.
Qed.

Lemma setAccessList_watchers (X : Externals) (w : Worker) (r : N) (nodes : list Node) :
  clientRuntimes (setAccessList X w r nodes) = clientRuntimes w /\
  computeRuntimeCount (setAccessList X w r nodes) = computeRuntimeCount w.
Proof. done. Qed.

(** Replacing the access list of a watched runtime, or of a runtime in
    [P], keeps the bookkeeping. *)
Lemma setAccessList_consistent (X : Externals) (w : Worker) (r : N) (nodes : list Node) :
  is_Some (clientRuntimes w !! r) \/ P r ->
  watchersConsistent P w -> watchersConsistent P (setAccessList X w r nodes).
Proof.
  intros Hr (Hc & Hid & Hrow). split; [done|]. split; [done|].
  intros r'. rewrite setAccessList_byRuntime. cbn [clientRuntimes setAccessList with_access].
  destruct (decide (r' = r)) as [->|Hne]; [done|].
  rewrite lookup_insert_ne by done. apply Hrow.
Qed.

(** What [crw.epochTransition] does to the rows of [accessListByRuntime]:
    at most the row of the watcher's runtime appears. *)
Lemma epochTransition_rows (X : Externals) (wd : World) (w : Worker)
    (crw : clientRuntimeWatcher) (r : N) :
  is_Some (accessListByRuntime (epochTransition X wd w crw).1 !! r) ->
  r = crw_runtimeID crw \/ is_Some (accessListByRuntime w !! r).
Proof.
  unfold epochTransition. destruct (GetCommittees wd _); [|by right]. cbn [fst].
  rewrite setAccessList_byRuntime.
  destruct (decide (r = crw_runtimeID crw)) as [->|Hne]; [by left|].
  rewrite lookup_insert_ne by done. by right.
Qed.

Lemma epochTransition_watcher (X : Externals) (wd : World) (w : Worker)
    (crw : clientRuntimeWatcher) :
  crw_runtimeID (epochTransition X wd w crw).2 = crw_runtimeID crw.
Proof. unfold epochTransition. by destruct (GetCommittees wd _). Qed.

Lemma startClientRuntimeWatcher_consistent (X : Externals) (wd : World) (w : Worker)
    (rt : Runtime) (status : option Status) :
  watchersConsistent P w ->
  watchersConsistent P (startClientRuntimeWatcher X wd w rt status).1.
Proof.
  intros (Hc & Hid & Hrow).
  destruct (startClientRuntimeWatcher_cases X wd w rt status) as [[He ->]|[_ ->]]; [|done].
  destruct (NewVersionedNodeDescriptorWatcher wd); [done|]. cbn [fst].
  set (crw0 := {| crw_runtimeID := rt_ID rt; crw_watched := [] |}).
  destruct (epochTransition_count X wd w crw0) as (Hcnt & Hcrs & _).
  assert (Hnone : clientRuntimes w !! rt_ID rt = None).
  { destruct He as (? & _ & _ & _ & _ & Hnone & _). exact Hnone. }
  cbn [watchersConsistent computeRuntimeCount clientRuntimes with_watchers emit
       with_effects accessListByRuntime].
  unfold watchersConsistent.
  cbn [computeRuntimeCount clientRuntimes with_watchers emit with_effects
       accessListByRuntime].
  rewrite Hcnt, Hcrs. split; [|split].
  - rewrite map_size_insert_None by done. lia.
  - intros r crw. destruct (decide (r = rt_ID rt)) as [->|Hne].
    + rewrite lookup_insert_eq. intros [= <-]. apply epochTransition_watcher.
    + rewrite lookup_insert_ne by done. apply Hid.
  - intros r Hr. destruct (decide (r = rt_ID rt)) as [->|Hne].
    + left. rewrite lookup_insert_eq. by eexists.
    + rewrite lookup_insert_ne by done. apply Hrow.
      destruct (epochTransition_rows X wd w crw0 r Hr) as [->|H]; [done|exact H].
Qed.

Lemma recheckAllRuntimes_consistent (X : Externals) (wd : World) (w : Worker)
    (status : option Status) :
  watchersConsistent P w -> watchersConsistent P (recheckAllRuntimes X wd w status).1.
Proof.
  unfold recheckAllRuntimes. destruct (GetRuntimes wd) as [rts|]; [|done]. cbn [fst].
  revert w. induction rts as [|rt rts IH]; intros w Hw; [done|].
  cbn [foldl]. by apply IH, startClientRuntimeWatcher_consistent.
Qed.

Lemma reconcile_consistent (X : Externals) (wd : World) (w : Worker)
    (status : Status) (rs : runtimeStatus) :
  watchersConsistent P w -> watchersConsistent P (reconcile X wd w status rs).
Proof.
  intros Hw. unfold reconcile.
  assert (Hu : watchersConsistent P (updateStatus X wd w status rs).1)
    by (eapply tablesKept_consistent; [apply updateStatus_tables|done]).
  destruct (updateStatus X wd w status rs).2; [done|].
  by apply recheckAllRuntimes_consistent.
Qed.

(** One watcher's refresh on an epoch transition, for a watcher that is
    stored under its own runtime. *)
Lemma refreshWatcher_consistent (X : Externals) (wd : World) (w : Worker)
    (kv : N * clientRuntimeWatcher) :
  is_Some (clientRuntimes w !! kv.1) -> crw_runtimeID kv.2 = kv.1 ->
  watchersConsistent P w ->
  watchersConsistent P (refreshWatcher X wd w kv) /\
  forall r, is_Some (clientRuntimes (refreshWatcher X wd w kv) !! r) <->
            is_Some (clientRuntimes w !! r).
Proof.
  intros [c Hc] Hkey (Hcnt & Hid & Hrow).
  destruct (epochTransition_count X wd w kv.2) as (Hcnt' & Hcrs & _).
  unfold refreshWatcher, watchersConsistent.
  cbn [computeRuntimeCount clientRuntimes with_watchers accessListByRuntime].
  rewrite Hcnt', Hcrs.
  assert (Hdom : forall r, is_Some (<[kv.1:=(epochTransition X wd w kv.2).2]>
                                      (clientRuntimes w) !! r) <->
                           is_Some (clientRuntimes w !! r)).
  { intros r. destruct (decide (r = kv.1)) as [->|Hne].
    - rewrite lookup_insert_eq, Hc. split; by eexists.
    - by rewrite lookup_insert_ne. }
  split; [|exact Hdom]. split; [|split].
  - rewrite Hcnt. f_equal. symmetry.
    rewrite <- (insert_delete_id (clientRuntimes w) kv.1 c) at 2 by done.
    rewrite <- (insert_delete_eq (clientRuntimes w)).
    rewrite !map_size_insert_None by apply lookup_delete_eq. done.
  - intros r crw. destruct (decide (r = kv.1)) as [->|Hne].
    + rewrite lookup_insert_eq. intros [= <-].
      by rewrite epochTransition_watcher.
    + rewrite lookup_insert_ne by done. apply Hid.
  - intros r Hr. rewrite Hdom.
    destruct (epochTransition_rows X wd w kv.2 r Hr) as [->|H].
    + left. rewrite Hkey. by eexists.
    + by apply Hrow.
Qed.

Lemma refreshWatchers_consistent (X : Externals) (wd : World)
    (crws : list (N * clientRuntimeWatcher)) :
  forall w,
    Forall (fun kv => is_Some (clientRuntimes w !! kv.1) /\ crw_runtimeID kv.2 = kv.1) crws ->
    watchersConsistent P w ->
    watchersConsistent P (foldl (refreshWatcher X wd) w crws).
Proof.
  induction crws as [|kv crws IH]; intros w Hall Hw; [done|].
  apply Forall_cons in Hall as [[Hin Hkey] Hall].
  destruct (refreshWatcher_consistent X wd w kv Hin Hkey Hw) as [Hw' Hdom].
  cbn [foldl]. apply IH; [|done].
  eapply Forall_impl; [exact Hall|]. intros kv' [H1 H2]. split; [|done].
  by apply Hdom.
Qed.

(** Every step of the system keeps the watcher bookkeeping, when the key
    manager node watcher stays within [P]. *)
Lemma step_consistent (X : Externals) (wd : World) (s : State) (ev : Event) :
  (forall r nodes, ev = EvKmNodes r nodes -> P r) ->
  watchersConsistent P (wk s) -> watchersConsistent P (wk (step X wd s ev)).
Proof.
  intros Hkm Hw. destruct ev; unfold step.
  all: try (destruct (running (lp s)); cbn [negb]; [|done]).
  - destruct (hrtEventCh (lp s)); [|done].
    assert (Hstart : forall v tee, watchersConsistent P (wk (onHostStarted X wd s v tee))).
    { intros v tee. unfold onHostStarted. cbn [currentStatus with_load with_host].
      destruct (currentStatus (lp s)) as [status|]; [|done]. cbn [wk].
      eapply tablesKept_consistent; [apply updateStatus_tables|].
      by destruct (enclaveStatus (wk s)). }
    destruct ev; cbn [onHost wk]; auto.
  - unfold onStatus. destruct (negb _); [done|].
    set (s0 := {| wk := setStatus (wk s) status; lp := lp s |}).
    assert (Hup : watchersConsistent P
                    (wk (if hostedRuntime (wk s0) then (s0, true) else provision wd s0).1)).
    { destruct (hostedRuntime (wk s0)); [done|].
      eapply tablesKept_consistent; [apply (provision_tables wd s0)|done]. }
    destruct (if hostedRuntime (wk s0) then (s0, true) else provision wd s0) as [s' ok].
    cbn [fst snd] in *. destruct ok; cbn [negb wk]; [|done].
    destruct (currentRuntimeStatus _); cbn [wk]; [|done].
    by apply reconcile_consistent.
  - destruct (initTicker (wk s)); [|done]. unfold onInitTick.
    destruct (currentStatus (lp s)), (currentRuntimeStatus (lp s)); cbn [wk]; try done.
    by apply reconcile_consistent.
  - cbn [onRuntime wk]. by apply startClientRuntimeWatcher_consistent.
  - cbn [onEpoch wk]. apply refreshWatchers_consistent; [|done].
    apply Forall_forall. intros [r crw] Hin. apply elem_of_map_to_list in Hin.
    cbn [fst snd]. split; [by eexists|]. destruct Hw as (_ & Hid & _). by apply Hid.
  - unfold onBlock. by destruct blk.
  - unfold onSecret. by destruct (negb _).
  - destruct (genSecretCh (lp s)); [|done]. unfold onGenSecret.
    cbn [currentStatus currentRuntimeStatus with_gen genSecretInProgress genSecretHeight].
    destruct (currentStatus (lp s)), (currentRuntimeStatus (lp s)); try done.
    by destruct (_ || _).
  - by destruct (genSecretDoneCh (lp s)).
  - destruct (loadSecretCh (lp s)); [|done]. cbn [onLoadSecret wk].
    eapply tablesKept_consistent; [apply loadSecrets_tables|done].
  - eapply tablesKept_consistent; [apply onStop_tables|done].
  - destruct (genTask (lp s)) as [t|]; [|done].
    eapply tablesKept_consistent; [apply runGenTask_tables|done].
  - unfold onNodeUpdate. destruct (clientRuntimes (wk s) !! rid) as [crw|] eqn:Hcrw; [|done].
    destruct reset; [done|]. cbn [wk]. apply setAccessList_consistent; [|done].
    left. destruct Hw as (_ & Hid & _). rewrite (Hid rid crw Hcrw). by eexists.
  - by destruct (registerCallback (wk s)).
  - destruct (enabled (wk s)); [|done]. cbn [wk].
    apply setAccessList_consistent; [|done]. right. by apply (Hkm rid nodes).
Qed.

Lemma run_consistent (X : Externals) (trace : list (World * Event)) :
  forall s, kmNodesWithin P trace ->
            watchersConsistent P (wk s) -> watchersConsistent P (wk (run X s trace)).
Proof.
  induction trace as [|[wd ev] trace IH]; intros s Hkm Hs; [done|].
  apply IH.
  - intros we r nodes Hin. apply Hkm. by apply list_elem_of_further.
  - cbn [fst snd]. apply step_consistent; [|done]. intros r nodes ->.
    apply (Hkm (wd, EvKmNodes r nodes) r nodes); [apply list_elem_of_here|done].
Qed.

Lemma init_consistent (rid nid : N) (private : gset string) (gen : bool) :
  watchersConsistent P (wk (initState rid nid private gen)).
Proof.
  split; [done|]. split; [done|]. intros r [x Hx]. cbn in Hx.
  by rewrite lookup_empty in Hx.
Qed.

End WatcherBookkeeping.

(** X8.  In every state the worker can reach, the [computeRuntimeCount]
    metric equals the number of client runtime watchers and every watcher
    is stored under the runtime it watches.  When the key manager node
    watcher installs nodes for the worker's own runtime only, every
    runtime in a peer's access-list entry has a client runtime watcher or
    is the worker's own runtime: no peer is authorised on behalf of any
    other runtime. *)
Theorem watchers_account_for_access
    (X : Externals) (rid nid : N) (private : gset string) (gen : bool)
    (trace : list (World * Event)) :
  let w := wk (run X (initState rid nid private gen) trace) in
  computeRuntimeCount w = Z.of_nat (size (clientRuntimes w)) /\
  (forall (r : N) (crw : clientRuntimeWatcher),
      clientRuntimes w !! r = Some crw -> crw_runtimeID crw = r) /\
  (kmNodesWithin (fun r => r = rid) trace ->
   forall (p : string) (rs : gset N) (r : N),
     accessList w !! p = Some rs -> r ∈ rs ->
     is_Some (clientRuntimes w !! r) \/ r = rid).
Proof.
  cbn zeta.
  destruct (run_consistent (fun _ => True) X trace (initState rid nid private gen))
    as (Hc & Hid & _); [by intros we r nodes _ _|apply init_consistent|].
  split; [exact Hc|]. split; [exact Hid|]. intros Hkm p rs r Hp Hr.
  destruct (run_consistent (fun r => r = rid) X trace (initState rid nid private gen) Hkm)
    as (_ & _ & Hrow); [apply init_consistent|].
  destruct (run_pairwise X rid nid private gen trace) as [Hpair _].
  apply Hrow.
  assert (Hin : p ∈ peersOf (accessListByRuntime
                  (wk (run X (initState rid nid private gen) trace))) r).
  { apply Hpair. by exists rs. }
  unfold peersOf in Hin.
  destruct (accessListByRuntime _ !! r); [by eexists|].
  by apply elem_of_nil in Hin.
Qed.

Lemma watchers_account_for_access_witness :
  let w := wk (run toyExternals (initState 7 9 {[ "P0" ]} true)
                 [(toyNow, EvKmNodes 7 [toyNode])]) in
  is_Some (accessList w !! "A") /\
  forall (rs : gset N) (r : N),
    accessList w !! "A" = Some rs -> r ∈ rs ->
    is_Some (clientRuntimes w !! r) \/ r = 7%N.
Proof.
  cbn zeta. split; [vm_compute; by eexists|].
  destruct (watchers_account_for_access toyExternals 7 9 {[ "P0" ]} true
              [(toyNow, EvKmNodes 7 [toyNode])]) as (_ & _ & H).
  intros rs r. apply (H ltac:(intros we r0 nodes Hin Heq;
                               apply list_elem_of_singleton in Hin as ->;
                               by injection Heq as -> _) "A").
Defined.

(** ** Which runtimes get a watcher *)

Lemma startClientRuntimeWatcher_config (X : Externals) (wd : World) (w : Worker)
    (rt : Runtime) (status : option Status) :
  runtimeID (startClientRuntimeWatcher X wd w rt status).1 = runtimeID w.
Proof.
  destruct (startClientRuntimeWatcher_cases X wd w rt status) as [[_ ->]|[_ ->]]; [|done].
  destruct (NewVersionedNodeDescriptorWatcher wd); [done|]. cbn.
  unfold epochTransition. by destruct (GetCommittees wd _).
Qed.

Lemma startClientRuntimeWatcher_watched (X : Externals) (wd : World) (w : Worker)
    (rt : Runtime) (status : Status) (r : N) :
  NewVersionedNodeDescriptorWatcher wd = None ->
  IsInitialized status = true ->
  is_Some (clientRuntimes (startClientRuntimeWatcher X wd w rt (Some status)).1 !! r) <->
  is_Some (clientRuntimes w !! r) \/
  (rt_ID rt = r /\ managedBy rt (runtimeID w) = true /\ foundInPolicy status r = true).
Proof.
  intros Hnew Hinit. unfold startClientRuntimeWatcher. rewrite Hinit, Hnew. cbn [negb].
  destruct (managedBy rt (runtimeID w)) eqn:Hm; cbn [negb fst].
  2:{ split; [by left|]. intros [H|(_ & ? & _)]; [done|congruence]. }
  destruct (bool_decide (is_Some (clientRuntimes w !! rt_ID rt))) eqn:Hw.
  { apply bool_decide_eq_true in Hw. cbn [fst]. split; [by left|].
    intros [H|(<- & _)]; done. }
  destruct (foundInPolicy status (rt_ID rt)) eqn:Hf; cbn [negb fst].
  2:{ split; [by left|]. intros [H|(<- & _ & ?)]; [done|congruence]. }
  cbn [clientRuntimes with_watchers emit with_effects].
  destruct (epochTransition_count X wd w
              {| crw_runtimeID := rt_ID rt; crw_watched := [] |}) as (_ & -> & _).
  destruct (decide (r = rt_ID rt)) as [->|Hne].
  - rewrite lookup_insert_eq. split; [by right|]. by eexists.
  - rewrite lookup_insert_ne by done. split; [by left|].
    intros [H|(<- & _)]; done.
Qed.

(** X9.  When the registry answers and node descriptor watchers can be
    created, [recheckAllRuntimes] with an initialized status leaves a
    watcher for exactly the runtimes that had one before and the listed
    compute runtimes that name this key manager and pass the policy
    check; it reports no error. *)
Theorem recheckAllRuntimes_watches
    (X : Externals) (wd : World) (w : Worker) (status : Status)
    (rts : list Runtime) :
  GetRuntimes wd = Ok rts ->
  NewVersionedNodeDescriptorWatcher wd = None ->
  IsInitialized status = true ->
  (recheckAllRuntimes X wd w (Some status)).2 = None /\
  forall r : N,
    is_Some (clientRuntimes (recheckAllRuntimes X wd w (Some status)).1 !! r) <->
    is_Some (clientRuntimes w !! r) \/
    exists rt, rt ∈ rts /\ rt_ID rt = r /\ managedBy rt (runtimeID w) = true /\
               foundInPolicy status r = true.
Proof.
  intros Hrts Hnew Hinit. unfold recheckAllRuntimes. rewrite Hrts. split; [done|].
  cbn [fst]. clear Hrts. revert w.
  induction rts as [|rt rts IH]; intros w r; cbn [foldl].
  - split; [by left|]. intros [H|(rt & Hin & _)]; [done|].
    by apply elem_of_nil in Hin.
  - rewrite IH, startClientRuntimeWatcher_config.
    rewrite (startClientRuntimeWatcher_watched X wd w rt status r Hnew Hinit).
    split.
    + intros [[H|H]|(rt' & Hin & H)]; [by left| |].
      * right. exists rt. split; [apply list_elem_of_here|done].
      * right. exists rt'. split; [by apply list_elem_of_further|done].
    + intros [H|(rt' & Hin & H)]; [by left; left|].
      apply elem_of_cons in Hin as [->|Hin]; [by left; right|].
      right. by exists rt'.
Qed.

Lemma recheckAllRuntimes_watches_witness :
  let r := recheckAllRuntimes toyExternals (toyRegistry [toyForeignRuntime; toyRuntime])
             toyWorker (Some toyStatus) in
  is_Some (clientRuntimes r.1 !! 187%N) /\ ~ is_Some (clientRuntimes r.1 !! 188%N).
Proof.
  cbn zeta.
  destruct (recheckAllRuntimes_watches toyExternals
              (toyRegistry [toyForeignRuntime; toyRuntime]) toyWorker toyStatus
              [toyForeignRuntime; toyRuntime] eq_refl eq_refl eq_refl) as [_ H].
  split.
  - apply H. right. exists toyRuntime. split; [|done].
    apply list_elem_of_further, list_elem_of_here.
  - rewrite H. intros [[x Hx]|(rt & Hin & Hid & Hm & _)].
    + vm_compute in Hx. discriminate Hx.
    + apply elem_of_cons in Hin as [->|Hin]; [discriminate Hm|].
      apply elem_of_cons in Hin as [->|Hin]; [discriminate Hid|].
      by apply elem_of_nil in Hin.
Defined.

(** ** Ephemeral secret generation *)

Lemma fetchREKs_keys (X : Externals) (wd : World) (kmID : N) (hw : TEEHardware)
    (ids : list N) :
  forall reks0 reks : gset N,
    fetchREKs X wd kmID hw ids reks0 = Ok reks ->
    forall k, k ∈ reks <-> k ∈ reks0 \/ exists id, id ∈ ids /\ contributes X wd kmID hw id k.
Proof.
  induction ids as [|id ids IH]; intros reks0 reks Hf k.
  - cbn in Hf. injection Hf as <-. split; [by left|].
    intros [H|(id & Hin & _)]; [done|by apply elem_of_nil in Hin].
  - cbn [fetchREKs] in Hf.
    assert (Hskip : (forall k', ~ contributes X wd kmID hw id k') ->
                    fetchREKs X wd kmID hw ids reks0 = Ok reks ->
                    k ∈ reks <-> k ∈ reks0 \/
                      exists id', id' ∈ id :: ids /\ contributes X wd kmID hw id' k).
    { intros Hno Hrest. rewrite (IH _ _ Hrest k). split.
      - intros [H|(id' & Hin & Hc)]; [by left|]. right. exists id'.
        split; [by apply list_elem_of_further|done].
      - intros [H|(id' & Hin & Hc)]; [by left|].
        apply elem_of_cons in Hin as [->|Hin]; [by destruct (Hno k)|].
        right. by exists id'. }
    assert (Hadd : forall k0, (forall k', contributes X wd kmID hw id k' <-> k' = k0) ->
                    fetchREKs X wd kmID hw ids ({[ k0 ]} ∪ reks0) = Ok reks ->
                    k ∈ reks <-> k ∈ reks0 \/
                      exists id', id' ∈ id :: ids /\ contributes X wd kmID hw id' k).
    { intros k0 Hk0 Hrest. rewrite (IH _ _ Hrest k), elem_of_union, elem_of_singleton.
      split.
      - intros [[->|H]|(id' & Hin & Hc)]; [|by left|].
        + right. exists id. split; [apply list_elem_of_here|by apply Hk0].
        + right. exists id'. split; [by apply list_elem_of_further|done].
      - intros [H|(id' & Hin & Hc)]; [by left; right|].
        apply elem_of_cons in Hin as [->|Hin]; [left; left; by apply Hk0|].
        right. by exists id'. }
    destruct (GetNode wd id) as [n| |err] eqn:Hn; [| |done].
    2:{ apply Hskip; [|done]. intros k' (n & nRt & Hn' & _). congruence. }
    destruct (find _ (node_Runtimes n)) as [nRt|] eqn:Hfind.
    2:{ apply Hskip; [|done]. intros k' (n' & nRt & Hn' & Hf' & _). congruence. }
    destruct hw as [| |other].
    + apply (Hadd (InsecureREK X)); [|done]. intros k'. split.
      * intros (n' & nRt' & _ & _ & [[_ ->]|[? _]]); done.
      * intros ->. exists n, nRt. repeat split; [done..|]. by left.
    + destruct (nrt_TEE nRt) as [[hw' rak [rek|]]|] eqn:Htee.
      * apply (Hadd rek); [|done]. intros k'. split.
        -- intros (n' & nRt' & Hn' & Hf' & [[? _]|[_ (tee & Ht & Hr)]]); [done|].
           assert (n' = n) as -> by congruence.
           assert (nRt' = nRt) as -> by congruence.
           rewrite Htee in Ht. injection Ht as <-. cbn in Hr. congruence.
        -- intros ->. exists n, nRt. repeat split; [done..|]. right.
           split; [done|]. by eexists.
      * apply Hskip; [|done].
        intros k' (n' & nRt' & Hn' & Hf' & [[? _]|[_ (tee & Ht & Hr)]]); [done|].
        assert (n' = n) as -> by congruence.
        assert (nRt' = nRt) as -> by congruence.
        rewrite Htee in Ht. injection Ht as <-. done.
      * apply Hskip; [|done].
        intros k' (n' & nRt' & Hn' & Hf' & [[? _]|[_ (tee & Ht & Hr)]]); [done|].
        assert (n' = n) as -> by congruence.
        assert (nRt' = nRt) as -> by congruence. congruence.
    + apply Hskip; [|done].
      intros k' (n' & nRt' & _ & _ & [[? _]|[? _]]); done.
Qed.

(** X10.  The REK set that [generateEphemeralSecret] verifies a secret
    against holds exactly the keys contributed by the committee nodes the
    registry knows and that run the key manager runtime (the insecure REK
    without TEE hardware, the node's own REK under SGX); the collection
    fails exactly when the registry fails for some committee node with an
    error other than "no such node". *)
Theorem fetchREKs_collects_registered_keys
    (X : Externals) (wd : World) (kmID : N) (hw : TEEHardware) (ids : list N) :
  (forall reks : gset N,
      fetchREKs X wd kmID hw ids ∅ = Ok reks ->
      forall k, k ∈ reks <-> exists id, id ∈ ids /\ contributes X wd kmID hw id k) /\
  ((exists reks, fetchREKs X wd kmID hw ids ∅ = Ok reks) <->
   forall id err, id ∈ ids -> GetNode wd id <> Failed err).
Proof.
  split.
  - intros reks Hf k. rewrite (fetchREKs_keys X wd kmID hw ids ∅ reks Hf k).
    split; [intros [H|H]; [set_solver|done]|by right].
  - generalize (∅ : gset N).
    induction ids as [|id ids IH]; intros reks0.
    + split; [intros _ id err Hin; by apply elem_of_nil in Hin|]. intros _. by eexists.
    + cbn [fetchREKs].
      assert (Hcont : forall reks1,
                 (forall err, GetNode wd id <> Failed err) ->
                 (exists reks, fetchREKs X wd kmID hw ids reks1 = Ok reks) <->
                 forall id' err, id' ∈ id :: ids -> GetNode wd id' <> Failed err).
      { intros reks1 Hok. rewrite IH. split.
        - intros H id' err Hin. apply elem_of_cons in Hin as [->|Hin]; [apply Hok|by apply H].
        - intros H id' err Hin. apply H. by apply list_elem_of_further. }
      destruct (GetNode wd id) as [n| |err] eqn:Hn.
      * destruct (find _ (node_Runtimes n)) as [nRt|]; [|by apply Hcont].
        destruct hw as [| |other]; [by apply Hcont| |by apply Hcont].
        destruct (nrt_TEE nRt) as [[hw' rak [rek|]]|]; by apply Hcont.
      * by apply Hcont.
      * split; [by intros [reks H]|]. intros H. exfalso.
        apply (H id err); [apply list_elem_of_here|done].
Qed.

Lemma Act_bind_inv {A B : Type} (k : A -> Act B) (m : Act A)
    (es : list Effect) (r : result B) :
  m ≫= k = (es, r) ->
  (exists e, m.2 = Err e /\ es = m.1 /\ r = Err e) \/
  (exists a es', m.2 = Ok a /\ k a = (es', r) /\ es = m.1 ++ es').
Proof.
  unfold mbind, Act_bind, bind. destruct m as [es0 [a|e]]; cbn [fst snd].
  - intros [= <- <-]. right. exists a, (k a).1. by destruct (k a).
  - intros [= <- <-]. left. by exists e.
Qed.

Lemma generateAndPublish_cases (X : Externals) (wd : World) (w : Worker)
    (epoch : Z) (kmStatus : Status) (rs : runtimeStatus) :
  let out := generateAndPublish X wd w epoch kmStatus rs in
  let call := LocalCall RPCMethodGenerateEphemeralSecret (ArgsGenerate epoch) in
  (out.1 = [] /\ (nodeID w ∉ Nodes kmStatus) /\ exists e, out.2 = Err e) \/
  (out.1 = [call] /\ (nodeID w ∈ Nodes kmStatus) /\ exists e, out.2 = Err e) \/
  (exists tx kmRt rak reks,
      out.1 = [call; SubmitTx tx] /\
      nodeID w ∈ Nodes kmStatus /\
      localCallEnclave X wd (UnmarshalGenerateResponse X)
        RPCMethodGenerateEphemeralSecret (ArgsGenerate epoch) = Ok tx /\
      GetRuntime wd (st_ID kmStatus) = Ok kmRt /\
      fetchRAK X kmRt rs = Ok rak /\
      fetchREKs X wd (st_ID kmStatus) (rt_TEEHardware kmRt) (Nodes kmStatus) ∅ = Ok reks /\
      VerifySecret X tx epoch reks rak = true /\
      out.2 = match SignAndSubmitTx wd tx with
              | Some e => Err e
              | None => Ok tt
              end).
Proof.
  cbn zeta.
  destruct (generateAndPublish X wd w epoch kmStatus rs) as [es r] eqn:H.
  unfold generateAndPublish in H. cbn [fst snd].
  apply Act_bind_inv in H as [(e & Hm & -> & ->)|([] & es1 & Hm & H & ->)].
  { left. destruct (bool_decide (nodeID w ∈ Nodes kmStatus)) eqn:Hin; [done|].
    apply bool_decide_eq_false in Hin. repeat split; [done|]. by eexists. }
  destruct (bool_decide (nodeID w ∈ Nodes kmStatus)) eqn:Hin; [|discriminate Hm].
  apply bool_decide_eq_true in Hin. clear Hm. cbn [ret fst app]. right.
  apply Act_bind_inv in H as [(e & Hm & _)|([] & es2 & _ & H & ->)]; [done|].
  cbn [tell fst app].
  apply Act_bind_inv in H as [(e & Hm & -> & ->)|(tx & es3 & Hcall & H & ->)].
  { left. repeat split; [done|]. by eexists. }
  cbn [lift fst snd app] in *.
  assert (Hcall' : localCallEnclave X wd (UnmarshalGenerateResponse X)
                     RPCMethodGenerateEphemeralSecret (ArgsGenerate epoch) = Ok tx)
    by (by destruct (localCallEnclave X wd _ _ _)).
  clear Hcall.
  apply Act_bind_inv in H as [(e & Hm & -> & ->)|(kmRt & es4 & Hrt & H & ->)].
  { left. repeat split; [done|]. by eexists. }
  cbn [lift fst snd app] in *.
  apply Act_bind_inv in H as [(e & Hm & -> & ->)|(rak & es5 & Hrak & H & ->)].
  { left. repeat split; [done|]. by eexists. }
  cbn [lift fst snd app] in *.
  apply Act_bind_inv in H as [(e & Hm & -> & ->)|(reks & es6 & Hreks & H & ->)].
  { left. repeat split; [done|]. by eexists. }
  cbn [lift fst snd app] in *.
  apply Act_bind_inv in H as [(e & Hm & -> & ->)|([] & es7 & Hv & H & ->)].
  { left. destruct (VerifySecret X tx epoch reks rak); [done|].
    repeat split; [done|]. by eexists. }
  assert (Hv' : VerifySecret X tx epoch reks rak = true)
    by (by destruct (VerifySecret X tx epoch reks rak)).
  rewrite Hv' in *. cbn [ret fst snd app] in *. clear Hv.
  apply Act_bind_inv in H as [(e & Hm & _)|([] & es8 & _ & H & ->)]; [done|].
  cbn [tell fst app].
  right. exists tx, kmRt, rak, reks.
  destruct (SignAndSubmitTx wd tx); injection H as <- <-; done.
Qed.

(** X11.  [generateEphemeralSecret] submits a transaction only for the
    secret the enclave returned, and only after consensus had no secret
    for the epoch, the node was found in the key manager committee, and
    the secret verified against the RAK and the REKs fetched for the
    committee.  The generate call and the submission are then its only
    outward actions, and its result is that of the submission. *)
Theorem generateEphemeralSecret_submits_verified
    (X : Externals) (wd : World) (w : Worker) (rid : N) (epoch : Z)
    (kmStatus : Status) (rs : runtimeStatus) (tx : SignedEncryptedEphemeralSecret) :
  let out := generateEphemeralSecret X wd w rid epoch kmStatus rs in
  SubmitTx tx ∈ out.1 ->
  GetEphemeralSecret wd rid epoch = NoSuch /\
  nodeID w ∈ Nodes kmStatus /\
  localCallEnclave X wd (UnmarshalGenerateResponse X)
    RPCMethodGenerateEphemeralSecret (ArgsGenerate epoch) = Ok tx /\
  (exists kmRt rak reks,
      GetRuntime wd (st_ID kmStatus) = Ok kmRt /\
      fetchRAK X kmRt rs = Ok rak /\
      fetchREKs X wd (st_ID kmStatus) (rt_TEEHardware kmRt) (Nodes kmStatus) ∅ = Ok reks /\
      VerifySecret X tx epoch reks rak = true) /\
  out.1 = [LocalCall RPCMethodGenerateEphemeralSecret (ArgsGenerate epoch); SubmitTx tx] /\
  out.2 = match SignAndSubmitTx wd tx with
          | Some e => Err e
          | None => Ok tt
          end.
Proof.
  cbn zeta. unfold generateEphemeralSecret.
  destruct (GetEphemeralSecret wd rid epoch) as [sec| |e].
  - intros H. by apply elem_of_nil in H.
  - destruct (generateAndPublish_cases X wd w epoch kmStatus rs)
      as [(-> & _)|[(-> & _)|(tx' & kmRt & rak & reks & -> & Hin & Hcall & Hrt & Hrak & Hreks & Hv & Hout)]].
    + intros H. by apply elem_of_nil in H.
    + intros H. apply list_elem_of_singleton in H. discriminate H.
    + intros H. apply elem_of_cons in H as [H|H]; [discriminate H|].
      apply list_elem_of_singleton in H. injection H as ->.
      repeat split; try done. by exists kmRt, rak, reks.
  - intros H. by apply elem_of_nil in H.
Qed.

Lemma generateEphemeralSecret_submits_verified_witness :
  VerifySecret toyExternals (toySecret 7 0) 101 ∅ 1%N = true /\
  (generateEphemeralSecret toyExternals (toyWorld 100 1 0 Byte.x01 None) toyWorker 7 101
     toyStatus toyRuntimeStatus).2 = Ok tt.
Proof.
  destruct (generateEphemeralSecret_submits_verified toyExternals
              (toyWorld 100 1 0 Byte.x01 None) toyWorker 7 101 toyStatus toyRuntimeStatus
              (toySecret 7 0))
    as (_ & _ & _ & _ & _ & Hout).
  - vm_compute. apply list_elem_of_further, list_elem_of_here.
  - split; [reflexivity|]. rewrite Hout. reflexivity.
Defined.

(** X12.  [generateEphemeralSecret] reports success in two cases only:
    consensus already holds a secret for the epoch, and then nothing is
    called or submitted; or the secret generated by the enclave was
    verified and its transaction was accepted. *)
Theorem generateEphemeralSecret_success
    (X : Externals) (wd : World) (w : Worker) (rid : N) (epoch : Z)
    (kmStatus : Status) (rs : runtimeStatus) :
  let out := generateEphemeralSecret X wd w rid epoch kmStatus rs in
  out.2 = Ok tt <->
  (exists sec, GetEphemeralSecret wd rid epoch = Found sec /\ out.1 = []) \/
  (exists tx, GetEphemeralSecret wd rid epoch = NoSuch /\
              SubmitTx tx ∈ out.1 /\ SignAndSubmitTx wd tx = None).
Proof.
  cbn zeta. unfold generateEphemeralSecret.
  destruct (GetEphemeralSecret wd rid epoch) as [sec| |e].
  - split; [|done]. intros _. left. by exists sec.
  - destruct (generateAndPublish_cases X wd w epoch kmStatus rs)
      as [(-> & _ & e & ->)|[(-> & _ & e & ->)|(tx & kmRt & rak & reks & -> & _ & _ & _ & _ & _ & _ & ->)]].
    + split; [done|]. intros [(? & ? & _)|(tx & _ & H & _)]; [done|].
      by apply elem_of_nil in H.
    + split; [done|]. intros [(? & ? & _)|(tx & _ & H & _)]; [done|].
      apply list_elem_of_singleton in H. discriminate H.
    + split.
      * intros H. right. exists tx. split; [done|].
        split; [apply list_elem_of_further, list_elem_of_here|].
        by destruct (SignAndSubmitTx wd tx).
      * intros [(? & ? & _)|(tx' & _ & H & Hs)]; [done|].
        apply elem_of_cons in H as [H|H]; [discriminate H|].
        apply list_elem_of_singleton in H. injection H as ->. by rewrite Hs.
  - split; [done|]. intros [(? & ? & _)|(? & ? & _)]; done.
Qed.

(** ** The warm-up fetch and the generation height *)

Lemma fetchSecretsFrom_window (wd : World) (rid : N) (n : nat) :
  forall (e : Z) (acc : list SignedEncryptedEphemeralSecret),
    0 <= e ->
    (forall e' err, e' ∈ epochsDown e (n `min` Z.to_nat e) ->
                    GetEphemeralSecret wd rid e' <> Failed err) ->
    fetchSecretsFrom wd rid n e acc
    = Ok (acc ++ omap (publishedAt wd rid) (epochsDown e (n `min` Z.to_nat e))).
Proof.
  induction n as [|n IH]; intros e acc He Hok.
  - cbn. by rewrite app_nil_r.
  - rewrite fetchSecretsFrom_S. destruct (0 <? e) eqn:Hpos.
    + apply Z.ltb_lt in Hpos.
      assert (Hmin : (S n `min` Z.to_nat e = S (n `min` Z.to_nat (e - 1)))%nat) by lia.
      rewrite Hmin in *. rewrite epochsDown_S in *.
      assert (Hrest : forall e' err, e' ∈ epochsDown (e - 1) (n `min` Z.to_nat (e - 1)) ->
                                     GetEphemeralSecret wd rid e' <> Failed err).
      { intros e' err Hin. apply Hok. by apply list_elem_of_further. }
      cbn [omap list_omap]. unfold publishedAt at 1.
      destruct (GetEphemeralSecret wd rid e) as [sec| |err] eqn:Hq.
      * rewrite IH by (done || lia). by rewrite <- app_assoc.
      * by rewrite IH by (done || lia).
      * exfalso. apply (Hok e err); [apply list_elem_of_here|done].
    + apply Z.ltb_ge in Hpos. assert (e = 0) as -> by lia.
      rewrite Nat.min_0_r. cbn. by rewrite app_nil_r.
Qed.

Lemma fetchSecretsFrom_failure (wd : World) (rid : N) (n : nat) :
  forall (e : Z) (acc : list SignedEncryptedEphemeralSecret) (e' : Z) (err : error),
    0 <= e ->
    e' ∈ epochsDown e (n `min` Z.to_nat e) ->
    GetEphemeralSecret wd rid e' = Failed err ->
    exists err', fetchSecretsFrom wd rid n e acc = Err err'.
Proof.
  induction n as [|n IH]; intros e acc e' err He Hin Hfail.
  - cbn in Hin. by apply elem_of_nil in Hin.
  - rewrite fetchSecretsFrom_S. destruct (0 <? e) eqn:Hpos.
    + apply Z.ltb_lt in Hpos.
      assert (Hmin : (S n `min` Z.to_nat e = S (n `min` Z.to_nat (e - 1)))%nat) by lia.
      rewrite Hmin, epochsDown_S in Hin.
      apply elem_of_cons in Hin as [->|Hin].
      * rewrite Hfail. by eexists.
      * destruct (GetEphemeralSecret wd rid e) as [sec| |err0]; [| |by eexists].
        -- apply (IH (e - 1) _ e' err); (done || lia).
        -- apply (IH (e - 1) _ e' err); (done || lia).
    + apply Z.ltb_ge in Hpos. assert (e = 0) as -> by lia.
      rewrite Nat.min_0_r in Hin. cbn in Hin. by apply elem_of_nil in Hin.
Qed.

(** X13.  At consensus epoch [E], [fetchLastEphemeralSecrets] queries the
    epochs [E+1] downwards, at most twenty of them and never epoch zero.
    When no query in that window fails with an error other than "no such
    secret", it returns the secrets found, newest first, skipping the
    epochs without one; when some query in the window fails, it returns
    an error; when [E] is the largest epoch the increment wraps to zero
    and nothing is fetched. *)
Theorem fetchLastEphemeralSecrets_window
    (wd : World) (rid : N) (E : Z) :
  GetEpoch wd = Ok E ->
  0 <= E < 2 ^ 64 ->
  let window := if E =? 2 ^ 64 - 1 then []
                else epochsDown (E + 1) (20 `min` Z.to_nat (E + 1)) in
  (forall e, e ∈ window -> 1 <= e <= E + 1 /\ E - 19 < e) /\
  ((forall e err, e ∈ window -> GetEphemeralSecret wd rid e <> Failed err) ->
   fetchLastEphemeralSecrets wd rid = Ok (omap (publishedAt wd rid) window)) /\
  (forall e err, e ∈ window -> GetEphemeralSecret wd rid e = Failed err ->
                 exists err', fetchLastEphemeralSecrets wd rid = Err err').
Proof.
  intros Hepoch HE. cbn zeta. unfold fetchLastEphemeralSecrets. rewrite Hepoch.
  change (Z.to_nat ephemeralSecretCacheSize) with 20%nat.
  destruct (E =? 2 ^ 64 - 1) eqn:Hmax.
  - apply Z.eqb_eq in Hmax. subst E.
    split; [by intros e ?%elem_of_nil|]. split; [|by intros e err ?%elem_of_nil].
    intros _. vm_compute. reflexivity.
  - apply Z.eqb_neq in Hmax. rewrite wrapU64_small by lia.
    split; [|split].
    + intros e Hin. apply epochsDown_range in Hin. lia.
    + intros Hok. by rewrite fetchSecretsFrom_window by (done || lia).
    + intros e err Hin Hfail.
      apply (fetchSecretsFrom_failure wd rid 20 (E + 1) [] e err); (done || lia).
Qed.

Lemma fetchLastEphemeralSecrets_window_witness :
  fetchLastEphemeralSecrets (toyWorld 3 2 3 Byte.x01 None) 7
  = Ok [toySecret 7 3; toySecret 7 2].
Proof.
  destruct (fetchLastEphemeralSecrets_window (toyWorld 3 2 3 Byte.x01 None) 7 3)
    as (_ & Hok & _); [reflexivity|lia|].
  rewrite Hok; [reflexivity|].
  intros e err _. cbn. by destruct (_ && _).
Defined.

(** X14.  [randomBlockHeight] returns a height inside the leading
    [percentile] percent of the epoch: at least the epoch's first block
    and, when the random source obeys the contract of [rand.Int63n],
    less than the first block plus the scaled interval (plus one when the
    scaled interval is not positive).  The bounds on the interval and on
    the first block rule out [int64] overflow. *)
Theorem randomBlockHeight_in_percentile
    (wd : World) (epoch percentile interval first : Z) :
  ConsensusParametersInterval wd = Ok interval ->
  GetEpochBlock wd epoch = Ok first ->
  (forall n, 0 < n -> 0 <= Int63n wd n < n) ->
  0 <= percentile <= 100 ->
  0 <= interval < 2 ^ 56 ->
  0 <= first < 2 ^ 62 ->
  exists h, randomBlockHeight wd epoch percentile = Ok h /\
            first <= h < first + Z.max 1 (interval * percentile / 100) /\
            h <= first + interval.
Proof.
  intros Hi Hf Hrand Hp Hint Hfirst. unfold randomBlockHeight. rewrite Hi, Hf.
  eexists. split; [reflexivity|].
  assert (Hscaled : (if percentile <? 100 then Z.quot (wrap64 (interval * percentile)) 100
                     else interval) = interval * percentile / 100).
  { destruct (percentile <? 100) eqn:Hlt.
    - apply Z.ltb_lt in Hlt. rewrite wrap64_small by nia.
      apply Z.quot_div_nonneg; nia.
    - apply Z.ltb_ge in Hlt. assert (percentile = 100) as -> by lia.
      by rewrite Z.div_mul. }
  rewrite Hscaled.
  assert (Hle : 0 <= interval * percentile / 100 <= interval).
  { split; [apply Z.div_pos; nia|]. apply Z.div_le_upper_bound; nia. }
  set (scaled := interval * percentile / 100) in *.
  assert (Hpick : (if scaled <=? 0 then 1 else scaled) = Z.max 1 scaled).
  { destruct (scaled <=? 0) eqn:H0; [apply Z.leb_le in H0|apply Z.leb_gt in H0]; lia. }
  rewrite Hpick.
  specialize (Hrand (Z.max 1 scaled) ltac:(lia)).
  rewrite wrap64_small by lia. lia.
Qed.

Lemma randomBlockHeight_in_percentile_witness :
  exists h, randomBlockHeight (toyWorld 100 1 0 Byte.x01 None) 100 90 = Ok h /\
            60000 <= h < 60000 + Z.max 1 (600 * 90 / 100) /\ h <= 60000 + 600.
Proof.
  apply (randomBlockHeight_in_percentile (toyWorld 100 1 0 Byte.x01 None) 100 90 600 60000).
  - reflexivity.
  - reflexivity.
  - intros n Hn. cbn [Int63n toyWorld]. split; [apply Z.div_pos; lia|].
    apply Z.div_lt_upper_bound; lia.
  - lia.
  - lia.
  - lia.
Defined.

(** ** The generation task along runs of the worker *)

Lemma flightKept_refl (l : Loop) : flightKept l l.
Proof. by unfold flightKept. Qed.

Lemma flightKept_single (l l' : Loop) :
  flightKept l l' -> singleFlight l -> singleFlight l'.
Proof. unfold flightKept, singleFlight. intros (-> & -> & ->). done. Qed.

Lemma provision_flight (wd : World) (s : State) :
  flightKept (lp s) (lp (provision wd s).1).
Proof.
  unfold provision, flightKept.
  destruct (ProvisionHostedRuntime wd); [done|].
  destruct (WatchEvents wd); [done|].
  by destruct (hrtStart wd), (hrtNotifierStart wd), (SetHostedRuntimeVersion wd).
Qed.

Lemma onStatus_flight (X : Externals) (wd : World) (s : State) (status : Status) :
  flightKept (lp s) (lp (onStatus X wd s status)).
Proof.
  unfold onStatus.
  destruct (negb _); [apply flightKept_refl|].
  set (s0 := {| wk := setStatus (wk s) status; lp := lp s |}).
  assert (Hup : flightKept (lp s)
                  (lp (if hostedRuntime (wk s0) then (s0, true) else provision wd s0).1)).
  { destruct (hostedRuntime (wk s0)); [apply flightKept_refl|apply (provision_flight wd s0)]. }
  destruct (if hostedRuntime (wk s0) then (s0, true) else provision wd s0) as [s' ok].
  unfold flightKept in *. cbn in *.
  destruct ok; cbn; [|exact Hup].
  by destruct (currentRuntimeStatus (lp s')).
Qed.

Lemma onHost_flight (X : Externals) (wd : World) (s : State) (ev : HostEvent) :
  flightKept (lp s) (lp (onHost X wd s ev)).
Proof.
  unfold flightKept.
  destruct ev; cbn [onHost]; try done;
    unfold onHostStarted; cbn [currentStatus with_load with_host];
    by destruct (currentStatus (lp s)).
Qed.

Lemma onBlock_flight (s : State) (blk : option Z) :
  flightKept (lp s) (lp (onBlock s blk)).
Proof.
  unfold onBlock, flightKept. destruct blk as [h|]; [|done]. cbn [lp].
  destruct (genSecretHeight (lp s) <=? h);
    by destruct (0 <? Z.of_nat (length (secrets _))).
Qed.

Lemma runGenTask_flight (X : Externals) (wd : World) (s : State) (t : GenTask) :
  genTask (lp (runGenTask X wd s t)) = None /\
  is_Some (genSecretDoneCh (lp (runGenTask X wd s t))) /\
  genSecretInProgress (lp (runGenTask X wd s t)) = genSecretInProgress (lp s).
Proof.
  unfold runGenTask.
  by destruct (generateEphemeralSecret _ _ _ _ _ _ _).2.
Qed.

Lemma onStop_flight (X : Externals) (wd : World) (s : State) :
  singleFlight (lp s) -> singleFlight (lp (onStop X wd s)).
Proof.
  intros [H1 H2]. unfold onStop.
  assert (Hdrain : forall l e ch h p r,
             singleFlight (stopped (with_gen l e ch None h p r None))).
  { intros. unfold singleFlight. cbn. split; intros [x Hx]; discriminate Hx. }
  destruct (genSecretInProgress (lp s)) eqn:Hin.
  2:{ rewrite Hin. unfold singleFlight. cbn. by rewrite Hin. }
  destruct (genSecretDoneCh (lp s)) as [ok|] eqn:Hdone.
  - rewrite Hin. cbn [lp]. destruct H2 as [_ Ht]; [by eexists|].
    rewrite Ht. apply Hdrain.
  - destruct (genTask (lp s)) as [t|] eqn:Ht.
    + destruct (runGenTask_flight X wd s t) as (Hnone & _ & Hp).
      rewrite Hin in Hp. rewrite Hp. cbn [lp]. rewrite Hnone. apply Hdrain.
    + rewrite Hin. cbn [lp]. rewrite Ht. apply Hdrain.
Qed.

(** Every step of the system keeps at most one generation task out. *)
Lemma step_singleFlight (X : Externals) (wd : World) (s : State) (ev : Event) :
  singleFlight (lp s) -> singleFlight (lp (step X wd s ev)).
Proof.
  intros Hs. pose proof Hs as [H1 H2]. destruct ev; unfold step.
  all: try (destruct (running (lp s)); cbn [negb]; [|done]).
  - destruct (hrtEventCh (lp s)); [|done].
    eapply flightKept_single; [apply onHost_flight|done].
  - eapply flightKept_single; [apply onStatus_flight|done].
  - destruct (initTicker (wk s)); [|done]. unfold onInitTick.
    by destruct (currentStatus (lp s)), (currentRuntimeStatus (lp s)).
  - done.
  - eapply flightKept_single; [|exact Hs]. by unfold flightKept.
  - eapply flightKept_single; [apply onBlock_flight|done].
  - unfold onSecret. destruct (negb _); [done|].
    eapply flightKept_single; [|exact Hs]. unfold flightKept. cbn [lp].
    by destruct (sec_Epoch (Secret s0) =? wrapU64 (epoch (lp s) + 1)).
  - destruct (genSecretCh (lp s)); [|done].
    unfold onGenSecret. cbn [currentStatus currentRuntimeStatus with_gen
      genSecretInProgress genSecretHeight].
    destruct (currentStatus (lp s)) as [st|];
      [|eapply flightKept_single; [|exact Hs]; by unfold flightKept].
    destruct (currentRuntimeStatus (lp s)) as [rs|];
      [|eapply flightKept_single; [|exact Hs]; by unfold flightKept].
    destruct (genSecretInProgress (lp s)) eqn:Hp; cbn [orb];
      [eapply flightKept_single; [|exact Hs]; by unfold flightKept|].
    destruct (genSecretHeight (lp s) =? MaxInt64);
      [eapply flightKept_single; [|exact Hs]; by unfold flightKept|].
    unfold singleFlight. cbn.
    destruct (genSecretDoneCh (lp s)) as [ok|] eqn:Hd.
    { destruct H2 as [H2 _]; [by eexists|]. congruence. }
    split; [done|]. intros [x Hx]. discriminate Hx.
  - destruct (genSecretDoneCh (lp s)) as [ok|] eqn:Hd; [|done].
    destruct H2 as [_ Ht]; [by eexists|].
    unfold onGenSecretDone, singleFlight. cbn. rewrite Ht.
    split; intros [x Hx]; discriminate Hx.
  - destruct (loadSecretCh (lp s)); [|done].
    eapply flightKept_single; [|exact Hs]. by unfold flightKept.
  - by apply onStop_flight.
  - destruct (genTask (lp s)) as [t|] eqn:Ht; [|done].
    destruct H1 as [Hp _]; [by eexists|].
    destruct (runGenTask_flight X wd s t) as (Hnone & Hsome & Hp').
    unfold singleFlight. rewrite Hnone, Hp', Hp.
    split; [intros [x Hx]; discriminate Hx|done].
  - unfold onNodeUpdate. destruct (clientRuntimes (wk s) !! rid); [|done].
    by destruct reset.
  - by destruct (registerCallback (wk s)).
  - by destruct (enabled (wk s)).
Qed.

Lemma run_singleFlight (X : Externals) (trace : list (World * Event)) :
  forall s, singleFlight (lp s) -> singleFlight (lp (run X s trace)).
Proof.
  induction trace as [|[wd ev] trace IH]; intros s Hs; [done|].
  apply IH. by apply step_singleFlight.
Qed.

(** X15.  In every state the worker can reach at most one generation
    task is out: while a task runs the loop counts an attempt as in
    progress and the completion channel is empty, so that the task's
    send never blocks; a completion waits in the channel only while the
    attempt is still counted; and while an attempt is in progress the
    generation signal launches no further task. *)
Theorem generation_single_flight
    (X : Externals) (rid nid : N) (private : gset string) (gen : bool)
    (trace : list (World * Event)) (wd : World) :
  let s := run X (initState rid nid private gen) trace in
  (is_Some (genTask (lp s)) ->
   genSecretInProgress (lp s) = true /\ genSecretDoneCh (lp s) = None) /\
  (is_Some (genSecretDoneCh (lp s)) ->
   genSecretInProgress (lp s) = true /\ genTask (lp s) = None) /\
  (genSecretInProgress (lp s) = true ->
   genTask (lp (step X wd s EvGenSecret)) = genTask (lp s) /\
   effects (wk (step X wd s EvGenSecret)) = effects (wk s)).
Proof.
  cbn zeta.
  assert (Hs : singleFlight (lp (run X (initState rid nid private gen) trace))).
  { apply run_singleFlight. unfold singleFlight. cbn.
    split; intros [x Hx]; discriminate Hx. }
  destruct Hs as [H1 H2]. split; [exact H1|]. split; [exact H2|].
  generalize (run X (initState rid nid private gen) trace). intros s Hp.
  unfold step. destruct (running (lp s)); cbn [negb]; [|done].
  destruct (genSecretCh (lp s)); [|done].
  unfold onGenSecret. cbn [currentStatus currentRuntimeStatus with_gen
    genSecretInProgress genSecretHeight].
  rewrite Hp. cbn [orb].
  by destruct (currentStatus (lp s)), (currentRuntimeStatus (lp s)).
Qed.

Lemma step_exhausted (X : Externals) (wd : World) (s : State) (ev : Event) :
  isEpochEvent ev = false ->
  retryBounded (lp s) ->
  genSecretRetry (lp s) = generateEphemeralSecretMaxRetries + 1 ->
  genSecretRetry (lp (step X wd s ev)) = generateEphemeralSecretMaxRetries + 1.
Proof.
  unfold retryBounded, generateEphemeralSecretMaxRetries. intros Hev [_ Hd] Hr.
  destruct (step_gen X wd s ev Hev) as [Hk|Hh Hr' Hq|Hh Hr' Hq|Hh Hp Hp' Hr' Hh'];
    [destruct Hk as (_ & Hr' & _)|..]; try congruence.
  exfalso. apply Hh, Hd. lia.
Qed.

Lemma run_exhausted (X : Externals) (trace : list (World * Event)) :
  forall s, sameEpoch trace ->
            retryBounded (lp s) ->
            genSecretRetry (lp s) = generateEphemeralSecretMaxRetries + 1 ->
            genSecretRetry (lp (run X s trace)) = generateEphemeralSecretMaxRetries + 1.
Proof.
  induction trace as [|[wd ev] trace IH]; intros s Hsame Hb Hr; [done|].
  apply IH.
  - intros we Hin. apply Hsame. by apply list_elem_of_further.
  - by apply step_retryBounded.
  - apply step_exhausted; [|done..]. apply (Hsame (wd, ev)), list_elem_of_here.
Qed.

(** X16.  In every state the worker can reach the generation retry
    counter lies between zero and the retry cap plus one.  Once it has
    reached the cap plus one, which is after six attempts in the epoch,
    it stays there and the generation signal launches no task until the
    next epoch transition. *)
Theorem generation_attempts_bounded
    (X : Externals) (rid nid : N) (private : gset string) (gen : bool)
    (trace rest : list (World * Event)) (wd : World) :
  let s := run X (initState rid nid private gen) trace in
  let s' := run X s rest in
  0 <= genSecretRetry (lp s) <= generateEphemeralSecretMaxRetries + 1 /\
  (genSecretRetry (lp s) = generateEphemeralSecretMaxRetries + 1 ->
   sameEpoch rest ->
   genSecretRetry (lp s') = generateEphemeralSecretMaxRetries + 1 /\
   genTask (lp (step X wd s' EvGenSecret)) = genTask (lp s') /\
   effects (wk (step X wd s' EvGenSecret)) = effects (wk s')).
Proof.
  cbn zeta.
  assert (Hb : retryBounded (lp (run X (initState rid nid private gen) trace)))
    by apply run_retryBounded, init_retryBounded.
  split; [apply Hb|]. intros Hr Hsame.
  assert (Hr' : genSecretRetry (lp (run X (run X (initState rid nid private gen) trace) rest))
                = generateEphemeralSecretMaxRetries + 1) by (by apply run_exhausted).
  split; [done|].
  assert (Hb' : retryBounded (lp (run X (run X (initState rid nid private gen) trace) rest)))
    by (by apply run_retryBounded).
  revert Hr' Hb'.
  generalize (run X (run X (initState rid nid private gen) trace) rest).
  intros s Hr' [_ Hd].
  assert (Hmax : genSecretHeight (lp s) = MaxInt64).
  { apply Hd. rewrite Hr'. lia. }
  unfold step. destruct (running (lp s)); cbn [negb]; [|done].
  destruct (genSecretCh (lp s)); [|done].
  unfold onGenSecret. cbn [currentStatus currentRuntimeStatus with_gen
    genSecretInProgress genSecretHeight].
  rewrite Hmax, Z.eqb_refl, orb_true_r.
  by destruct (currentStatus (lp s)), (currentRuntimeStatus (lp s)).
Qed.

Lemma generation_attempts_bounded_witness :
  let s := run toyExternals (initState 7 9 {[ "P0" ]} true) toyExhausted in
  let s' := run toyExternals s [] in
  genSecretRetry (lp s) = generateEphemeralSecretMaxRetries + 1 /\
  genTask (lp (step toyExternals toyNow s' EvGenSecret)) = genTask (lp s').
Proof.
  cbn zeta.
  assert (Hsame : sameEpoch []) by (by apply sameEpoch_check).
  assert (Hr : genSecretRetry (lp (run toyExternals (initState 7 9 {[ "P0" ]} true)
                 toyExhausted)) = generateEphemeralSecretMaxRetries + 1)
    by (vm_compute; reflexivity).
  split; [exact Hr|].
  destruct (generation_attempts_bounded toyExternals 7 9 {[ "P0" ]} true toyExhausted []
              toyNow) as [_ H].
  destruct (H Hr Hsame) as (_ & Hno & _). exact Hno.
Defined.

(** ** Initialization along runs of the worker *)

Lemma initKept_refl (w : Worker) : initKept w w.
Proof. by unfold initKept. Qed.

Lemma initKept_fields (w w' : Worker) :
  initCh w' = initCh w -> registerCallback w' = registerCallback w ->
  enclaveStatus w' = enclaveStatus w -> policyChecksum w' = policyChecksum w ->
  policyUpdateCount w' = policyUpdateCount w -> effects w' = effects w ->
  initKept w w'.
Proof. unfold initKept. intros -> -> -> -> -> ->. done. Qed.

Lemma initKept_trans (w1 w2 w3 : Worker) :
  initKept w1 w2 -> initKept w2 w3 -> initKept w1 w3.
Proof.
  unfold initKept. intros (-> & -> & -> & -> & -> & H1) (-> & -> & -> & -> & -> & H2).
  repeat split; auto.
Qed.

Lemma initKept_emit (w : Worker) (es : list Effect) : initKept w (emit w es).
Proof.
  unfold initKept. do 5 (split; [done|]). intros e He. cbn.
  apply elem_of_app. by left.
Qed.

Lemma initKept_announced (X : Externals) (w w' : Worker) :
  initKept w w' -> announced X w -> announced X w'.
Proof.
  unfold initKept, announced. intros (-> & -> & -> & -> & -> & He) (H0 & H1 & H2).
  split; [exact H0|]. split; [exact H1|].
  intros resp Hresp. destruct (H2 resp Hresp) as (Hc & Hp & v & tee & Hin).
  repeat split; [done..|]. exists v, tee. by apply He.
Qed.

Lemma updateStatus_announced (X : Externals) (wd : World) (w : Worker)
    (status : Status) (rs : runtimeStatus) :
  announced X w -> announced X (updateStatus X wd w status rs).1.
Proof.
  intros Hw.
  assert (Hfail : announced X (armInitTicker
                    (emit w [LocalCall RPCMethodInit (initRequest X w status)]))).
  { eapply initKept_announced; [|exact Hw].
    eapply initKept_trans; [apply initKept_emit|]. by apply initKept_fields. }
  unfold updateStatus.
  destruct (localCallEnclave _ _ _ _ _) as [resp|err]; [|done].
  assert (Hok : announced X
    (with_cache
       (emit
          (with_init (emit w [LocalCall RPCMethodInit (initRequest X w status)])
             (initCh (emit w [LocalCall RPCMethodInit (initRequest X w status)]))
             true false
             (hostedRuntime (emit w [LocalCall RPCMethodInit (initRequest X w status)])))
          [SetAvailable (version rs) (Some (MarshalInitResponse X resp))
             (capabilityTEE rs)])
       (globalStatus w) (Some resp) (st_Policy status)
       (PolicyChecksum (InitResponse_ resp)) (policyUpdateCount w + 1))).
  { destruct Hw as (H0 & _ & _). unfold announced. cbn.
    split; [lia|]. split; [by eexists|].
    intros resp' [= <-]. split; [done|]. split; [lia|].
    exists (version rs), (capabilityTEE rs). set_solver. }
  destruct (capabilityTEE rs) as [tee|]; [|exact Hok].
  destruct (signingKeyFor X tee) as [key|err]; [|done].
  destruct (VerifyInitResponse X resp key); [exact Hok|done].
Qed.

Lemma epochTransition_init (X : Externals) (wd : World) (w : Worker)
    (crw : clientRuntimeWatcher) :
  initKept w (epochTransition X wd w crw).1.
Proof. unfold epochTransition. destruct (GetCommittees wd _); by apply initKept_fields. Qed.

Lemma startClientRuntimeWatcher_init (X : Externals) (wd : World) (w : Worker)
    (rt : Runtime) (status : option Status) :
  initKept w (startClientRuntimeWatcher X wd w rt status).1.
Proof.
  destruct (startClientRuntimeWatcher_cases X wd w rt status) as [[_ ->]|[_ ->]];
    [|apply initKept_refl].
  destruct (NewVersionedNodeDescriptorWatcher wd); [apply initKept_refl|]. cbn [fst].
  eapply initKept_trans; [apply (epochTransition_init X wd w
    {| crw_runtimeID := rt_ID rt; crw_watched := [] |})|].
  eapply initKept_trans; [apply initKept_emit|]. by apply initKept_fields.
Qed.

Lemma recheckAllRuntimes_init (X : Externals) (wd : World) (w : Worker)
    (status : option Status) :
  initKept w (recheckAllRuntimes X wd w status).1.
Proof.
  unfold recheckAllRuntimes. destruct (GetRuntimes wd) as [rts|]; [|apply initKept_refl].
  cbn [fst]. revert w. induction rts as [|rt rts IH]; intros w; [apply initKept_refl|].
  cbn [foldl]. eapply initKept_trans; [|apply IH]. apply startClientRuntimeWatcher_init.
Qed.

Lemma reconcile_announced (X : Externals) (wd : World) (w : Worker)
    (status : Status) (rs : runtimeStatus) :
  announced X w -> announced X (reconcile X wd w status rs).
Proof.
  intros Hw. unfold reconcile.
  pose proof (updateStatus_announced X wd w status rs Hw) as Hu.
  destruct (updateStatus X wd w status rs).2; [done|].
  eapply initKept_announced; [apply recheckAllRuntimes_init|done].
Qed.

Lemma loadSecrets_init (X : Externals) (wd : World)
    (queue : list SignedEncryptedEphemeralSecret) :
  forall (w : Worker) (failed : list SignedEncryptedEphemeralSecret),
    initKept w (loadSecrets X wd w queue failed).1.
Proof.
  induction queue as [|sec queue IH]; intros w failed; [apply initKept_refl|].
  cbn [loadSecrets].
  destruct (loadEphemeralSecret X wd sec).
  - eapply initKept_trans; [|apply IH].
    eapply initKept_trans; [apply initKept_emit|]. by apply initKept_fields.
  - eapply initKept_trans; [|apply IH]. apply initKept_emit.
Qed.

Lemma runGenTask_init (X : Externals) (wd : World) (s : State) (t : GenTask) :
  initKept (wk s) (wk (runGenTask X wd s t)).
Proof.
  unfold runGenTask. destruct (generateEphemeralSecret _ _ _ _ _ _ _) as [es [[]|err]];
    cbn [fst snd wk].
  - eapply initKept_trans; [apply initKept_emit|]. by apply initKept_fields.
  - apply initKept_emit.
Qed.

Lemma provision_init (wd : World) (s : State) :
  initKept (wk s) (wk (provision wd s).1).
Proof.
  unfold provision.
  destruct (ProvisionHostedRuntime wd); [apply initKept_refl|].
  destruct (WatchEvents wd); [by apply initKept_fields|].
  destruct (hrtStart wd), (hrtNotifierStart wd), (SetHostedRuntimeVersion wd);
    by apply initKept_fields.
Qed.

Lemma onStop_init (X : Externals) (wd : World) (s : State) :
  initKept (wk s) (wk (onStop X wd s)).
Proof.
  unfold onStop.
  destruct (genSecretInProgress (lp s)); [|apply initKept_refl].
  destruct (genSecretDoneCh (lp s)); [apply initKept_refl|].
  destruct (genTask (lp s)) as [t|]; [|apply initKept_refl].
  cbn [wk]. apply runGenTask_init.
Qed.

Lemma refreshWatchers_init (X : Externals) (wd : World)
    (crws : list (N * clientRuntimeWatcher)) :
  forall w, initKept w (foldl (refreshWatcher X wd) w crws).
Proof.
  induction crws as [|kv crws IH]; intros w; [apply initKept_refl|].
  cbn [foldl]. eapply initKept_trans; [|apply IH]. unfold refreshWatcher.
  eapply initKept_trans; [apply (epochTransition_init X wd w kv.2)|]. by apply initKept_fields.
Qed.

Lemma step_announced (X : Externals) (wd : World) (s : State) (ev : Event) :
  announced X (wk s) -> announced X (wk (step X wd s ev)).
Proof.
  intros Hw. destruct ev; unfold step.
  all: try (destruct (running (lp s)); cbn [negb]; [|done]).
  - destruct (hrtEventCh (lp s)); [|done].
    assert (Hstart : forall v tee, announced X (wk (onHostStarted X wd s v tee))).
    { intros v tee. unfold onHostStarted. cbn [currentStatus with_load with_host].
      destruct (currentStatus (lp s)) as [status|]; [|done]. cbn [wk].
      apply updateStatus_announced.
      destruct (enclaveStatus (wk s)); [done|].
      eapply initKept_announced; [apply initKept_emit|done]. }
    destruct ev; cbn [onHost wk]; auto.
    all: eapply initKept_announced; [apply initKept_emit|done].
  - unfold onStatus. destruct (negb _); [done|].
    set (s0 := {| wk := setStatus (wk s) status; lp := lp s |}).
    assert (Hup : announced X
                    (wk (if hostedRuntime (wk s0) then (s0, true) else provision wd s0).1)).
    { destruct (hostedRuntime (wk s0)); [done|].
      eapply initKept_announced; [apply (provision_init wd s0)|done]. }
    destruct (if hostedRuntime (wk s0) then (s0, true) else provision wd s0) as [s' ok].
    cbn [fst snd] in *. destruct ok; cbn [negb wk]; [|done].
    destruct (currentRuntimeStatus _); cbn [wk]; [|done].
    by apply reconcile_announced.
  - destruct (initTicker (wk s)); [|done]. unfold onInitTick.
    destruct (currentStatus (lp s)), (currentRuntimeStatus (lp s)); cbn [wk]; try done.
    by apply reconcile_announced.
  - cbn [onRuntime wk].
    eapply initKept_announced; [apply startClientRuntimeWatcher_init|done].
  - cbn [onEpoch wk]. eapply initKept_announced; [apply refreshWatchers_init|done].
  - unfold onBlock. by destruct blk.
  - unfold onSecret. by destruct (negb _).
  - destruct (genSecretCh (lp s)); [|done]. unfold onGenSecret.
    cbn [currentStatus currentRuntimeStatus with_gen genSecretInProgress genSecretHeight].
    destruct (currentStatus (lp s)), (currentRuntimeStatus (lp s)); try done.
    by destruct (_ || _).
  - by destruct (genSecretDoneCh (lp s)).
  - destruct (loadSecretCh (lp s)); [|done]. cbn [onLoadSecret wk].
    eapply initKept_announced; [apply loadSecrets_init|done].
  - eapply initKept_announced; [apply onStop_init|done].
  - destruct (genTask (lp s)) as [t|]; [|done].
    eapply initKept_announced; [apply runGenTask_init|done].
  - unfold onNodeUpdate. destruct (clientRuntimes (wk s) !! rid); [|done].
    by destruct reset.
  - destruct (registerCallback (wk s)) eqn:Hcb; [|done].
    destruct Hw as (H0 & H1 & H2). unfold announced. cbn.
    split; [done|]. split; [|done]. intros _. apply H1. by right.
  - by destruct (enabled (wk s)).
Qed.

Lemma run_announced (X : Externals) (trace : list (World * Event)) :
  forall s, announced X (wk s) -> announced X (wk (run X s trace)).
Proof.
  induction trace as [|[wd ev] trace IH]; intros s Hs; [done|].
  apply IH. by apply step_announced.
Qed.

(** A worker that was started disabled has no loop and no goroutine
    beside it: no event changes its state. *)
Lemma step_disabled (X : Externals) (wd : World) (s : State) (ev : Event) :
  enabled (wk s) = false -> running (lp s) = false -> genTask (lp s) = None ->
  clientRuntimes (wk s) = ∅ -> registerCallback (wk s) = false ->
  step X wd s ev = s.
Proof.
  intros He Hrun Ht Hc Hcb. destruct ev; unfold step; rewrite ?Hrun, ?Ht, ?Hcb, ?He;
    try done.
  unfold onNodeUpdate. by rewrite Hc, lookup_empty.
Qed.

Lemma run_disabled (X : Externals) (rid nid : N) (private : gset string) (gen : bool)
    (trace : list (World * Event)) :
  run X (Start (disabledWorker rid nid private gen)) trace
  = Start (disabledWorker rid nid private gen).
Proof.
  induction trace as [|[wd ev] trace IH]; [done|].
  change (run X ?s ((wd, ev) :: trace)) with (run X (step X wd s ev) trace).
  by rewrite step_disabled.
Qed.

(** X17.  [Start] of an enabled worker enters the loop.  In every state
    an enabled worker can reach, the initialization signal
    ([Initialized()]) has fired only if an init response of the enclave is
    cached; and the cached init response is one the node was announced
    with to the registration worker, its policy checksum is the cached
    policy checksum, and the policy update counter is positive.  [Start]
    of a disabled worker fires the signal at once: nothing is then cached,
    announced or called, whatever happens afterwards. *)
Theorem initialized_after_announcement
    (X : Externals) (rid nid : N) (private : gset string) (gen : bool)
    (trace : list (World * Event)) :
  let w := wk (run X (initState rid nid private gen) trace) in
  let d := wk (run X (Start (disabledWorker rid nid private gen)) trace) in
  Start (newWorker rid nid private gen) = initState rid nid private gen /\
  (initCh w = true -> is_Some (enclaveStatus w)) /\
  (forall resp, enclaveStatus w = Some resp ->
     policyChecksum w = PolicyChecksum (InitResponse_ resp) /\
     0 < policyUpdateCount w /\
     exists v tee, SetAvailable v (Some (MarshalInitResponse X resp)) tee ∈ effects w) /\
  (initCh d = true /\ enclaveStatus d = None /\ effects d = []).
Proof.
  cbn zeta. split; [done|].
  assert (H : announced X (wk (run X (initState rid nid private gen) trace))).
  { apply run_announced. unfold announced. cbn. split; [done|].
    split; [by intros [?|?]|done]. }
  destruct H as (_ & H1 & H2). split; [|split; [exact H2|]].
  - intros Hi. apply H1. by left.
  - by rewrite run_disabled.
Qed.

(** ** The load pass *)

Lemma loadSecrets_pass (X : Externals) (wd : World)
    (queue : list SignedEncryptedEphemeralSecret) :
  forall (w : Worker) (failed : list SignedEncryptedEphemeralSecret),
    (loadSecrets X wd w queue failed).2 = failed ++ List.filter (loadFails X wd) queue /\
    effects (loadSecrets X wd w queue failed).1 = effects w ++ map loadCall queue.
Proof.
  induction queue as [|sec queue IH]; intros w failed.
  - cbn. by rewrite !app_nil_r.
  - cbn [loadSecrets List.filter map]. unfold loadFails at 1.
    destruct (loadEphemeralSecret X wd sec) as [[]|err].
    + destruct (IH (setLastLoadedSecretEpoch
                      (emit w [LocalCall RPCMethodLoadEphemeralSecret (ArgsLoad sec)])
                      (sec_Epoch (Secret sec))) failed) as [-> ->].
      split; [done|]. cbn. by rewrite <- app_assoc.
    + destruct (IH (emit w [LocalCall RPCMethodLoadEphemeralSecret (ArgsLoad sec)])
                  (failed ++ [sec])) as [-> ->].
      split; [by rewrite <- app_assoc|]. cbn. by rewrite <- app_assoc.
Qed.

(** X18.  On a worker whose hosted runtime is provisioned, a load pass of
    the loop offers every queued secret to the enclave exactly once, in
    queue order, and makes no other outward action; the signal is
    consumed; the runtime is still there afterwards; and unless the retry
    cap is exceeded the queue afterwards holds exactly the secrets the
    enclave refused, in their order. *)
Theorem load_pass_keeps_failed
    (X : Externals) (wd : World) (s : State) :
  running (lp s) = true ->
  loadSecretCh (lp s) = true ->
  hostedRuntime (wk s) = true ->
  let s' := step X wd s EvLoadSecret in
  effects (wk s') = effects (wk s) ++ map loadCall (secrets (lp s)) /\
  loadSecretCh (lp s') = false /\
  hostedRuntime (wk s') = true /\
  (loadSecretRetry (lp s') <= loadEphemeralSecretMaxRetries ->
   secrets (lp s') = List.filter (loadFails X wd) (secrets (lp s))).
Proof.
  intros Hrun Hch Hhrt. cbn zeta. unfold step. rewrite Hrun, Hch. cbn [negb].
  unfold onLoadSecret. cbn [wk lp with_load loadSecretCh loadSecretRetry secrets].
  destruct (loadSecrets_pass X wd (secrets (lp s)) (wk s) []) as [Hq He].
  split; [exact He|]. split; [done|].
  split; [by rewrite loadSecrets_hosted|]. intros Hle.
  destruct (loadEphemeralSecretMaxRetries <? wrap64 (loadSecretRetry (lp s) + 1)) eqn:Hcap.
  - apply Z.ltb_lt in Hcap. lia.
  - exact Hq.
Qed.

Lemma load_pass_keeps_failed_witness :
  let s' := step toyExternals toyRejecting toyQueued EvLoadSecret in
  hostedRuntime (wk toyQueued) = true /\
  effects (wk s') = effects (wk toyQueued) ++ [loadCall (toySecret 7 101)] /\
  secrets (lp s') = [toySecret 7 101].
Proof.
  cbn zeta.
  assert (Hrun : running (lp toyQueued) = true) by (vm_compute; reflexivity).
  assert (Hch : loadSecretCh (lp toyQueued) = true) by (vm_compute; reflexivity).
  assert (Hhrt : hostedRuntime (wk toyQueued) = true) by (vm_compute; reflexivity).
  destruct (load_pass_keeps_failed toyExternals toyRejecting toyQueued Hrun Hch Hhrt)
    as (He & _ & _ & Hq).
  split; [exact Hhrt|]. split; [exact He|]. apply Hq. vm_compute. discriminate.
Defined.

(** ** Generation disarmed by a published secret *)

(** X19.  When the loop observes a published secret of its own runtime
    for the next epoch, generation is disarmed: the secret is queued for
    loading, and until the next epoch transition the generation signal
    launches no task and causes no outward action. *)
Theorem published_secret_disarms_generation
    (X : Externals) (wd wd' : World) (s : State)
    (secret : SignedEncryptedEphemeralSecret) (rest : list (World * Event)) :
  running (lp s) = true ->
  sec_ID (Secret secret) = runtimeID (wk s) ->
  sec_Epoch (Secret secret) = wrapU64 (epoch (lp s) + 1) ->
  sameEpoch rest ->
  let s1 := step X wd s (EvSecret secret) in
  let s2 := run X s1 rest in
  secrets (lp s1) = secrets (lp s) ++ [secret] /\
  loadSecretCh (lp s1) = true /\
  genSecretHeight (lp s2) = MaxInt64 /\
  genTask (lp (step X wd' s2 EvGenSecret)) = genTask (lp s2) /\
  effects (wk (step X wd' s2 EvGenSecret)) = effects (wk s2).
Proof.
  intros Hrun Hid Hepoch Hsame. cbn zeta.
  assert (Hs1 : secrets (lp (step X wd s (EvSecret secret))) = secrets (lp s) ++ [secret] /\
                loadSecretCh (lp (step X wd s (EvSecret secret))) = true /\
                genSecretHeight (lp (step X wd s (EvSecret secret))) = MaxInt64).
  { unfold step. rewrite Hrun. cbn [negb]. unfold onSecret.
    rewrite Hid, N.eqb_refl, Hepoch, Z.eqb_refl. by cbn. }
  destruct Hs1 as (Hq & Hch & Hmax). split; [exact Hq|]. split; [exact Hch|].
  assert (Hmax2 : genSecretHeight (lp (run X (step X wd s (EvSecret secret)) rest))
                  = MaxInt64) by (by apply run_stays_disarmed).
  split; [exact Hmax2|]. revert Hmax2.
  generalize (run X (step X wd s (EvSecret secret)) rest). intros s2 Hmax2.
  unfold step. destruct (running (lp s2)); cbn [negb]; [|done].
  destruct (genSecretCh (lp s2)); [|done].
  unfold onGenSecret. cbn [currentStatus currentRuntimeStatus with_gen
    genSecretInProgress genSecretHeight].
  rewrite Hmax2, Z.eqb_refl, orb_true_r.
  by destruct (currentStatus (lp s2)), (currentRuntimeStatus (lp s2)).
Qed.

Lemma published_secret_disarms_generation_witness :
  let s := run toyExternals (initState 7 9 {[ "P0" ]} true) toyArmed in
  let s1 := step toyExternals toyNow s (EvSecret (toySecret 7 101)) in
  let s2 := run toyExternals s1 [(toyNow, EvBlock (Some 60271))] in
  genSecretHeight (lp s) = 60270 /\
  genSecretCh (lp s2) = true /\
  genTask (lp (step toyExternals toyNow s2 EvGenSecret)) = genTask (lp s2).
Proof.
  cbn zeta.
  assert (Hsame : sameEpoch [(toyNow, EvBlock (Some 60271))])
    by (by apply sameEpoch_check).
  split; [vm_compute; reflexivity|]. split; [vm_compute; reflexivity|].
  apply (published_secret_disarms_generation toyExternals toyNow toyNow
           (run toyExternals (initState 7 9 {[ "P0" ]} true) toyArmed)
           (toySecret 7 101) [(toyNow, EvBlock (Some 60271))]).
  - vm_compute; reflexivity.
  - vm_compute; reflexivity.
  - vm_compute; reflexivity.
  - exact Hsame.
Defined.

(** ** Key manager API *)

Lemma TEEHardware_eqb_refl (hw : TEEHardware) : TEEHardware_eqb hw hw = true.
Proof. destruct hw; cbn; [done..|apply N.eqb_refl]. Qed.

(** X20.  Signing and verifying an init response agree: when the
    signature scheme accepts what a signer signs, a response signed by
    [SignInitResponse] carries the response unchanged and passes
    [SignedInitResponse.Verify] under the signer's public key. *)
Theorem SignInitResponse_verifies
    (A : ApiExternals) (signer : Signer A) (response : InitResponse)
    (signed : SignedInitResponse) :
  (forall (ctx : string) (msg sig : bytes),
      ContextSign A signer ctx msg = Ok sig ->
      pkVerify A (signerPublic A signer) ctx msg sig = true) ->
  SignInitResponse A signer response = Ok signed ->
  InitResponse_ signed = response /\
  SignedInitResponse_Verify A signed (signerPublic A signer) = None.
Proof.
  intros Hscheme. unfold SignInitResponse, SignedInitResponse_Verify.
  destruct (ContextSign A signer _ _) as [sig|err] eqn:Hsig; [|done].
  intros [= <-]. cbn. split; [done|]. by rewrite (Hscheme _ _ _ Hsig).
Qed.

Lemma SignInitResponse_verifies_witness :
  SignedInitResponse_Verify toyApi
    {| InitResponse_ := InitResponse_ (toyInitResponse []); ir_Signature := [Byte.x05] |}
    5%N = None.
Proof.
  apply (SignInitResponse_verifies toyApi 5%N (InitResponse_ (toyInitResponse []))).
  - intros ctx msg sig. cbn. intros [= <-]. reflexivity.
  - reflexivity.
Defined.

(** X21.  An announcement the worker makes after checking the enclave's
    signature is one the consensus-side check accepts.  When the runtime
    has a TEE capability and [updateStatus] succeeds, the node runtime
    descriptor written by its registration callback passes
    [VerifyExtraInfo] for every key manager runtime of the same TEE
    hardware whose enclave identity check it passes, and the init
    response extracted is the one the worker cached: both sides pick the
    same key.  This assumes that the worker's signature check is the
    API's [Verify] and that CBOR decodes the announced response to what
    was encoded. *)
Theorem announced_extra_info_verifies
    (A : ApiExternals) (X : Externals) (wd : World) (w : Worker)
    (status : Status) (rs : runtimeStatus) (tee : CapabilityTEE)
    (nodeID : PublicKey) (rt : Runtime) :
  (forall r k, VerifyInitResponse X r k = true -> SignedInitResponse_Verify A r k = None) ->
  capabilityTEE rs = Some tee ->
  (updateStatus X wd w status rs).2 = None ->
  exists (resp : SignedInitResponse) (announcement : Effect) (nodeRt : NodeRuntime),
    enclaveStatus (updateStatus X wd w status rs).1 = Some resp /\
    last (effects (updateStatus X wd w status rs).1) = Some announcement /\
    registeredRuntime w announcement = Some nodeRt /\
    (rt_TEEHardware rt = Hardware tee ->
     VerifyNodeRuntimeEnclaveIDs A nodeID nodeRt rt = None ->
     cborUnmarshalSigned A (MarshalInitResponse X resp) = Ok resp ->
     VerifyExtraInfo A X nodeID rt nodeRt = Ok (InitResponse_ resp)).
Proof.
  intros Hlink Htee. unfold updateStatus. rewrite Htee.
  destruct (localCallEnclave _ _ _ _ _) as [resp|err]; [|done].
  unfold signingKeyFor.
  destruct (Hardware tee) as [| |other] eqn:Hhw; [| |done].
  - destruct (VerifyInitResponse X resp (InsecureRAK X)) eqn:Hv; [|done].
    intros _. eexists resp, _, _. cbn [fst enclaveStatus with_cache effects emit
      with_effects with_init].
    split; [done|]. rewrite last_snoc. split; [done|]. split; [done|].
    intros Hrt Hids Hcbor. unfold VerifyExtraInfo, declaredTEE. cbn [nrt_TEE nrt_ExtraInfo].
    rewrite Hhw, Hrt. cbn [TEEHardware_eqb negb]. rewrite Hids, Hcbor.
    by rewrite (Hlink _ _ Hv).
  - destruct (VerifyInitResponse X resp (RAK tee)) eqn:Hv; [|done].
    intros _. eexists resp, _, _. cbn [fst enclaveStatus with_cache effects emit
      with_effects with_init].
    split; [done|]. rewrite last_snoc. split; [done|]. split; [done|].
    intros Hrt Hids Hcbor. unfold VerifyExtraInfo, declaredTEE. cbn [nrt_TEE nrt_ExtraInfo].
    rewrite Hhw, Hrt. cbn [TEEHardware_eqb negb]. rewrite Hids, Hcbor.
    by rewrite (Hlink _ _ Hv).
Qed.

Lemma announced_extra_info_verifies_witness :
  exists nodeRt : NodeRuntime,
    nrt_ExtraInfo nodeRt = Some [Byte.x01] /\
    VerifyExtraInfo toyApi toyExternals 9%N toyKeyManager nodeRt
    = Ok (InitResponse_ (toyInitResponse [Byte.x01])).
Proof.
  destruct (announced_extra_info_verifies toyApi toyExternals
              (toyWorld 100 1 0 Byte.x01 None) toyWorker toyStatus toyTEEStatus
              {| Hardware := TEEHardwareInvalid; RAK := 5%N; REK := None |} 9%N toyKeyManager)
    as (resp & announcement & nodeRt & Hes & Hlast & Hreg & Hv).
  - intros r k. unfold SignedInitResponse_Verify. cbn. by intros ->.
  - reflexivity.
  - reflexivity.
  - vm_compute in Hes. injection Hes as <-.
    vm_compute in Hlast. injection Hlast as <-.
    cbn in Hreg. injection Hreg as <-.
    exists {| nrt_ID := 7%N; nrt_Version := 1%N;
              nrt_TEE := Some {| Hardware := TEEHardwareInvalid; RAK := 5%N; REK := None |};
              nrt_ExtraInfo := Some [Byte.x01] |}.
    split; [reflexivity|]. apply Hv; reflexivity.
Defined.

(** ** Genesis document assembly *)

Lemma loadEntities_app (G : GenesisEnv) (files1 files2 : list string) :
  forall st,
    loadEntities G (files1 ++ files2) st
    = match loadEntities G files1 st with
      | Err e => Err e
      | Ok st' => loadEntities G files2 st'
      end.
Proof.
  induction files1 as [|v files1 IH]; intros st; [done|].
  cbn [app loadEntities]. destruct (loadSignedEntity G v) as [[se ent]|e]; [|done].
  destruct (appendToEntities st se ent); apply IH.
Qed.

(** After the entity loop every listed file has loaded and its entity's
    identity is in [entMap], which only grows. *)
Lemma loadEntities_seen (G : GenesisEnv) (files : list string) :
  forall st st',
    loadEntities G files st = Ok st' ->
    st.1 ⊆ st'.1 /\
    forall v, v ∈ files ->
      exists se ent, loadSignedEntity G v = Ok (se, ent) /\ ent_ID ent ∈ st'.1.
Proof.
  induction files as [|v files IH]; intros st st' H.
  - cbn in H. injection H as <-. split; [done|]. by intros v ?%elem_of_nil.
  - cbn [loadEntities] in H.
    destruct (loadSignedEntity G v) as [[se ent]|e] eqn:Hload; [|done].
    unfold appendToEntities in H.
    destruct (bool_decide (ent_ID ent ∈ st.1)) eqn:Hin.
    + apply bool_decide_eq_true in Hin. destruct (IH _ _ H) as [Hsub Hall].
      split; [done|]. intros v' Hv'. apply elem_of_cons in Hv' as [->|Hv'].
      * exists se, ent. split; [done|]. by apply Hsub.
      * by apply Hall.
    + destruct (IH _ _ H) as [Hsub Hall]. cbn [fst] in Hsub.
      split; [set_solver|]. intros v' Hv'. apply elem_of_cons in Hv' as [->|Hv'].
      * exists se, ent. split; [done|]. apply Hsub. set_solver.
      * by apply Hall.
Qed.

(** Files whose entities are all in [entMap] already leave the loop's
    state as it is. *)
Lemma loadEntities_known (G : GenesisEnv) (files : list string) :
  forall st,
    (forall v, v ∈ files ->
       exists se ent, loadSignedEntity G v = Ok (se, ent) /\ ent_ID ent ∈ st.1) ->
    loadEntities G files st = Ok st.
Proof.
  induction files as [|v files IH]; intros st Hall; [done|].
  cbn [loadEntities].
  destruct (Hall v) as (se & ent & -> & Hin); [apply list_elem_of_here|].
  unfold appendToEntities. rewrite (bool_decide_eq_true_2 _ Hin).
  apply IH. intros v' Hv'. apply Hall. by apply list_elem_of_further.
Qed.

(** X22.  [AppendRegistryState] tolerates repeated entity files: listing
    again files that are already in the list changes neither the outcome
    nor the registry state produced.  (The duplicate is detected by
    [appendToEntities], but the loop only logs its error.) *)
Theorem AppendRegistryState_repeated_entities
    (G : GenesisEnv) (entities again runtimes nodes : list string) :
  (forall v, v ∈ again -> v ∈ entities) ->
  AppendRegistryState G (entities ++ again) runtimes nodes
  = AppendRegistryState G entities runtimes nodes.
Proof.
  intros Hagain. unfold AppendRegistryState. rewrite loadEntities_app.
  destruct (loadEntities G entities (∅, [])) as [st|e] eqn:Hload; [|done].
  destruct (loadEntities_seen G entities _ _ Hload) as [_ Hall].
  rewrite loadEntities_known; [done|]. intros v Hv. by apply Hall, Hagain.
Qed.

Lemma AppendRegistryState_repeated_entities_witness :
  match AppendRegistryState (toyGenesis false "") ["A"; "B"; "A"] [] [] with
  | Ok regSt => reg_Entities regSt
  | Err _ => []
  end = [ {| se_Blob := [Byte.x41]; se_Signature := [] |};
          {| se_Blob := [Byte.x42]; se_Signature := [] |} ] /\
  AppendRegistryState (toyGenesis false "") (["A"; "B"] ++ ["A"]) [] []
  = AppendRegistryState (toyGenesis false "") ["A"; "B"] [] [].
Proof.
  split; [vm_compute; reflexivity|].
  apply (AppendRegistryState_repeated_entities (toyGenesis false "") ["A"; "B"] ["A"] [] []).
  intros v Hv. apply list_elem_of_singleton in Hv as ->. apply list_elem_of_here.
Defined.

(** What the entity loop leaves in [entMap]: what was there and the
    identities of the listed entities. *)
Lemma loadEntities_entMap (G : GenesisEnv) (files : list string) :
  forall st st',
    loadEntities G files st = Ok st' ->
    forall k, k ∈ st'.1 <-> k ∈ st.1 \/ k ∈ entityIDs G files.
Proof.
  induction files as [|v files IH]; intros st st' H k.
  - cbn in H. injection H as <-. split; [by left|].
    intros [?|Hk]; [done|]. by apply elem_of_nil in Hk.
  - cbn [loadEntities] in H. unfold entityIDs. cbn [omap list_omap].
    fold (entityIDs G files).
    destruct (loadSignedEntity G v) as [[se ent]|e] eqn:Hload; [|done].
    cbn [snd]. rewrite elem_of_cons. unfold appendToEntities in H.
    destruct (bool_decide (ent_ID ent ∈ st.1)) eqn:Hin.
    + apply bool_decide_eq_true in Hin. rewrite (IH _ _ H k).
      split; [tauto|]. intros [?|[->|?]]; tauto.
    + rewrite (IH _ _ H k). cbn [fst]. rewrite elem_of_union, elem_of_singleton. tauto.
Qed.

Lemma loadEntities_total (G : GenesisEnv) (files : list string) :
  forall st,
    (forall v, v ∈ files -> exists p, loadSignedEntity G v = Ok p) ->
    exists st', loadEntities G files st = Ok st'.
Proof.
  induction files as [|v files IH]; intros st Hall; [by eexists|].
  cbn [loadEntities].
  destruct (Hall v) as ([se ent] & ->); [apply list_elem_of_here|].
  destruct (appendToEntities st se ent); apply IH;
    intros v' Hv'; apply Hall; by apply list_elem_of_further.
Qed.

(** X23.  When [AppendRegistryState] succeeds and the configuration names
    a key manager operator, the operator recorded in the registry
    parameters is the identity of the entity in the configured file, and
    that identity belongs to one of the listed entities or to the debug
    test entity. *)
Theorem AppendRegistryState_operator_is_registered
    (G : GenesisEnv) (entities runtimes nodes : list string) (regSt : RegistryGenesis) :
  AppendRegistryState G entities runtimes nodes = Ok regSt ->
  cfgKeyManagerOperator G <> "" ->
  exists se ent,
    loadSignedEntity G (cfgKeyManagerOperator G) = Ok (se, ent) /\
    KeyManagerOperator (reg_Parameters regSt) = ent_ID ent /\
    (ent_ID ent ∈ entityIDs G entities \/
     (DebugTestEntity G = true /\
      exists t signer, TestEntity G = Ok (t, signer) /\ ent_ID t = ent_ID ent)).
Proof.
  unfold AppendRegistryState. intros H Hcfg.
  destruct (loadEntities G entities (∅, [])) as [st|e] eqn:Hload; [|done].
  pose proof (loadEntities_entMap G entities _ _ Hload) as Hmap. cbn [fst] in Hmap.
  destruct (addTestEntity G st 0%N) as [[st1 op1]|e] eqn:Htest; [|done].
  assert (Hst1 : forall k, k ∈ st1.1 ->
            k ∈ entityIDs G entities \/
            (DebugTestEntity G = true /\
             exists t signer, TestEntity G = Ok (t, signer) /\ ent_ID t = k)).
  { intros k Hk. unfold addTestEntity in Htest.
    destruct (DebugTestEntity G) eqn:Hdbg.
    - destruct (TestEntity G) as [[t signer]|e]; [|done].
      destruct (SignEntity G signer t) as [se|e]; [|done].
      unfold appendToEntities in Htest.
      destruct (bool_decide (ent_ID t ∈ st.1)); [done|].
      injection Htest as <- _. cbn [fst] in Hk.
      apply elem_of_union in Hk as [Hk|Hk].
      + apply elem_of_singleton in Hk as ->. right. split; [done|]. by exists t, signer.
      + left. apply Hmap in Hk as [Hk|Hk]; [set_solver|done].
    - injection Htest as <- _. left. apply Hmap in Hk as [Hk|Hk]; [set_solver|done]. }
  unfold setKeyManagerOperator in H.
  assert (Hne : String.eqb (cfgKeyManagerOperator G) "" = false)
    by (by apply String.eqb_neq).
  rewrite Hne in H. cbn [negb] in H.
  destruct (loadSignedEntity G (cfgKeyManagerOperator G)) as [[se ent]|e]; [|done].
  destruct (bool_decide (ent_ID ent ∈ st1.1)) eqn:Hin; cbn [negb] in H; [|done].
  apply bool_decide_eq_true in Hin.
  destruct (loadRuntimes G runtimes []) as [rts|e]; [|done].
  destruct (loadNodes G nodes []) as [ns|e]; [|done].
  injection H as <-. exists se, ent. split; [done|]. split; [done|]. by apply Hst1.
Qed.

Lemma AppendRegistryState_operator_is_registered_witness :
  exists regSt,
    AppendRegistryState (toyGenesis false "B") ["A"; "B"] ["r"] ["n"] = Ok regSt /\
    KeyManagerOperator (reg_Parameters regSt) = 66%N.
Proof.
  destruct (AppendRegistryState (toyGenesis false "B") ["A"; "B"] ["r"] ["n"])
    as [regSt|e] eqn:H; [|vm_compute in H; discriminate H].
  exists regSt. split; [done|].
  destruct (AppendRegistryState_operator_is_registered (toyGenesis false "B")
              ["A"; "B"] ["r"] ["n"] regSt H) as (se & ent & Hload & -> & _).
  - discriminate.
  - vm_compute in Hload. by injection Hload as _ <-.
Defined.

(** X24.  The debug test entity is treated differently from the listed
    files: when every entity file loads and one of them holds the
    identity of the test entity, [AppendRegistryState] with the test
    entity enabled fails with the duplicate registration error. *)
Theorem AppendRegistryState_test_entity_duplicate
    (G : GenesisEnv) (entities runtimes nodes : list string)
    (t : Entity) (signer : N) (se : SignedEntity) :
  DebugTestEntity G = true ->
  TestEntity G = Ok (t, signer) ->
  SignEntity G signer t = Ok se ->
  (forall v, v ∈ entities -> exists p, loadSignedEntity G v = Ok p) ->
  ent_ID t ∈ entityIDs G entities ->
  AppendRegistryState G entities runtimes nodes
  = Err (Errorf "genesis: duplicate entity registration").
Proof.
  intros Hdbg Htest Hsign Hall Hdup. unfold AppendRegistryState.
  destruct (loadEntities_total G entities (∅, []) Hall) as [st Hload]. rewrite Hload.
  pose proof (loadEntities_entMap G entities _ _ Hload (ent_ID t)) as Hmap.
  unfold addTestEntity, appendToEntities. rewrite Hdbg, Htest, Hsign.
  by rewrite bool_decide_eq_true_2 by (apply Hmap; by right).
Qed.

Lemma AppendRegistryState_test_entity_duplicate_witness :
  AppendRegistryState (toyGenesis true "") ["A"; "B"] [] []
  = Err (Errorf "genesis: duplicate entity registration").
Proof.
  apply (AppendRegistryState_test_entity_duplicate (toyGenesis true "") ["A"; "B"] [] []
           {| ent_ID := 65%N; ent_Nodes := [] |} 1%N
           {| se_Blob := []; se_Signature := [Byte.x01] |}).
  - reflexivity.
  - reflexivity.
  - reflexivity.
  - intros v Hv. apply elem_of_cons in Hv as [->|Hv]; [by eexists|].
    apply list_elem_of_singleton in Hv as ->. by eexists.
  - vm_compute. apply list_elem_of_here.
Defined.

(** ** Root hash genesis blocks *)

Lemma addBlocks_app (blks1 blks2 : list Block) :
  forall m,
    addBlocks m (blks1 ++ blks2)
    = match addBlocks m blks1 with
      | Err e => Err e
      | Ok m' => addBlocks m' blks2
      end.
Proof.
  induction blks1 as [|blk blks1 IH]; intros m; [done|].
  cbn [app addBlocks]. destruct (m !! blk_Namespace blk); [done|]. apply IH.
Qed.

(** The inner loop succeeds exactly when the namespaces are new and
    pairwise distinct, and then every block is stored under its
    namespace beside what was there. *)
Lemma addBlocks_spec (blks : list Block) :
  forall m,
    (NoDup (map blk_Namespace blks) /\
     (forall blk, blk ∈ blks -> m !! blk_Namespace blk = None) ->
     exists m', addBlocks m blks = Ok m' /\
       (forall blk, blk ∈ blks -> m' !! blk_Namespace blk = Some blk) /\
       (forall k, k ∉ map blk_Namespace blks -> m' !! k = m !! k) /\
       size m' = (size m + length blks)%nat) /\
    (~ (NoDup (map blk_Namespace blks) /\
        (forall blk, blk ∈ blks -> m !! blk_Namespace blk = None)) ->
     addBlocks m blks = Err (Errorf "duplicate genesis roothash block")).
Proof.
  induction blks as [|blk blks IH]; intros m.
  - split.
    + intros _. exists m. split; [done|]. split; [by intros blk ?%elem_of_nil|].
      split; [done|]. cbn. lia.
    + intros H. exfalso. apply H. split; [constructor|by intros blk ?%elem_of_nil].
  - cbn [addBlocks map]. destruct (m !! blk_Namespace blk) as [old|] eqn:Hm.
    + split; [|done]. intros [_ Hnew]. rewrite Hnew in Hm; [done|apply list_elem_of_here].
    + destruct (IH (<[blk_Namespace blk:=blk]> m)) as [IHok IHerr]. split.
      * intros [Hnd Hnew]. apply NoDup_cons in Hnd as [Hfresh Hnd].
        destruct IHok as (m' & -> & Hall & Hother & Hsize).
        { split; [done|]. intros b Hb.
          rewrite lookup_insert_ne; [apply Hnew; by apply list_elem_of_further|].
          intros Heq. apply Hfresh. rewrite Heq. by apply list_elem_of_fmap_2. }
        exists m'. split; [done|]. split; [|split].
        -- intros b Hb. apply elem_of_cons in Hb as [->|Hb]; [|by apply Hall].
           rewrite Hother by done. apply lookup_insert_eq.
        -- intros k Hk. apply not_elem_of_cons in Hk as [Hk1 Hk2].
           rewrite Hother by done. by rewrite lookup_insert_ne.
        -- rewrite Hsize, map_size_insert_None by done. cbn [length]. lia.
      * intros Hbad. apply IHerr. intros [Hnd Hnew]. apply Hbad. split.
        -- apply NoDup_cons. split; [|done]. intros Hin.
           apply list_elem_of_fmap in Hin as (b & Heq & Hb).
           specialize (Hnew b Hb). rewrite <- Heq, lookup_insert_eq in Hnew. done.
        -- intros b Hb. apply elem_of_cons in Hb as [->|Hb]; [done|].
           specialize (Hnew b Hb).
           destruct (decide (blk_Namespace b = blk_Namespace blk)) as [Heq|Hne].
           ++ rewrite Heq, lookup_insert_eq in Hnew. done.
           ++ by rewrite lookup_insert_ne in Hnew.
Qed.

(** When every export file can be read and decoded, the loop over the
    files is the inner loop over all their blocks. *)
Lemma loadExports_flat (G : GenesisEnv) (exports : list string)
    (files : list (list Block)) :
  Forall2 (fun v blks => exportedBlocks G v = Some blks) exports files ->
  forall m, loadExports G exports m = addBlocks m (concat files).
Proof.
  induction 1 as [|v blks exports files Hv _ IH]; intros m; [done|].
  cbn [loadExports concat]. unfold exportedBlocks in Hv.
  destruct (ReadFile G v) as [b|]; [|done].
  destruct (jsonBlocks G b) as [blks'|]; [|done]. injection Hv as ->.
  rewrite addBlocks_app. destruct (addBlocks m blks); [apply IH|done].
Qed.

(** X25.  When every export file can be read and decoded,
    [AppendRootHashState] succeeds exactly when no two exported blocks,
    of the same file or of different files, share a namespace.  It then
    stores every block under its namespace and nothing else; otherwise it
    fails with the duplicate block error. *)
Theorem AppendRootHashState_distinct_namespaces
    (G : GenesisEnv) (exports : list string) (files : list (list Block)) :
  Forall2 (fun v blks => exportedBlocks G v = Some blks) exports files ->
  (NoDup (map blk_Namespace (concat files)) ->
   exists rootSt,
     AppendRootHashState G exports = Ok rootSt /\
     rh_Parameters rootSt = cfgRootHashParameters G /\
     (forall blk, blk ∈ concat files -> rh_Blocks rootSt !! blk_Namespace blk = Some blk) /\
     size (rh_Blocks rootSt) = length (concat files)) /\
  (~ NoDup (map blk_Namespace (concat files)) ->
   AppendRootHashState G exports = Err (Errorf "duplicate genesis roothash block")).
Proof.
  intros Hfiles. unfold AppendRootHashState.
  rewrite (loadExports_flat G exports files Hfiles).
  destruct (addBlocks_spec (concat files) ∅) as [Hok Herr]. split.
  - intros Hnd. destruct Hok as (m' & -> & Hall & _ & Hsize).
    { split; [done|]. intros blk _. apply lookup_empty. }
    eexists. split; [done|]. cbn [rh_Parameters rh_Blocks].
    split; [done|]. split; [done|]. rewrite Hsize, map_size_empty. lia.
  - intros Hdup. rewrite Herr; [done|]. intros [Hnd _]. by apply Hdup.
Qed.

Lemma AppendRootHashState_distinct_namespaces_witness :
  (exists rootSt, AppendRootHashState (toyGenesis false "") ["A"; "B"] = Ok rootSt /\
                  size (rh_Blocks rootSt) = 2%nat) /\
  AppendRootHashState (toyGenesis false "") ["A"; "B"; "A"]
  = Err (Errorf "duplicate genesis roothash block").
Proof.
  pose (blockOf := fun k : N => {| blk_Namespace := k; blk_Round := 0; blk_Rest := [] |}).
  split.
  - destruct (AppendRootHashState_distinct_namespaces (toyGenesis false "") ["A"; "B"]
                [[blockOf 65%N]; [blockOf 66%N]]) as [Hok _].
    { repeat constructor. }
    destruct Hok as (rootSt & H & _ & _ & Hsize).
    { cbn. repeat constructor; set_solver. }
    exists rootSt. split; [exact H|exact Hsize].
  - apply (AppendRootHashState_distinct_namespaces (toyGenesis false "") ["A"; "B"; "A"]
             [[blockOf 65%N]; [blockOf 66%N]; [blockOf 65%N]]).
    { repeat constructor. }
    cbn. intros Hnd. apply NoDup_cons in Hnd as [Hfresh _]. apply Hfresh. set_solver.
Defined.

(** ** No initialization without a running runtime *)

Lemma initCalls_emit (w : Worker) (es : list Effect) :
  List.filter isInitCall es = [] -> initCalls (emit w es) = initCalls w.
Proof.
  intros H. unfold initCalls, emit. cbn. by rewrite List.filter_app, H, app_nil_r.
Qed.

Lemma loadCalls_not_init (queue : list SignedEncryptedEphemeralSecret) :
  List.filter isInitCall (map loadCall queue) = [].
Proof. by induction queue. Qed.

Lemma generateEphemeralSecret_not_init (X : Externals) (wd : World) (w : Worker)
    (rid : N) (epoch : Z) (kmStatus : Status) (rs : runtimeStatus) :
  List.filter isInitCall (generateEphemeralSecret X wd w rid epoch kmStatus rs).1 = [].
Proof.
  unfold generateEphemeralSecret.
  destruct (GetEphemeralSecret wd rid epoch); [done| |done].
  by destruct (generateAndPublish_cases X wd w epoch kmStatus rs)
    as [(-> & _)|[(-> & _)|(tx & kmRt & rak & reks & -> & _)]].
Qed.

Lemma runGenTask_initCalls (X : Externals) (wd : World) (s : State) (t : GenTask) :
  initCalls (wk (runGenTask X wd s t)) = initCalls (wk s) /\
  currentRuntimeStatus (lp (runGenTask X wd s t)) = currentRuntimeStatus (lp s).
Proof.
  unfold runGenTask.
  pose proof (generateEphemeralSecret_not_init X wd (wk s) (runtimeID (wk s))
                (task_epoch t) (task_kmStatus t) (task_rtStatus t)) as Hno.
  destruct (generateEphemeralSecret _ _ _ _ _ _ _) as [es [[]|err]]; cbn [fst snd wk lp] in *.
  - split; [|done].
    change (initCalls (setLastGeneratedSecretEpoch ?w ?e)) with (initCalls w).
    by apply initCalls_emit.
  - split; [|done]. by apply initCalls_emit.
Qed.

Lemma startClientRuntimeWatcher_initCalls (X : Externals) (wd : World) (w : Worker)
    (rt : Runtime) (status : option Status) :
  initCalls (startClientRuntimeWatcher X wd w rt status).1 = initCalls w.
Proof.
  destruct (startClientRuntimeWatcher_cases X wd w rt status) as [[_ ->]|[_ ->]]; [|done].
  destruct (NewVersionedNodeDescriptorWatcher wd); [done|]. cbn [fst].
  destruct (epochTransition_count X wd w
              {| crw_runtimeID := rt_ID rt; crw_watched := [] |}) as (_ & _ & He).
  unfold initCalls. cbn. by rewrite He, List.filter_app, app_nil_r.
Qed.

Lemma refreshWatchers_initCalls (X : Externals) (wd : World)
    (crws : list (N * clientRuntimeWatcher)) :
  forall w, initCalls (foldl (refreshWatcher X wd) w crws) = initCalls w.
Proof.
  induction crws as [|kv crws IH]; intros w; [done|].
  cbn [foldl]. rewrite IH. unfold refreshWatcher, initCalls. cbn.
  by destruct (epochTransition_count X wd w kv.2) as (_ & _ & ->).
Qed.

Lemma provision_initCalls (wd : World) (s : State) :
  initCalls (wk (provision wd s).1) = initCalls (wk s) /\
  currentRuntimeStatus (lp (provision wd s).1) = currentRuntimeStatus (lp s).
Proof.
  unfold provision.
  destruct (ProvisionHostedRuntime wd); [done|].
  destruct (WatchEvents wd); [done|].
  by destruct (hrtStart wd), (hrtNotifierStart wd), (SetHostedRuntimeVersion wd).
Qed.

Lemma step_without_runtime (X : Externals) (wd : World) (s : State) (ev : Event) :
  isHostStart ev = false ->
  currentRuntimeStatus (lp s) = None ->
  currentRuntimeStatus (lp (step X wd s ev)) = None /\
  initCalls (wk (step X wd s ev)) = initCalls (wk s).
Proof.
  intros Hev Hrs. destruct ev; unfold step.
  all: try (destruct (running (lp s)); cbn [negb]; [|done]).
  - destruct (hrtEventCh (lp s)); [|done].
    destruct ev; try discriminate Hev; cbn [onHost wk lp]; [| |done].
    all: split; [done|]; by apply initCalls_emit.
  - unfold onStatus. destruct (negb _); [done|].
    set (s0 := {| wk := setStatus (wk s) status; lp := lp s |}).
    assert (Hup : initCalls
                    (wk (if hostedRuntime (wk s0) then (s0, true) else provision wd s0).1)
                  = initCalls (wk s) /\
                  currentRuntimeStatus
                    (lp (if hostedRuntime (wk s0) then (s0, true) else provision wd s0).1)
                  = None).
    { destruct (hostedRuntime (wk s0)); [done|].
      destruct (provision_initCalls wd s0) as [-> ->]. done. }
    destruct (if hostedRuntime (wk s0) then (s0, true) else provision wd s0) as [s' ok].
    cbn [fst snd] in *. destruct Hup as [Hc Hn].
    destruct ok; cbn [negb wk lp]; [|done].
    cbn [currentRuntimeStatus with_host]. by rewrite Hn.
  - destruct (initTicker (wk s)); [|done]. unfold onInitTick. rewrite Hrs.
    by destruct (currentStatus (lp s)).
  - cbn [onRuntime wk lp]. split; [done|]. apply startClientRuntimeWatcher_initCalls.
  - cbn [onEpoch wk lp]. split; [done|]. apply refreshWatchers_initCalls.
  - unfold onBlock. destruct blk as [h|]; [|done]. cbn [wk lp]. split; [|done].
    destruct (genSecretHeight (lp s) <=? h);
      by destruct (0 <? Z.of_nat (length (secrets _))).
  - unfold onSecret. destruct (negb _); [done|]. cbn [wk lp]. split; [|done].
    by destruct (sec_Epoch (Secret s0) =? wrapU64 (epoch (lp s) + 1)).
  - destruct (genSecretCh (lp s)); [|done]. unfold onGenSecret.
    cbn [currentStatus currentRuntimeStatus with_gen genSecretInProgress genSecretHeight].
    rewrite Hrs. by destruct (currentStatus (lp s)).
  - by destruct (genSecretDoneCh (lp s)).
  - destruct (loadSecretCh (lp s)); [|done]. cbn [onLoadSecret wk lp]. split; [done|].
    destruct (loadSecrets_pass X wd (secrets (lp s)) (wk s) []) as [_ He].
    unfold initCalls. by rewrite He, List.filter_app, loadCalls_not_init, app_nil_r.
  - unfold onStop.
    assert (Hdrain : forall s', currentRuntimeStatus (lp s') = None ->
              currentRuntimeStatus
                (lp {| wk := wk s';
                       lp := stopped
                               (if genSecretInProgress (lp s')
                                then with_gen (lp s') (epoch (lp s')) (genSecretCh (lp s')) None
                                       (genSecretHeight (lp s')) (genSecretInProgress (lp s'))
                                       (genSecretRetry (lp s')) (genTask (lp s'))
                                else lp s') |}) = None).
    { intros s' Hs'. cbn [lp]. by destruct (genSecretInProgress (lp s')). }
    destruct (genSecretInProgress (lp s)) eqn:Hin;
      [|split; [by apply Hdrain|done]].
    destruct (genSecretDoneCh (lp s)); [split; [by apply Hdrain|done]|].
    destruct (genTask (lp s)) as [t|]; [|split; [by apply Hdrain|done]].
    destruct (runGenTask_initCalls X wd s t) as [Hc Hr].
    split; [apply Hdrain; by rewrite Hr|exact Hc].
  - destruct (genTask (lp s)) as [t|]; [|done].
    destruct (runGenTask_initCalls X wd s t) as [Hc Hr]. by rewrite Hr.
  - unfold onNodeUpdate. destruct (clientRuntimes (wk s) !! rid); [|done].
    by destruct reset.
  - by destruct (registerCallback (wk s)).
  - by destruct (enabled (wk s)).
Qed.

(** X26.  The enclave is not initialized while the hosted runtime is not
    known to run: from a state without a runtime status (as at start-up,
    or after the runtime stopped or failed to start), no sequence of
    events without a start or update report of the runtime makes an
    [init] call, whatever statuses and retry ticks arrive. *)
Theorem no_init_without_runtime
    (X : Externals) (trace : list (World * Event)) (s : State) :
  currentRuntimeStatus (lp s) = None ->
  (forall we, we ∈ trace -> isHostStart we.2 = false) ->
  initCalls (wk (run X s trace)) = initCalls (wk s) /\
  currentRuntimeStatus (lp (run X s trace)) = None.
Proof.
  revert s. induction trace as [|[wd ev] trace IH]; intros s Hrs Hno; [done|].
  destruct (step_without_runtime X wd s ev) as [Hrs' Hc];
    [apply (Hno (wd, ev)), list_elem_of_here|done|].
  change (run X s ((wd, ev) :: trace)) with (run X (step X wd s ev) trace).
  destruct (IH (step X wd s ev) Hrs') as [-> ->]; [|done].
  intros we Hin. apply Hno. by apply list_elem_of_further.
Qed.

Lemma no_init_without_runtime_witness :
  let s := run toyExternals toyStarted [(toyNow, EvHost Stopped)] in
  let trace := [(toyNow, EvStatus toyStatus); (toyNow, EvInitTick);
                (toyNow, EvSecret (toySecret 7 101)); (toyNow, EvLoadSecret)] in
  initCalls (wk toyStarted) = 1%nat /\
  initCalls (wk (run toyExternals s trace)) = initCalls (wk s).
Proof.
  cbn zeta. split; [vm_compute; reflexivity|].
  apply (no_init_without_runtime toyExternals
           [(toyNow, EvStatus toyStatus); (toyNow, EvInitTick);
            (toyNow, EvSecret (toySecret 7 101)); (toyNow, EvLoadSecret)]
           (run toyExternals toyStarted [(toyNow, EvHost Stopped)])).
  - vm_compute; reflexivity.
  - intros we Hin. repeat (apply elem_of_cons in Hin as [->|Hin]; [reflexivity|]).
    by apply elem_of_nil in Hin.
Defined.

(** ** The hosted runtime is there when the loop needs it *)

Lemma updateStatus_hosted (X : Externals) (wd : World) (w : Worker)
    (status : Status) (rs : runtimeStatus) :
  hostedKept w (updateStatus X wd w status rs).1.
Proof.
  unfold updateStatus, hostedKept.
  destruct (localCallEnclave _ _ _ _ _) as [resp|err]; [|done].
  destruct (capabilityTEE rs) as [tee|]; [|done].
  destruct (signingKeyFor X tee) as [key|err]; [|done].
  by destruct (VerifyInitResponse X resp key).
Qed.

Lemma setupKept_trans (w1 w2 w3 : Worker) :
  setupKept w1 w2 -> setupKept w2 w3 -> setupKept w1 w3.
Proof.
  intros (A1 & A2 & A3 & A4 & A5) (B1 & B2 & B3 & B4 & B5).
  unfold setupKept. by rewrite B1, B2, B3, B4, B5.
Qed.

Lemma epochTransition_setup (X : Externals) (wd : World) (w : Worker)
    (crw : clientRuntimeWatcher) :
  setupKept w (epochTransition X wd w crw).1.
Proof. unfold epochTransition, setupKept. by destruct (GetCommittees wd _). Qed.

Lemma startClientRuntimeWatcher_setup (X : Externals) (wd : World) (w : Worker)
    (rt : Runtime) (status : option Status) :
  setupKept w (startClientRuntimeWatcher X wd w rt status).1.
Proof.
  destruct (startClientRuntimeWatcher_cases X wd w rt status) as [[_ ->]|[_ ->]]; [|done].
  destruct (NewVersionedNodeDescriptorWatcher wd); [done|]. cbn [fst].
  eapply setupKept_trans;
    [apply (epochTransition_setup X wd w {| crw_runtimeID := rt_ID rt; crw_watched := [] |})|].
  done.
Qed.

Lemma recheckAllRuntimes_hosted (X : Externals) (wd : World) (w : Worker)
    (status : option Status) :
  hostedKept w (recheckAllRuntimes X wd w status).1.
Proof.
  unfold recheckAllRuntimes. destruct (GetRuntimes wd) as [rts|]; [|done]. cbn [fst].
  revert w. induction rts as [|rt rts IH]; intros w; [done|].
  cbn [foldl]. unfold hostedKept in *. rewrite IH.
  apply startClientRuntimeWatcher_setup.
Qed.

Lemma reconcile_hosted (X : Externals) (wd : World) (w : Worker)
    (status : Status) (rs : runtimeStatus) :
  hostedKept w (reconcile X wd w status rs).
Proof.
  unfold reconcile, hostedKept.
  pose proof (updateStatus_hosted X wd w status rs) as Hu. unfold hostedKept in Hu.
  destruct (updateStatus X wd w status rs).2; [done|].
  by rewrite (recheckAllRuntimes_hosted X wd).
Qed.

Lemma runGenTask_hosted (X : Externals) (wd : World) (s : State) (t : GenTask) :
  hostedKept (wk s) (wk (runGenTask X wd s t)).
Proof.
  unfold runGenTask, hostedKept. by destruct (generateEphemeralSecret _ _ _ _ _ _ _).2.
Qed.

Lemma refreshWatchers_setup (X : Externals) (wd : World)
    (crws : list (N * clientRuntimeWatcher)) :
  forall w, setupKept w (foldl (refreshWatcher X wd) w crws).
Proof.
  induction crws as [|kv crws IH]; intros w; [done|].
  cbn [foldl]. eapply setupKept_trans; [|apply IH]. unfold refreshWatcher.
  eapply setupKept_trans; [apply (epochTransition_setup X wd w kv.2)|]. done.
Qed.

Lemma loadSecrets_setup (X : Externals) (wd : World)
    (queue : list SignedEncryptedEphemeralSecret) :
  forall (w : Worker) (failed : list SignedEncryptedEphemeralSecret),
    setupKept w (loadSecrets X wd w queue failed).1.
Proof.
  induction queue as [|sec queue IH]; intros w failed; [done|].
  cbn [loadSecrets].
  destruct (loadEphemeralSecret X wd sec); (eapply setupKept_trans; [|apply IH]); done.
Qed.

Lemma onStop_hosted (X : Externals) (wd : World) (s : State) :
  hostedKept (wk s) (wk (onStop X wd s)).
Proof.
  unfold onStop.
  destruct (genSecretInProgress (lp s)); [|done].
  destruct (genSecretDoneCh (lp s)); [done|].
  destruct (genTask (lp s)) as [t|]; [|done].
  cbn [wk]. apply runGenTask_hosted.
Qed.

(** Provisioning either fails before the runtime exists, or leaves it
    provisioned. *)
Lemma provision_hosted (wd : World) (s : State) :
  (hostedRuntime (wk (provision wd s).1) = true) \/
  ((provision wd s) = (s, false)).
Proof.
  unfold provision.
  destruct (ProvisionHostedRuntime wd); [by right|]. left.
  destruct (WatchEvents wd); [done|].
  by destruct (hrtStart wd), (hrtNotifierStart wd), (SetHostedRuntimeVersion wd).
Qed.

(** A provisioned runtime stays provisioned. *)
Lemma step_hosted (X : Externals) (wd : World) (s : State) (ev : Event) :
  hostedRuntime (wk s) = true -> hostedRuntime (wk (step X wd s ev)) = true.
Proof.
  intros Hh. destruct ev; unfold step.
  all: try (destruct (running (lp s)); cbn [negb]; [|done]).
  - destruct (hrtEventCh (lp s)); [|done].
    assert (Hstart : forall v tee, hostedRuntime (wk (onHostStarted X wd s v tee)) = true).
    { intros v tee. unfold onHostStarted. cbn [currentStatus with_load with_host].
      destruct (currentStatus (lp s)) as [status|]; [|done]. cbn [wk].
      rewrite (updateStatus_hosted X wd). by destruct (enclaveStatus (wk s)). }
    destruct ev; cbn [onHost wk]; auto.
  - unfold onStatus. destruct (negb _); [done|].
    cbn [wk setStatus hostedRuntime with_cache]. rewrite Hh. cbn [fst snd negb wk lp].
    destruct (currentRuntimeStatus _); cbn [wk]; [|done].
    by rewrite (reconcile_hosted X wd).
  - destruct (initTicker (wk s)); [|done]. unfold onInitTick.
    destruct (currentStatus (lp s)), (currentRuntimeStatus (lp s)); cbn [wk]; try done.
    by rewrite (reconcile_hosted X wd).
  - unfold onRuntime; cbn [wk]. by rewrite (proj1 (startClientRuntimeWatcher_setup X wd _ _ _)).
  - unfold onEpoch; cbn [wk]. by rewrite (proj1 (refreshWatchers_setup X wd _ _)).
  - unfold onBlock. by destruct blk.
  - unfold onSecret. by destruct (negb _).
  - destruct (genSecretCh (lp s)); [|done]. unfold onGenSecret.
    cbn [currentStatus currentRuntimeStatus with_gen genSecretInProgress genSecretHeight].
    destruct (currentStatus (lp s)), (currentRuntimeStatus (lp s)); try done.
    by destruct (_ || _).
  - by destruct (genSecretDoneCh (lp s)).
  - destruct (loadSecretCh (lp s)); [|done]. unfold onLoadSecret; cbn [wk].
    by rewrite loadSecrets_hosted.
  - by rewrite (onStop_hosted X wd).
  - destruct (genTask (lp s)) as [t|]; [|done]. by rewrite (runGenTask_hosted X wd).
  - unfold onNodeUpdate. destruct (clientRuntimes (wk s) !! rid); [|done].
    by destruct reset.
  - by destruct (registerCallback (wk s)).
  - by destruct (enabled (wk s)).
Qed.

Lemma run_hosted (X : Externals) (trace : list (World * Event)) :
  forall s, hostedRuntime (wk s) = true -> hostedRuntime (wk (run X s trace)) = true.
Proof.
  induction trace as [|[wd ev] trace IH]; intros s Hs; [done|].
  apply IH. by apply step_hosted.
Qed.

(** Before the runtime is provisioned nothing that needs it begins. *)
Lemma step_pristine (X : Externals) (wd : World) (s : State) (ev : Event) :
  hostedRuntime (wk s) = false -> pristine s -> runtimeReady (step X wd s ev).
Proof.
  intros Hh (Hch & Hrs & Ht & Htick & Hcb & Hi & Hes).
  assert (Hsame : runtimeReady s) by (right; by repeat split).
  destruct ev; unfold step.
  all: try (destruct (running (lp s)); cbn [negb]; [|done]).
  - by rewrite Hch.
  - unfold onStatus. destruct (negb _); [done|].
    cbn [wk setStatus hostedRuntime with_cache]. rewrite Hh.
    set (s0 := {| wk := setStatus (wk s) status; lp := lp s |}).
    destruct (provision_hosted wd s0) as [Hp|Hp].
    + left. destruct (provision wd s0) as [s' ok]. cbn [fst snd] in *.
      destruct ok; cbn [negb wk]; [|done].
      cbn [currentRuntimeStatus with_host].
      destruct (currentRuntimeStatus (lp s')); cbn [wk]; [|done].
      by rewrite (reconcile_hosted X wd).
    + rewrite Hp. cbn [snd fst negb wk lp]. right. by repeat split.
  - by rewrite Htick.
  - unfold onRuntime. right.
    destruct (startClientRuntimeWatcher_setup X wd (wk s) rt (currentStatus (lp s)))
      as (K1 & K2 & K3 & K4 & K5).
    split; [cbn [wk]; congruence|].
    unfold pristine. cbn [wk lp]. repeat split; congruence.
  - unfold onEpoch. right.
    destruct (refreshWatchers_setup X wd (map_to_list (clientRuntimes (wk s))) (wk s))
      as (K1 & K2 & K3 & K4 & K5).
    split; [cbn [wk]; congruence|].
    unfold pristine. cbn [wk lp]. repeat split; try congruence; done.
  - unfold onBlock. destruct blk as [h|]; [|right; by repeat split].
    right. split; [done|]. unfold pristine. cbn [wk lp].
    destruct (genSecretHeight (lp s) <=? h);
      destruct (0 <? Z.of_nat (length (secrets _))); by repeat split.
  - unfold onSecret. destruct (negb _); [done|]. right. split; [done|].
    unfold pristine. cbn [wk lp].
    destruct (sec_Epoch (Secret s0) =? wrapU64 (epoch (lp s) + 1)); by repeat split.
  - destruct (genSecretCh (lp s)); [|done]. unfold onGenSecret.
    cbn [currentStatus currentRuntimeStatus with_gen genSecretInProgress genSecretHeight].
    rewrite Hrs. right. split; [by destruct (currentStatus (lp s))|].
    unfold pristine. by destruct (currentStatus (lp s)).
  - destruct (genSecretDoneCh (lp s)); [|done]. right. split; [done|].
    unfold pristine, onGenSecretDone. by cbn.
  - destruct (loadSecretCh (lp s)); [|done]. right. unfold onLoadSecret.
    destruct (loadSecrets_setup X wd (secrets (lp s)) (wk s) [])
      as (K1 & K2 & K3 & K4 & K5).
    split; [cbn [wk]; congruence|].
    unfold pristine. cbn [wk lp]. repeat split; try congruence; done.
  - unfold onStop. rewrite Ht.
    destruct (genSecretInProgress (lp s)) eqn:Hp.
    + destruct (genSecretDoneCh (lp s)); rewrite Hp; right; (split; [done|]);
        unfold pristine; by cbn.
    + rewrite Hp. right. split; [done|]. unfold pristine. by cbn.
  - by rewrite Ht.
  - unfold onNodeUpdate. destruct (clientRuntimes (wk s) !! rid); [|done].
    destruct reset; [done|]. right. by repeat split.
  - by rewrite Hcb.
  - destruct (enabled (wk s)); [|done]. right. by repeat split.
Qed.

Lemma run_runtimeReady (X : Externals) (trace : list (World * Event)) :
  forall s, runtimeReady s -> runtimeReady (run X s trace).
Proof.
  induction trace as [|[wd ev] trace IH]; intros s Hs; [done|].
  apply IH. destruct Hs as [Hh|[Hh Hp]].
  - left. by apply step_hosted.
  - by apply step_pristine.
Qed.

(** X27.  The loop initializes the enclave and generates secrets on a
    provisioned runtime only.  In every state an enabled worker can reach,
    an open event channel of the runtime, a known runtime status, a
    generation task in flight, an armed retry ticker, a pending
    registration, a cached init response and a fired initialization
    signal (after which [CallEnclave] takes the hosted runtime to be there)
    each imply that the hosted runtime is provisioned; and a provisioned
    runtime stays provisioned. *)
Theorem hosted_runtime_when_needed
    (X : Externals) (rid nid : N) (private : gset string) (gen : bool)
    (trace rest : list (World * Event)) :
  let s := run X (initState rid nid private gen) trace in
  (hrtEventCh (lp s) = true \/ is_Some (currentRuntimeStatus (lp s)) \/
   is_Some (genTask (lp s)) \/ initTicker (wk s) = true \/
   registerCallback (wk s) = true \/ is_Some (enclaveStatus (wk s)) \/
   initCh (wk s) = true ->
   hostedRuntime (wk s) = true) /\
  (hostedRuntime (wk s) = true -> hostedRuntime (wk (run X s rest)) = true).
Proof.
  cbn zeta. split; [|apply run_hosted].
  assert (H : runtimeReady (run X (initState rid nid private gen) trace)).
  { apply run_runtimeReady. right. by repeat split. }
  destruct H as [H|[_ (Hch & Hrs & Ht & Htick & Hcb & Hi & Hes)]]; [done|].
  rewrite Hch, Hrs, Ht, Htick, Hcb, Hi, Hes.
  intros [?|[[? ?]|[[? ?]|[?|[?|[[? ?]|?]]]]]]; done.
Qed.

Lemma hosted_runtime_when_needed_witness :
  hostedRuntime (wk toyStarted) = true /\
  hostedRuntime (wk (run toyExternals toyStarted [(toyNow, EvHost Stopped)])) = true.
Proof.
  destruct (hosted_runtime_when_needed toyExternals 7 9 {[ "P0" ]} true
              [(toyNow, EvStatus toyStatus); (toyNow, EvHost (Started 1 None))]
              [(toyNow, EvHost Stopped)]) as [Hneed Hstay].
  assert (Hh : hostedRuntime (wk toyStarted) = true).
  { apply Hneed. right. left. vm_compute. by eexists. }
  split; [exact Hh|]. apply Hstay. exact Hh.
Defined.
